(** * qwkpkt: the Unserializer of [src/Unserializer.ts]

    A shallow embedding of the decoder, of the properties of it that the
    specification states, and of further properties that the code shows.

    The decoder is a class with five mutable fields ([buf], [pos], [length],
    [cache], [scache]) and one recursive method, [unserialize], that reads one
    tag character and dispatches on it.  The embedding threads the fields
    through a state-and-error monad and keeps the values the decoder constructs
    in a store of objects addressed by creation order, so that two references
    to one JavaScript object are two occurrences of one address.

    Conventions of the model.
    - Numbers that the decoder computes with (cursor, lengths, indices, the
      results of [readDigits]) are integers of [Z]; JavaScript doubles agree
      with them below 2^53, and a theorem that tells the value of such a
      number keeps to that range.
    - A string is a [string] of 8-bit code units; [charCodeAt] past either end
      is [None], which is the NaN that [isEof] tests for.
    - [parseFloat], [decodeURIComponent] and the conversion of a value to a
      property key belong to the host and are taken from the class [Host];
      the interface [TypeResolver] is a class as well.
    - JavaScript arrays are kept with their [length] and a finite map of their
      integer-keyed properties; an integer is an array index when it is
      between 0 and 2^32 - 2, and only a write at an array index moves
      [length].  The two caches grow one entry per [push], which keeps their
      capacity out of reach, and are lists.
    - Plain objects, class instances and the two maps that are plain objects
      are finite maps from property keys to values: the order of the
      properties and the accessor [__proto__] are not kept.  An assignment
      to the key [__proto__] changes the prototype of a JavaScript object
      and stores no property; where a theorem tells what an assignment
      stores, or the prototype of the object that is returned, it leaves
      that key aside.
    - A class that a resolver returns is known by its name and its
      [_qwkpktDecode] method; its prototype is taken to define no accessor
      and no read-only property under a key that is decoded, so that an
      assignment to an instance stores a property of the instance.
    - A [_qwkpktDecode] method is a finite program over the public interface
      of the decoder ([HookProg]); it does not reach the protected fields.
    - The static registries and [registerSerializableClass],
      [registerSerializableEnum] are not part of the model: a resolver is
      any pair of lookups.
    - [while] loops and the recursion of [unserialize] take a step budget;
      [OutOfFuel] is the answer of a run that is still going when the budget
      is spent, and an answer, once given, is the answer on every larger
      budget ([unserialize_fuel_mono]). *)

From stdpp Require Import gmap strings list pretty.
From Stdlib Require Import ZArith Lia.

Local Open Scope Z_scope.

(** ** Values and objects *)

(** An address is the rank of an object among the objects constructed. *)
Abbreviation addr := nat (only parsing).

(** A JavaScript number: an integer, one of the three special values, or a
    finite double that is not an integer, kept by a literal that
    [parseFloat] turns into it. *)
Inductive Num :=
  | NInt (z : Z)
  | NNaN
  | NNegInf
  | NPosInf
  | NFloat (lit : string).

Inductive Value :=
  | VNull
  | VBool (b : bool)
  | VNum (n : Num)
  | VStr (s : string)
  | VRef (a : addr).

Definition isObject (v : Value) : bool :=
  match v with VRef _ => true | _ => false end.

(** The messages of the [Error]s the decoder throws, and the errors of the
    host operations it calls. *)
Inductive Error :=
  | InvalidObject
  | InvalidObjectKey
  | UnknownEnumTag (tag : Value)
  | InvalidStringLength
  | InvalidReference
  | InvalidStringReference
  | Thrown (v : Value)
  | ClassNotFound (name : Value)
  | EnumNotFound (name : Value)
  | InvalidIntMapFormat
  | InvalidBytesLength
  | InvalidCustomData
  | NotImplemented (what : string)
  | InvalidChar (c : option Z) (p : Z)
  | URIError
  | TypeError (msg : string)
  | RangeError (msg : string)
  | UserError (msg : string).

(** The taxonomy of section 7 of the specification. *)
Inductive ErrorKind :=
  | FormatError
  | ResolutionError
  | UnsupportedFeatureError
  | PropagatedFailure
  | HostError.

Definition errorKind (e : Error) : ErrorKind :=
  match e with
  | InvalidObject | InvalidObjectKey | InvalidStringLength
  | InvalidReference | InvalidStringReference | InvalidIntMapFormat
  | InvalidBytesLength | InvalidCustomData | InvalidChar _ _ => FormatError
  | ClassNotFound _ | EnumNotFound _ | UnknownEnumTag _ => ResolutionError
  | NotImplemented _ => UnsupportedFeatureError
  | Thrown _ => PropagatedFailure
  | URIError | TypeError _ | RangeError _ | UserError _ => HostError
  end.

(** A [_qwkpktDecode] method is code of the user's class.  It receives the
    decoder and can call its public method [unserialize] (catching what it
    throws or not), assign fields of its own instance, return, or throw. *)
Inductive HookProg :=
  | HReturn
  | HThrow (e : Error)
  | HSetField (k : string) (v : Value) (next : HookProg)
  | HUnserialize (k : Value -> HookProg) (h : Error -> HookProg).

(** What [resolveClass] hands back: a constructor, of which the decoder uses
    the prototype and, for tag [C], the method [_qwkpktDecode] (applied to the
    instance it is called on). *)
Record ClassDesc := mkClass {
  className : string;
  qwkpktDecode : option (Value -> HookProg)
}.

(** What [resolveEnum] hands back: [getEnumConstructs] is the array of the
    constructors, each known by its [name]. *)
Record EnumDesc := mkEnum {
  enumName : string;
  getEnumConstructs : list string
}.

Inductive Proto :=
  | PObject
  | PClass (c : ClassDesc).

Inductive Obj :=
  | OArray (len : Z) (elems : gmap Z Value)
  | OObject (proto : Proto) (fields : gmap string Value)
  | OEnum (e : EnumDesc) (ctor : nat) (args : list Value)
  | OWeakMap (entries : gmap addr Value)
  | ODate (t : Num)
  | OBuffer (base64 : string).

(** ** The decoder's state *)

Record State := mkState {
  buf : string;
  pos : Z;
  cache : list Value;
  scache : list string;
  heap : list Obj
}.

(** [this.length], set once by the constructor to [s.length]. *)
Definition buflen (st : State) : Z := Z.of_nat (String.length (buf st)).

(** [new Unserializer(s)] *)
Definition newUnserializer (s : string) : State :=
  {| buf := s; pos := 0; cache := []; scache := []; heap := [] |}.

Definition setPos (p : Z) (st : State) : State :=
  {| buf := buf st; pos := p; cache := cache st; scache := scache st;
     heap := heap st |}.

Definition setHeap (h : list Obj) (st : State) : State :=
  {| buf := buf st; pos := pos st; cache := cache st; scache := scache st;
     heap := h |}.

Inductive Result (A : Type) :=
  | Ok (a : A) (st : State)
  | Err (e : Error) (st : State)
  | OutOfFuel.
Arguments Ok {A} a st.
Arguments Err {A} e st.
Arguments OutOfFuel {A}.

Definition M (A : Type) : Type := State -> Result A.

Definition ret {A} (a : A) : M A := fun st => Ok a st.

Definition bind {A B} (m : M A) (k : A -> M B) : M B :=
  fun st =>
    match m st with
    | Ok a st' => k a st'
    | Err e st' => Err e st'
    | OutOfFuel => OutOfFuel
    end.

Definition throw {A} (e : Error) : M A := fun st => Err e st.

Declare Scope dec_scope.
Delimit Scope dec_scope with dec.
Notation "x <- m ;; k" := (bind m (fun x => k))
  (at level 100, m at next level, right associativity) : dec_scope.
Notation "m ;;; k" := (bind m (fun _ => k))
  (at level 100, right associativity) : dec_scope.
Local Open Scope dec_scope.

(** ** Strings *)

Definition charCodeAt (s : string) (i : Z) : option Z :=
  if i <? 0 then None
  else match String.get (Z.to_nat i) s with
       | Some c => Some (Z.of_nat (Ascii.nat_of_ascii c))
       | None => None
       end.

(** [s.substr(start, length)] *)
Definition substr (s : string) (start len : Z) : string :=
  let size := Z.of_nat (String.length s) in
  let from := if start <? 0 then Z.max (size + start) 0 else Z.min start size in
  let n := Z.min (Z.max len 0) (size - from) in
  String.substring (Z.to_nat from) (Z.to_nat n) s.

(** [s.replace(/a/g, b)] for single characters *)
Fixpoint replaceAll (a b : Ascii.ascii) (s : string) : string :=
  match s with
  | EmptyString => EmptyString
  | String c s' => String (if Ascii.eqb c a then b else c) (replaceAll a b s')
  end.

Definition percent : Ascii.ascii := Ascii.ascii_of_nat 37.
Definition plus : Ascii.ascii := Ascii.ascii_of_nat 43.
Definition colon : Ascii.ascii := Ascii.ascii_of_nat 58.
Definition slash : Ascii.ascii := Ascii.ascii_of_nat 47.

(** [get(this.pos)] *)
Definition peek : M (option Z) :=
  fun st => Ok (charCodeAt (buf st) (pos st)) st.

(** [get(this.pos++)] *)
Definition next : M (option Z) :=
  fun st => Ok (charCodeAt (buf st) (pos st)) (setPos (pos st + 1) st).

(** [this.pos++] *)
Definition skip : M unit := fun st => Ok tt (setPos (pos st + 1) st).

(** [this.pos += n] *)
Definition advance (n : Z) : M unit := fun st => Ok tt (setPos (pos st + n) st).

(** ** The store *)

Definition alloc (o : Obj) : M Value :=
  fun st => Ok (VRef (length (heap st))) (setHeap (heap st ++ [o]) st).

Definition update (v : Value) (f : Obj -> Obj) : M unit :=
  fun st =>
    match v with
    | VRef a => Ok tt (setHeap (alter f a (heap st)) st)
    | _ => Ok tt st
    end.

(** [this.cache.push(v)] *)
Definition pushCache (v : Value) : M unit :=
  fun st => Ok tt {| buf := buf st; pos := pos st; cache := cache st ++ [v];
                     scache := scache st; heap := heap st |}.

(** [this.scache.push(s)] *)
Definition pushSCache (s : string) : M unit :=
  fun st => Ok tt {| buf := buf st; pos := pos st; cache := cache st;
                     scache := scache st ++ [s]; heap := heap st |}.

(** *** Arrays *)

(** One more than the largest array index, and the largest [length]. *)
Definition MAX_LENGTH : Z := 2 ^ 32 - 1.

Definition isArrayIndex (i : Z) : bool := (0 <=? i) && (i <? MAX_LENGTH).

Definition arrayLength (h : list Obj) (v : Value) : Z :=
  match v with
  | VRef a => match h !! a with Some (OArray len _) => len | _ => 0 end
  | _ => 0
  end.

(** [a[i] = v]: the property is written; [length] moves when [i] is an array
    index at or past it. *)
Definition arraySet (i : Z) (v : Value) (o : Obj) : Obj :=
  match o with
  | OArray len elems =>
      OArray (if isArrayIndex i then Z.max len (i + 1) else len)
             (<[i := v]> elems)
  | _ => o
  end.

(** What [a.push(v)] writes before it sets [length]. *)
Definition arrayPut (i : Z) (v : Value) (o : Obj) : Obj :=
  match o with
  | OArray len elems => OArray len (<[i := v]> elems)
  | _ => o
  end.

(** [a.push(v)]: writes the property whose key is [length], then sets
    [length] to one more, which is a RangeError past the largest length. *)
Definition arrayPush (a : Value) (v : Value) : M unit :=
  fun st =>
    let len := arrayLength (heap st) a in
    if len <? MAX_LENGTH then update a (arraySet len v) st
    else (update a (arrayPut len v) ;;;
          throw (RangeError "Invalid array length")) st.

(** *** Objects and maps *)

(** [o[k] = v], for a key [k] other than [__proto__] *)
Definition setField (k : string) (v : Value) (o : Obj) : Obj :=
  match o with
  | OObject p fields => OObject p (<[k := v]> fields)
  | _ => o
  end.

Definition weakMapSet (k : addr) (v : Value) (o : Obj) : Obj :=
  match o with
  | OWeakMap entries => OWeakMap (<[k := v]> entries)
  | _ => o
  end.

(** [wm.set(k, v)]: a key that is not an object is a TypeError. *)
Definition weakMapSetM (wm : Value) (k v : Value) : M unit :=
  match k with
  | VRef ka => update wm (weakMapSet ka v)
  | _ => throw (TypeError "Invalid value used as weak map key")
  end.

(** ** The host and the resolver *)

(** No character of [s] is a percent sign. *)
Fixpoint noPercent (s : string) : bool :=
  match s with
  | EmptyString => true
  | String c s' => negb (Ascii.eqb c percent) && noPercent s'
  end.

Class Host := {
  (** A result that is an integer is given as [NInt]. *)
  parseFloat : string -> Num;
  (** [None] is the URIError of a malformed escape sequence. *)
  decodeURIComponent : string -> option string;
  (** The property key that a value which is not a string converts to. *)
  toPropertyKey : list Obj -> Value -> string;
  (** A string without an escape sequence decodes to itself. *)
  decodeURIComponent_plain :
    forall s, noPercent s = true -> decodeURIComponent s = Some s
}.

(** The interface [TypeResolver]; [None] is [undefined] or [null]. *)
Class TypeResolver := {
  resolveClass : Value -> option ClassDesc;
  resolveEnum : Value -> option EnumDesc
}.

(** ** State readers *)

(** [c === n], false for NaN *)
Definition codeIs (c : option Z) (n : Z) : bool :=
  match c with Some x => x =? n | None => false end.

(** [this.pos >= this.length] *)
Definition atEnd : M bool := fun st => Ok (buflen st <=? pos st) st.

(** [this.length - this.pos] *)
Definition remaining : M Z := fun st => Ok (buflen st - pos st) st.

(** [this.buf.substr(this.pos, n)] *)
Definition substrAt (n : Z) : M string :=
  fun st => Ok (substr (buf st) (pos st) n) st.

Definition getPos : M Z := fun st => Ok (pos st) st.

Definition getHeap : M (list Obj) := fun st => Ok (heap st) st.

Definition outOfFuel {A} : M A := fun _ => OutOfFuel.

(** ** Scalar readers *)

(** The loop of [readDigits] on the variables [k], [s] and [this.pos]; it
    leaves by one of its three [break]s within [String.length b + 1] rounds,
    as every round that continues moves the cursor forward. *)
Fixpoint readDigitsLoop (n : nat) (b : string) (fpos : Z)
    (k : Z) (s : bool) (p : Z) : Z * bool * Z :=
  match n with
  | O => (k, s, p)
  | S n' =>
      match charCodeAt b p with
      | None => (k, s, p)
      | Some c =>
          if c =? 45 then
            if negb (p =? fpos) then (k, s, p)
            else readDigitsLoop n' b fpos k true (p + 1)
          else if (c <? 48) || (c >? 57) then (k, s, p)
          else readDigitsLoop n' b fpos (k * 10 + (c - 48)) s (p + 1)
      end
  end.

(** [readDigits()]: the integer that the digits spell, which is the number
    that the code computes when it is between -2^53 and 2^53. *)
Definition readDigits : M Z :=
  fun st =>
    let '(k, s, p) :=
      readDigitsLoop (S (String.length (buf st))) (buf st) (pos st)
                     0 false (pos st) in
    Ok (if s then k * -1 else k) (setPos p st).

(** The test of the loop of [readFloat]. *)
Definition floatChar (c : Z) : bool :=
  ((43 <=? c) && (c <? 58)) || (c =? 101) || (c =? 69).

Fixpoint readFloatLoop (n : nat) (b : string) (p : Z) : Z :=
  match n with
  | O => p
  | S n' =>
      match charCodeAt b p with
      | None => p
      | Some c => if floatChar c then readFloatLoop n' b (p + 1) else p
      end
  end.

Section Decoder.

Context {host : Host} {resolver : TypeResolver}.

Definition readFloat : M Num :=
  fun st =>
    let p1 := pos st in
    let p := readFloatLoop (S (String.length (buf st))) (buf st) p1 in
    Ok (parseFloat (substr (buf st) p1 (p - p1))) (setPos p st).

(** ** Bodies of compound values *)

(** [unserializeObject(o)]; [rec] is [this.unserialize]. *)
Fixpoint unserializeObject (rec : M Value) (fuel : nat) (o : Value) : M unit :=
  match fuel with
  | O => outOfFuel
  | S f =>
      e <- atEnd ;;
      if e : bool then throw InvalidObject
      else
        c <- peek ;;
        if codeIs c 103 then skip
        else
          k <- rec ;;
          match k with
          | VStr key =>
              v <- rec ;;
              update o (setField key v) ;;;
              unserializeObject rec f o
          | _ => throw InvalidObjectKey
          end
  end.

(** [constructs[tag]] for a number, [constructs.find(e => e.name === tag)]
    otherwise; the constructor is given by its place in [constructs]. *)
Fixpoint findName (tag : string) (constructs : list string) (i : nat)
    : option nat :=
  match constructs with
  | [] => None
  | e :: rest => if String.eqb e tag then Some i else findName tag rest (S i)
  end.

Definition enumClass (constructs : list string) (tag : Value) : option nat :=
  match tag with
  | VNum (NInt i) =>
      if i <? 0 then None
      else match constructs !! Z.to_nat i with
           | Some _ => Some (Z.to_nat i)
           | None => None
           end
  | VNum _ => None
  | VStr s => findName s constructs 0
  | _ => None
  end.

(** [Array(numArgs).fill(0).map(_ => this.unserialize())] *)
Fixpoint readArgs (rec : M Value) (n : nat) : M (list Value) :=
  match n with
  | O => ret []
  | S n' => v <- rec ;; vs <- readArgs rec n' ;; ret (v :: vs)
  end.

(** [unserializeEnum(edecl, tag)] *)
Definition unserializeEnum (rec : M Value) (edecl : EnumDesc) (tag : Value)
    : M Value :=
  skip ;;;
  match enumClass (getEnumConstructs edecl) tag with
  | None => throw (UnknownEnumTag tag)
  | Some ctor =>
      numArgs <- readDigits ;;
      if (numArgs <? 0) || (MAX_LENGTH <? numArgs)
      then throw (RangeError "Invalid array length")
      else
        args <- readArgs rec (Z.to_nat numArgs) ;;
        alloc (OEnum edecl ctor args)
  end.

(** The body of an array, tag [a]. *)
Fixpoint arrayLoop (rec : M Value) (fuel : nat) (a : Value) : M unit :=
  match fuel with
  | O => outOfFuel
  | S f =>
      c <- peek ;;
      if codeIs c 104 then skip
      else if codeIs c 117 then
        skip ;;;
        n <- readDigits ;;
        h <- getHeap ;;
        update a (arraySet (arrayLength h a + n - 1) VNull) ;;;
        arrayLoop rec f a
      else
        v <- rec ;;
        arrayPush a v ;;;
        arrayLoop rec f a
  end.

(** The body of a list, tag [l]. *)
Fixpoint listLoop (rec : M Value) (fuel : nat) (l : Value) : M unit :=
  match fuel with
  | O => outOfFuel
  | S f =>
      c <- peek ;;
      if codeIs c 104 then skip
      else
        v <- rec ;;
        arrayPush l v ;;;
        listLoop rec f l
  end.

(** [hsm[smt] = v]: a string is its own key, any other value is converted. *)
Definition setProperty (o : Value) (k : Value) (v : Value) : M unit :=
  h <- getHeap ;;
  update o (setField (match k with VStr s => s | _ => toPropertyKey h k end) v).

(** The body of a string map, tag [b]. *)
Fixpoint stringMapLoop (rec : M Value) (fuel : nat) (hsm : Value) : M unit :=
  match fuel with
  | O => outOfFuel
  | S f =>
      c <- peek ;;
      if codeIs c 104 then skip
      else
        smt <- rec ;;
        v <- rec ;;
        setProperty hsm smt v ;;;
        stringMapLoop rec f hsm
  end.

(** The body of an int map, tag [q]; [c] is read at the head of each round. *)
Fixpoint intMapLoop (rec : M Value) (fuel : nat) (him : Value) : M unit :=
  match fuel with
  | O => outOfFuel
  | S f =>
      c <- next ;;
      if codeIs c 58 then
        i <- readDigits ;;
        v <- rec ;;
        setProperty him (VNum (NInt i)) v ;;;
        intMapLoop rec f him
      else if codeIs c 104 then ret tt
      else throw InvalidIntMapFormat
  end.

(** The body of an object map, tag [M]. *)
Fixpoint objectMapLoop (rec : M Value) (fuel : nat) (wm : Value) : M unit :=
  match fuel with
  | O => outOfFuel
  | S f =>
      c <- peek ;;
      if codeIs c 104 then skip
      else
        wms <- rec ;;
        v <- rec ;;
        weakMapSetM wm wms v ;;;
        objectMapLoop rec f wm
  end.

(** The run of a [_qwkpktDecode] method on the instance [self]. *)
Fixpoint runHook (rec : M Value) (self : Value) (p : HookProg) : M unit :=
  match p with
  | HReturn => ret tt
  | HThrow e => throw e
  | HSetField k v p' => update self (setField k v) ;;; runHook rec self p'
  | HUnserialize k h =>
      fun st =>
        match rec st with
        | Ok v st' => runHook rec self (k v) st'
        | Err e st' => runHook rec self (h e) st'
        | OutOfFuel => OutOfFuel
        end
  end.

(** ** The dispatcher *)

Inductive Tag :=
  | TNull | TTrue | TFalse | TZero | TInt | TFloat | TString
  | TNaN | TNegInf | TPosInf | TArray | TObject | TRef | TStrRef
  | TThrow | TClass | TEnumName | TEnumIndex | TList | TStringMap
  | TIntMap | TObjectMap | TDate | TBytes | TCustom
  | TClassValue | TEnumValue.

(** The [case] labels of the [switch]; [None] is [default]. *)
Definition tagOf (c : option Z) : option Tag :=
  match c with
  | Some 110 => Some TNull
  | Some 116 => Some TTrue
  | Some 102 => Some TFalse
  | Some 122 => Some TZero
  | Some 105 => Some TInt
  | Some 100 => Some TFloat
  | Some 121 => Some TString
  | Some 107 => Some TNaN
  | Some 109 => Some TNegInf
  | Some 112 => Some TPosInf
  | Some 97 => Some TArray
  | Some 111 => Some TObject
  | Some 114 => Some TRef
  | Some 82 => Some TStrRef
  | Some 120 => Some TThrow
  | Some 99 => Some TClass
  | Some 119 => Some TEnumName
  | Some 106 => Some TEnumIndex
  | Some 108 => Some TList
  | Some 98 => Some TStringMap
  | Some 113 => Some TIntMap
  | Some 77 => Some TObjectMap
  | Some 118 => Some TDate
  | Some 115 => Some TBytes
  | Some 67 => Some TCustom
  | Some 65 => Some TClassValue
  | Some 66 => Some TEnumValue
  | _ => None
  end.

(** [this.cache[n]] and [this.scache[n]] behind their range checks. *)
Definition cacheAt (n : Z) : M Value :=
  fun st =>
    if (n <? 0) || (Z.of_nat (length (cache st)) <=? n)
    then Err InvalidReference st
    else match cache st !! Z.to_nat n with
         | Some v => Ok v st
         | None => Err InvalidReference st
         end.

Definition scacheAt (n : Z) : M Value :=
  fun st =>
    if (n <? 0) || (Z.of_nat (length (scache st)) <=? n)
    then Err InvalidStringReference st
    else match scache st !! Z.to_nat n with
         | Some s => Ok (VStr s) st
         | None => Err InvalidStringReference st
         end.

(** The payload of one tag; [rec] is [this.unserialize] and [f] the budget
    of the loops. *)
Definition unserializeTag (rec : M Value) (f : nat) (t : Tag) : M Value :=
  match t with
  | TNull => ret VNull
  | TTrue => ret (VBool true)
  | TFalse => ret (VBool false)
  | TZero => ret (VNum (NInt 0))
  | TInt => n <- readDigits ;; ret (VNum (NInt n))
  | TFloat => d <- readFloat ;; ret (VNum d)
  | TString =>
      len <- readDigits ;;
      c <- next ;;
      rem <- remaining ;;
      if negb (codeIs c 58) || (rem <? len) then throw InvalidStringLength
      else
        s <- substrAt len ;;
        advance len ;;;
        match decodeURIComponent s with
        | None => throw URIError
        | Some s' => pushSCache s' ;;; ret (VStr s')
        end
  | TNaN => ret (VNum NNaN)
  | TNegInf => ret (VNum NNegInf)
  | TPosInf => ret (VNum NPosInf)
  | TArray =>
      a <- alloc (OArray 0 ∅) ;;
      pushCache a ;;;
      arrayLoop rec f a ;;;
      ret a
  | TObject =>
      o <- alloc (OObject PObject ∅) ;;
      pushCache o ;;;
      unserializeObject rec f o ;;;
      ret o
  | TRef => n <- readDigits ;; cacheAt n
  | TStrRef => n <- readDigits ;; scacheAt n
  | TThrow => v <- rec ;; throw (Thrown v)
  | TClass =>
      cname <- rec ;;
      match resolveClass cname with
      | None => throw (ClassNotFound cname)
      | Some cli =>
          co <- alloc (OObject (PClass cli) ∅) ;;
          pushCache co ;;;
          unserializeObject rec f co ;;;
          ret co
      end
  | TEnumName =>
      ename1 <- rec ;;
      match resolveEnum ename1 with
      | None => throw (EnumNotFound ename1)
      | Some edecl1 =>
          tag <- rec ;;
          e1 <- unserializeEnum rec edecl1 tag ;;
          pushCache e1 ;;;
          skip ;;;
          ret e1
      end
  | TEnumIndex =>
      ename2 <- rec ;;
      match resolveEnum ename2 with
      | None => throw (EnumNotFound ename2)
      | Some edecl2 =>
          skip ;;;
          index <- readDigits ;;
          e2 <- unserializeEnum rec edecl2 (VNum (NInt index)) ;;
          pushCache e2 ;;;
          skip ;;;
          ret e2
      end
  | TList =>
      l <- alloc (OArray 0 ∅) ;;
      pushCache l ;;;
      listLoop rec f l ;;;
      ret l
  | TStringMap =>
      hsm <- alloc (OObject PObject ∅) ;;
      pushCache hsm ;;;
      stringMapLoop rec f hsm ;;;
      ret hsm
  | TIntMap =>
      him <- alloc (OObject PObject ∅) ;;
      pushCache him ;;;
      intMapLoop rec f him ;;;
      ret him
  | TObjectMap =>
      wm <- alloc (OWeakMap ∅) ;;
      pushCache wm ;;;
      objectMapLoop rec f wm ;;;
      ret wm
  | TDate =>
      t <- readFloat ;;
      d <- alloc (ODate t) ;;
      pushCache d ;;;
      ret d
  | TBytes =>
      bytesLen <- readDigits ;;
      c <- next ;;
      rem <- remaining ;;
      if negb (codeIs c 58) || (rem <? bytesLen) then throw InvalidBytesLength
      else
        s <- substrAt bytesLen ;;
        bytes <- alloc (OBuffer (replaceAll colon slash
                                   (replaceAll percent plus s))) ;;
        advance bytesLen ;;;
        pushCache bytes ;;;
        ret bytes
  | TCustom =>
      name <- rec ;;
      match resolveClass name with
      | None => throw (ClassNotFound name)
      | Some cl =>
          cclo <- alloc (OObject (PClass cl) ∅) ;;
          pushCache cclo ;;;
          match qwkpktDecode cl with
          | None => throw (TypeError "cclo._qwkpktDecode is not a function")
          | Some decode => runHook rec cclo (decode cclo)
          end ;;;
          c <- next ;;
          if codeIs c 103 then ret cclo else throw InvalidCustomData
      end
  | TClassValue => throw (NotImplemented "classes")
  | TEnumValue => throw (NotImplemented "enums")
  end.

(** [unserialize()] *)
Fixpoint unserialize (fuel : nat) : M Value :=
  match fuel with
  | O => outOfFuel
  | S f =>
      c <- next ;;
      match tagOf c with
      | Some t => unserializeTag (unserialize f) f t
      | None =>
          advance (-1) ;;;
          c' <- peek ;;
          p <- getPos ;;
          throw (InvalidChar c' p)
      end
  end.

End Decoder.

(** ** A host and a resolver for the examples *)

Definition code (c : Ascii.ascii) : Z := Z.of_nat (Ascii.nat_of_ascii c).

Definition isDigit (c : Ascii.ascii) : bool :=
  (48 <=? code c) && (code c <=? 57).

(** The digits at the head of a string, and what follows them. *)
Fixpoint spanDigits (s : string) : string * string :=
  match s with
  | EmptyString => (EmptyString, EmptyString)
  | String c s' =>
      if isDigit c
      then let '(d, r) := spanDigits s' in (String c d, r)
      else (EmptyString, s)
  end.

Fixpoint digitsValue (s : string) (acc : Z) : Z :=
  match s with
  | EmptyString => acc
  | String c s' => digitsValue s' (acc * 10 + (code c - 48))
  end.

(** A sign at the head of a string: whether it is a minus, and the rest. *)
Definition spanSign (s : string) : bool * string :=
  match s with
  | String c r =>
      if code c =? 45 then (true, r)
      else if code c =? 43 then (false, r)
      else (false, s)
  | EmptyString => (false, s)
  end.

(** [parseFloat] on the decimal literal at the head of [s]: a sign, digits,
    a dot and digits, an exponent.  The value is computed exactly; it is an
    [NInt] when it is an integer and stands as the literal otherwise. *)
Definition plainParseFloat (s : string) : Num :=
  let '(neg, s1) := spanSign s in
  let '(ip, r1) := spanDigits s1 in
  let '(fp, r2) :=
    match r1 with
    | String c r => if code c =? 46 then spanDigits r else (EmptyString, r1)
    | EmptyString => (EmptyString, r1)
    end in
  let exponent :=
    match r2 with
    | String c r =>
        if (code c =? 101) || (code c =? 69) then
          let '(eneg, r3) := spanSign r in
          let '(ed, _) := spanDigits r3 in
          if eneg then - digitsValue ed 0 else digitsValue ed 0
        else 0
    | EmptyString => 0
    end in
  match ip, fp with
  | EmptyString, EmptyString => NNaN
  | _, _ =>
      let m := digitsValue (ip +:+ fp) 0 in
      let scale := exponent - Z.of_nat (String.length fp) in
      if 0 <=? scale then NInt ((if neg then -1 else 1) * (m * 10 ^ scale))
      else if m mod 10 ^ (- scale) =? 0
           then NInt ((if neg then -1 else 1) * (m / 10 ^ (- scale)))
           else NFloat s
  end.

Definition hexValue (c : Ascii.ascii) : option Z :=
  let n := code c in
  if (48 <=? n) && (n <=? 57) then Some (n - 48)
  else if (65 <=? n) && (n <=? 70) then Some (n - 55)
  else if (97 <=? n) && (n <=? 102) then Some (n - 87)
  else None.

(** The escape sequences of one byte below 128; the others decode to code
    units that 8-bit strings do not have and are refused. *)
Fixpoint unescape (s : string) : option string :=
  match s with
  | EmptyString => Some EmptyString
  | String c r =>
      if Ascii.eqb c percent then
        match r with
        | String h1 (String h2 r') =>
            match hexValue h1, hexValue h2 with
            | Some a, Some b =>
                if 16 * a + b <? 128 then
                  match unescape r' with
                  | Some t =>
                      Some (String (Ascii.ascii_of_nat
                                      (Z.to_nat (16 * a + b))) t)
                  | None => None
                  end
                else None
            | _, _ => None
            end
        | _ => None
        end
      else
        match unescape r with
        | Some t => Some (String c t)
        | None => None
        end
  end.

Definition plainDecode (s : string) : option string :=
  if noPercent s then Some s else unescape s.

(** [String(v)] for the values that are no objects; an object is given the
    key of a plain object. *)
Definition plainKey (v : Value) : string :=
  match v with
  | VNull => "null"
  | VBool true => "true"
  | VBool false => "false"
  | VNum (NInt z) => pretty z
  | VNum NNaN => "NaN"
  | VNum NNegInf => "-Infinity"
  | VNum NPosInf => "Infinity"
  | VNum (NFloat lit) => lit
  | VStr s => s
  | VRef _ => "[object Object]"
  end.

#[export] Instance plainHost : Host := {|
  parseFloat := plainParseFloat;
  decodeURIComponent := plainDecode;
  toPropertyKey _ v := plainKey v;
  decodeURIComponent_plain := fun s (Hs : noPercent s = true) =>
    @eq_ind_r bool true
      (fun b : bool => (if b then Some s else unescape s) = Some s)
      eq_refl (noPercent s) Hs
|}.

Definition Color : EnumDesc := mkEnum "Color" ["Red"; "Rgb"].
Definition Point : ClassDesc := mkClass "Point" None.

(** A [_qwkpktDecode] that reads one value into the field [v]. *)
Definition Box : ClassDesc :=
  mkClass "Box"
    (Some (fun _ => HUnserialize (fun v => HSetField "v" v HReturn) HThrow)).

#[export] Instance exampleResolver : TypeResolver := {|
  resolveClass name :=
    match name with
    | VStr "Point" => Some Point
    | VStr "Box" => Some Box
    | _ => None
    end;
  resolveEnum name :=
    match name with
    | VStr "Color" => Some Color
    | _ => None
    end
|}.

(** The state in which tags [w] and [j] return the instance [e] that
    [unserializeEnum] made in [st]. *)
Definition enumPushed (e : Value) (st : State) : State :=
  {| buf := buf st; pos := pos st + 1; cache := cache st ++ [e];
     scache := scache st; heap := heap st |}.



(** The tags of the compound values, by the moment their slot is pushed. *)
Definition pushesFirst (t : Tag) : bool :=
  match t with
  | TArray | TObject | TList | TStringMap | TIntMap | TObjectMap => true
  | _ => false
  end.

Definition pushesAfterName (t : Tag) : bool :=
  match t with TClass | TCustom => true | _ => false end.

Definition pushesLast (t : Tag) : bool :=
  match t with TEnumName | TEnumIndex | TDate | TBytes => true | _ => false end.

Definition compound (t : Tag) : bool :=
  pushesFirst t || pushesAfterName t || pushesLast t.

(** The reading of "the slot is pushed before or at the start of the
    payload": the value that a call returns sits in the slot that was the
    next free one when the call began. *)
Definition pushedAtStart {host : Host} {resolver : TypeResolver}
    (fuel : nat) (st : State) : Prop :=
  forall v st', unserialize fuel st = Ok v st' ->
  cache st' !! length (cache st) = Some v.

(** The characters of a float literal that the comment in [readFloat]
    lists, with the two letters of the exponent. *)
Definition listedFloatChar (c : Z) : bool :=
  (c =? 43) || (c =? 45) || (c =? 46) || (c =? 44)
  || ((48 <=? c) && (c <=? 57)) || (c =? 101) || (c =? 69).

(** The characters of the specification's float reader: plus, minus, dot,
    the digits, [e] and [E]. *)
Definition specFloatChar (c : Z) : bool :=
  (c =? 43) || (c =? 45) || (c =? 46)
  || ((48 <=? c) && (c <=? 57)) || (c =? 101) || (c =? 69).

(** Between the cursors of [st] and [st'] stand only characters of the
    class [P]. *)
Definition consumedOnly (P : Z -> bool) (st st' : State) : Prop :=
  forall i c, pos st <= i < pos st' ->
  charCodeAt (buf st) i = Some c -> P c = true.




(** ** Invariants of a run *)

Definition wfObj (o : Obj) : Prop :=
  match o with
  | OArray len elems =>
      0 <= len <= MAX_LENGTH /\
      forall i, isArrayIndex i = true -> len <= i -> elems !! i = None
  | _ => True
  end.

Definition tracks (st : State) : Prop :=
  cache st = VRef <$> seq 0 (length (heap st)).

Definition wf (st : State) : Prop :=
  tracks st /\ Forall wfObj (heap st).

Record grows (s s' : State) : Prop := mkGrows {
  grows_buf : buf s' = buf s;
  grows_cache : cache s `prefix_of` cache s';
  grows_scache : scache s `prefix_of` scache s';
  grows_heap : (length (heap s) <= length (heap s'))%nat;
  grows_wf : wf s -> wf s'
}.

Definition post {A} (m : M A) (st : State)
    (Q : A -> State -> Prop) (E : Error -> State -> Prop) : Prop :=
  match m st with
  | Ok a st' => Q a st'
  | Err e st' => E e st'
  | OutOfFuel => True
  end.

Definition steady {A} (m : M A) : Prop :=
  forall st, post m st (fun _ st' => grows st st') (fun _ st' => grows st st').

(** The state after [alloc o] and the [push] of its result. *)
Definition allocPushed (o : Obj) (st : State) : State :=
  {| buf := buf st; pos := pos st;
     cache := cache st ++ [VRef (length (heap st))];
     scache := scache st; heap := heap st ++ [o] |}.

(** ** More budget, same answer *)

(** [m'] answers as [m] does wherever [m] answers at all. *)
Definition refines {A} (m m' : M A) : Prop :=
  forall st, m st = OutOfFuel \/ m st = m' st.

(** ** Runs that end *)

(** No [y] and no [s] of the input is followed by a minus sign: no length
    is negative. *)
Definition tame (b : string) : Prop :=
  forall i, charCodeAt b i = Some 121 \/ charCodeAt b i = Some 115 ->
  charCodeAt b (i + 1) <> Some 45.

(** The characters from the cursor to the end of the input. *)
Definition remaining_chars (st : State) : nat := Z.to_nat (buflen st - pos st).

(** [st'] is [st] further on in the same input. *)
Definition onward (st st' : State) : Prop :=
  buf st' = buf st /\ pos st <= pos st'.

(** On a tame input with fewer than [n] characters left, [m] answers, and
    leaves the cursor where it was or further on. *)
Definition ends {A} (n : nat) (m : M A) : Prop :=
  forall st, tame (buf st) -> (remaining_chars st < n)%nat ->
  match m st with
  | Ok _ st' => onward st st'
  | Err _ st' => onward st st'
  | OutOfFuel => False
  end.

(** [m] answers, and has read at least one character when it returns. *)
Definition advances {A} (n : nat) (m : M A) : Prop :=
  forall st, tame (buf st) -> (remaining_chars st < n)%nat ->
  match m st with
  | Ok _ st' => onward st st' /\ (remaining_chars st' < remaining_chars st)%nat
  | Err _ st' => onward st st'
  | OutOfFuel => False
  end.

(** [m] answers in every state. *)
Definition steps {A} (m : M A) : Prop :=
  forall st,
  match m st with
  | Ok _ st' => onward st st'
  | Err _ st' => onward st st'
  | OutOfFuel => False
  end.

(** [m], run from [st], answers in a state that is [st0] further on. *)
Definition answers_from {A} (st0 : State) (m : M A) (st : State) : Prop :=
  match m st with
  | Ok _ st' => onward st0 st'
  | Err _ st' => onward st0 st'
  | OutOfFuel => False
  end.

(** [tame], decided from left to right; [after] tells whether the character
    before is [y] or [s]. *)
Fixpoint tameFrom (after : bool) (s : string) : bool :=
  match s with
  | EmptyString => true
  | String c r =>
      negb (after && (code c =? 45))
      && tameFrom ((code c =? 121) || (code c =? 115)) r
  end.

(** ** The input at the cursor *)

(** The input from the cursor on is [s]. *)
Definition reads (st : State) (s : string) : Prop :=
  exists pre, buf st = pre +:+ s /\ pos st = Z.of_nat (String.length pre).

(** Every character of [s] is a decimal digit. *)
Fixpoint allDigits (s : string) : bool :=
  match s with
  | EmptyString => true
  | String c r => isDigit c && allDigits r
  end.

(** The first character of [s], if there is one, has a code of the class
    [P]. *)
Definition headIs (P : Z -> bool) (s : string) : bool :=
  match s with
  | String c _ => P (code c)
  | EmptyString => false
  end.

(** The codes of the digits, of the minus sign and of the colon. *)
Definition digitCode (c : Z) : bool := (48 <=? c) && (c <=? 57).

Definition minusCode (c : Z) : bool := c =? 45.

Definition colonCode (c : Z) : bool := c =? 58.

(** What the two [replace] of tag [s] make of a character. *)
Definition base64Code (c : Z) : Z :=
  if c =? 37 then 43 else if c =? 58 then 47 else c.

(** ** Objects that a run leaves alone *)

(** [v] is no object at an address below [n]. *)
Definition above (n : nat) (v : Value) : Prop :=
  match v with VRef a => (n <= a)%nat | _ => True end.

(** The [n] objects made first are, after [m], what they were before. *)
Definition framed {A} (n : nat) (m : M A) : Prop :=
  forall st, (n <= length (heap st))%nat ->
  match m st with
  | Ok _ st' | Err _ st' =>
      take n (heap st') = take n (heap st) /\ (n <= length (heap st'))%nat
  | OutOfFuel => True
  end.

(** [v] is no object, or an object at an address below [n]. *)
Definition refersInto (n : nat) (v : Value) : Prop :=
  match v with VRef a => (a < n)%nat | _ => True end.

(** ** Items, fields and entries *)

(** The items of the body of a list or an array [l]: from [st] the values
    [vs] are decoded one after the other, none of them at a terminator [h],
    and each is pushed onto [l]; [st'] is the state after the last. *)
Inductive items (rec : M Value) (l : Value)
    : State -> list Value -> State -> Prop :=
  | items_done st : items rec l st [] st
  | items_more st v st1 st2 vs st' :
      codeIs (charCodeAt (buf st) (pos st)) 104 = false ->
      rec st = Ok v st1 ->
      arrayPush l v st1 = Ok tt st2 ->
      items rec l st2 vs st' ->
      items rec l st (v :: vs) st'.

(** The elements of an array that holds the values [vs] and no other
    property. *)
Definition holds (elems : gmap Z Value) (vs : list Value) : Prop :=
  forall i, elems !! i = if i <? 0 then None else vs !! Z.to_nat i.

(** The items [i<z>] of the integers [zs], one after the other. *)
Fixpoint intItems (zs : list Z) : string :=
  match zs with
  | [] => ""
  | z :: r => "i" +:+ pretty z +:+ intItems r
  end.

(** The rounds of [unserializeObject] that assign a field: from the head
    [st] with budget [f], the rounds that decode the keys and values [kvs]
    and assign them lead to the head [st'] with budget [f']. *)
Inductive fieldRounds (rec : M Value) (o : Value)
    : nat -> State -> list (string * Value) -> nat -> State -> Prop :=
  | fr_here f st : fieldRounds rec o f st [] f st
  | fr_next f st key st1 v st2 st3 kvs f' st' :
      (buflen st <=? pos st) = false ->
      codeIs (charCodeAt (buf st) (pos st)) 103 = false ->
      rec st = Ok (VStr key) st1 ->
      rec st1 = Ok v st2 ->
      update o (setField key v) st2 = Ok tt st3 ->
      fieldRounds rec o f st3 kvs f' st' ->
      fieldRounds rec o (S f) st ((key, v) :: kvs) f' st'.

(** The fields [fs] after the assignments [kvs], in their order. *)
Definition assigned (fs : gmap string Value) (kvs : list (string * Value))
    : gmap string Value :=
  foldl (fun m kv => <[kv.1 := kv.2]> m) fs kvs.

(** The rounds of [intMapLoop] that store an entry: from the head [st] with
    budget [f], the rounds that read a colon, a key and a value lead to the
    head [st'] with budget [f']. *)
Inductive entryRounds {host : Host} (rec : M Value) (him : Value)
    : nat -> State -> nat -> State -> Prop :=
  | er_here f st : entryRounds rec him f st f st
  | er_next f st i st1 v st2 st3 f' st' :
      charCodeAt (buf st) (pos st) = Some 58 ->
      readDigits (setPos (pos st + 1) st) = Ok i st1 ->
      rec st1 = Ok v st2 ->
      setProperty him (VNum (NInt i)) v st2 = Ok tt st3 ->
      entryRounds rec him f st3 f' st' ->
      entryRounds rec him (S f) st f' st'.

(** ** What an object is made as *)

(** The part of an object that no assignment of the decoder reaches: its
    kind, the prototype of a plain object or class instance, the enum and
    the constructor of an enum instance. *)
Inductive Shape :=
  | SArray
  | SObject (p : Proto)
  | SEnum (e : EnumDesc) (ctor : nat)
  | SWeakMap
  | SDate
  | SBuffer.

(** The shape that [o] was made with. *)
Definition shape (o : Obj) : Shape :=
  match o with
  | OArray _ _ => SArray
  | OObject p _ => SObject p
  | OEnum e ctor _ => SEnum e ctor
  | OWeakMap _ => SWeakMap
  | ODate _ => SDate
  | OBuffer _ => SBuffer
  end.

(** An instance of a class, or of an enum, that the resolver handed out. *)
Definition approved {resolver : TypeResolver} (o : Obj) : Prop :=
  match shape o with
  | SObject (PClass c) => exists name, resolveClass name = Some c
  | SEnum e ctor =>
      (exists name, resolveEnum name = Some e) /\
      (ctor < length (getEnumConstructs e))%nat
  | _ => True
  end.

(** No assignment has given [o] a property [__proto__]: its prototype is
    the one it was made with. *)
Definition protoFree (o : Obj) : Prop :=
  match o with
  | OObject _ fields => fields !! "__proto__" = None
  | _ => True
  end.

(** [v] is an object of the store of [st] with the shape [s]. *)
Definition hasShape (st : State) (v : Value) (s : Shape) : Prop :=
  exists a o, v = VRef a /\ heap st !! a = Some o /\ shape o = s.

(** The objects of [st] are in [st'] with the shapes they had, and the
    objects of [st'] are approved when those of [st] are. *)
Record stable {resolver : TypeResolver} (st st' : State) : Prop := mkStable {
  stable_shapes : (shape <$> heap st) `prefix_of` (shape <$> heap st');
  stable_approved : Forall approved (heap st) -> Forall approved (heap st')
}.

(** Whatever [m] answers, it answers in a state that is [stable] for the
    one it began in. *)
Definition settled {resolver : TypeResolver} {A} (m : M A) : Prop :=
  forall st,
  post m st (fun _ st' => stable st st') (fun _ st' => stable st st').

(** ** A value inside a longer input *)

(** The decoder [st] with [pre] put before its input. *)
Definition embed (pre : string) (st : State) : State :=
  {| buf := pre +:+ buf st;
     pos := Z.of_nat (String.length pre) + pos st;
     cache := cache st; scache := scache st; heap := heap st |}.

(** The one error that tells a position. *)
Definition embedError (pre : string) (e : Error) : Error :=
  match e with
  | InvalidChar c p => InvalidChar c (Z.of_nat (String.length pre) + p)
  | _ => e
  end.

(** An answer, as it is behind [pre]. *)
Definition embedResult {A} (pre : string) (r : Result A) : Result A :=
  match r with
  | Ok a st => Ok a (embed pre st)
  | Err e st => Err (embedError pre e) (embed pre st)
  | OutOfFuel => OutOfFuel
  end.

(** [m] does after [pre] what it does without it, and does not move the
    cursor back. *)
Definition local {A} (pre : string) (m : M A) : Prop :=
  forall st, tame (buf st) -> 0 <= pos st ->
  m (embed pre st) = embedResult pre (m st) /\
  match m st with
  | Ok _ st' | Err _ st' => onward st st'
  | OutOfFuel => True
  end.

(** [p'] does what [p] does, for errors that tell positions behind [pre]:
    the errors it throws are those of [p] so moved, and it goes on after
    an error so moved as [p] does after the error. *)
Inductive shifted (pre : string) : HookProg -> HookProg -> Prop :=
  | shifted_return : shifted pre HReturn HReturn
  | shifted_throw e : shifted pre (HThrow e) (HThrow (embedError pre e))
  | shifted_set k v p p' :
      shifted pre p p' ->
      shifted pre (HSetField k v p) (HSetField k v p')
  | shifted_unserialize k k' h h' :
      (forall v, shifted pre (k v) (k' v)) ->
      (forall e, shifted pre (h e) (h' (embedError pre e))) ->
      shifted pre (HUnserialize k h) (HUnserialize k' h').

(** The [_qwkpktDecode] methods of the resolver's classes do not depend on
    the position that an error tells. *)
Definition positionBlind {resolver : TypeResolver} (pre : string) : Prop :=
  forall name cl decode self,
  resolveClass name = Some cl -> qwkpktDecode cl = Some decode ->
  shifted pre (decode self) (decode self).

(** * Properties *)

#[local] Instance grows_refl : Reflexive grows.
Proof. intros s. split; auto. Qed.

#[local] Instance grows_trans : Transitive grows.
Proof.
  intros a b c [] []. split; try (etrans; eauto); auto.
Qed.

Lemma grows_setPos p st : grows st (setPos p st).
Proof. split; simpl; auto. Qed.

Lemma steady_bind {A B} (m : M A) (k : A -> M B) :
  steady m -> (forall a, steady (k a)) -> steady (bind m k).
Proof.
  intros Hm Hk st. specialize (Hm st). unfold post, bind in *.
  destruct (m st) as [a st1|e st1|]; auto.
  specialize (Hk a st1). unfold post in Hk.
  destruct (k a st1); auto; etrans; eauto.
Qed.

Lemma steady_ret {A} (a : A) : steady (ret a).
Proof. intros st. apply grows_refl. Qed.

Lemma steady_throw {A} e : steady (@throw A e).
Proof. intros st. apply grows_refl. Qed.

Lemma steady_peek : steady peek.
Proof. intros st. apply grows_refl. Qed.

Lemma steady_next : steady next.
Proof. intros st. apply grows_setPos. Qed.

Lemma steady_skip : steady skip.
Proof. intros st. apply grows_setPos. Qed.

Lemma steady_advance n : steady (advance n).
Proof. intros st. apply grows_setPos. Qed.

Lemma steady_atEnd : steady atEnd.
Proof. intros st. apply grows_refl. Qed.

Lemma steady_remaining : steady remaining.
Proof. intros st. apply grows_refl. Qed.

Lemma steady_substrAt n : steady (substrAt n).
Proof. intros st. apply grows_refl. Qed.

Lemma steady_getPos : steady getPos.
Proof. intros st. apply grows_refl. Qed.

Lemma steady_getHeap : steady getHeap.
Proof. intros st. apply grows_refl. Qed.

Lemma steady_readDigits : steady readDigits.
Proof.
  intros st. unfold post, readDigits.
  destruct (readDigitsLoop _ _ _ _ _ _) as [[k s] p]. apply grows_setPos.
Qed.

Lemma steady_pushSCache s : steady (pushSCache s).
Proof.
  intros st. split; simpl; auto. by apply prefix_app_r.
Qed.

Lemma steady_update v f :
  (forall o, wfObj o -> wfObj (f o)) -> steady (update v f).
Proof.
  intros Hf st. unfold post, update. destruct v; try apply grows_refl.
  split; simpl; auto.
  - by rewrite length_alter.
  - intros [Ht Hw]. split.
    + unfold tracks in *. simpl. by rewrite length_alter.
    + simpl. apply Forall_alter; auto.
Qed.

Lemma wfObj_arraySet i v o : wfObj o -> wfObj (arraySet i v o).
Proof.
  destruct o as [len el| | | | |]; simpl; auto.
  intros [Hlen Hel]. unfold isArrayIndex, MAX_LENGTH in *.
  destruct (andb _ _) eqn:Hi.
  - split; [lia|]. intros j Hj Hle.
    rewrite lookup_insert_ne by lia. apply Hel; [done|lia].
  - split; [lia|]. intros j Hj Hle.
    rewrite lookup_insert_ne; [by apply Hel|]. intros ->. congruence.
Qed.

Lemma wfObj_setField k v o : wfObj o -> wfObj (setField k v o).
Proof. by destruct o. Qed.

Lemma wfObj_weakMapSet k v o : wfObj o -> wfObj (weakMapSet k v o).
Proof. by destruct o. Qed.

Lemma wfObj_arrayPut i v o :
  MAX_LENGTH <= i -> wfObj o -> wfObj (arrayPut i v o).
Proof.
  destruct o as [len el| | | | |]; simpl; auto.
  intros Hi [Hlen Hel]. split; [done|]. intros j Hj Hle.
  rewrite lookup_insert_ne; [by apply Hel|].
  unfold isArrayIndex in Hj. lia.
Qed.

Lemma steady_arrayPush a v : steady (arrayPush a v).
Proof.
  intros st. unfold post, arrayPush.
  destruct (arrayLength (heap st) a <? MAX_LENGTH) eqn:Hlen.
  - apply (steady_update a (arraySet _ v)). intros o. apply wfObj_arraySet.
  - apply (steady_bind (update a (arrayPut _ v)) (fun _ => throw _)).
    + apply steady_update. intros o. apply wfObj_arrayPut. lia.
    + intros _. apply steady_throw.
Qed.

Lemma steady_weakMapSetM wm k v : steady (weakMapSetM wm k v).
Proof.
  destruct k; simpl; try apply steady_throw.
  apply steady_update. intros o. apply wfObj_weakMapSet.
Qed.


Lemma tracks_snoc (c : list Value) (h : list Obj) o :
  c = VRef <$> seq 0 (length h) ->
  c ++ [VRef (length h)] = VRef <$> seq 0 (length (h ++ [o])).
Proof.
  intros ->. rewrite length_app. simpl. rewrite seq_app, fmap_app. done.
Qed.

Lemma grows_allocPushed o st : wfObj o -> grows st (allocPushed o st).
Proof.
  intros Ho. split; simpl; auto.
  - by apply prefix_app_r.
  - rewrite length_app. lia.
  - intros [Ht Hw]. split.
    + unfold tracks in *. simpl. by apply tracks_snoc.
    + simpl. apply Forall_app. split; auto.
Qed.

Lemma steady_alloc_push {A} o (k : Value -> M A) :
  wfObj o -> (forall a, steady (k a)) ->
  steady (a <- alloc o ;; pushCache a ;;; k a).
Proof.
  intros Ho Hk st. unfold post.
  change ((a <- alloc o ;; pushCache a ;;; k a) st)
    with (k (VRef (length (heap st))) (allocPushed o st)).
  specialize (Hk (VRef (length (heap st))) (allocPushed o st)).
  unfold post in Hk. pose proof (grows_allocPushed o st Ho).
  destruct (k _ _); auto; etrans; eauto.
Qed.

Lemma steady_alloc_advance_push {A} o n (k : Value -> M A) :
  wfObj o -> (forall a, steady (k a)) ->
  steady (a <- alloc o ;; advance n ;;; pushCache a ;;; k a).
Proof.
  intros Ho Hk st. unfold post.
  change ((a <- alloc o ;; advance n ;;; pushCache a ;;; k a) st)
    with (k (VRef (length (heap st)))
            (setPos (pos st + n) (allocPushed o st))).
  specialize (Hk (VRef (length (heap st)))
                 (setPos (pos st + n) (allocPushed o st))).
  unfold post in Hk. pose proof (grows_allocPushed o st Ho).
  pose proof (grows_setPos (pos st + n) (allocPushed o st)).
  destruct (k _ _); auto; repeat (etrans; eauto).
Qed.

Lemma wfObj_new_array : wfObj (OArray 0 ∅).
Proof. split; [unfold MAX_LENGTH; lia|]. intros i _ _. apply lookup_empty. Qed.

Ltac wfObj_new := first [exact I | exact wfObj_new_array].

Ltac steady_step :=
  first
    [ assumption
    | apply steady_alloc_push; [wfObj_new | intros ?]
    | apply steady_alloc_advance_push; [wfObj_new | intros ?]
    | apply steady_bind; [| intros ?]
    | apply steady_ret | apply steady_throw | apply steady_peek
    | apply steady_next | apply steady_skip | apply steady_advance
    | apply steady_atEnd | apply steady_remaining | apply steady_substrAt
    | apply steady_getPos | apply steady_getHeap | apply steady_readDigits
    | apply steady_pushSCache | apply steady_arrayPush
    | apply steady_weakMapSetM
    | apply steady_update; intros ?;
      first [apply wfObj_setField | apply wfObj_arraySet]
    | match goal with
      | |- steady (if ?b then _ else _) => destruct b
      | |- steady (match ?x with _ => _ end) => destruct x
      end ].

Section Invariants.

Context {host : Host} {resolver : TypeResolver}.

Lemma steady_readFloat : steady readFloat.
Proof. intros st. apply grows_setPos. Qed.

Lemma steady_cacheAt n : steady (cacheAt n).
Proof.
  intros st. unfold post, cacheAt.
  destruct (orb _ _); [apply grows_refl|].
  destruct (cache st !! _); apply grows_refl.
Qed.

Lemma steady_scacheAt n : steady (scacheAt n).
Proof.
  intros st. unfold post, scacheAt.
  destruct (orb _ _); [apply grows_refl|].
  destruct (scache st !! _); apply grows_refl.
Qed.

Lemma steady_unserializeObject rec fuel o :
  steady rec -> steady (unserializeObject rec fuel o).
Proof.
  intros Hrec. induction fuel as [|f IH]; simpl; [by intros st|].
  repeat steady_step.
Qed.

Lemma steady_arrayLoop rec fuel a :
  steady rec -> steady (arrayLoop rec fuel a).
Proof.
  intros Hrec. induction fuel as [|f IH]; simpl; [by intros st|].
  repeat steady_step.
Qed.

Lemma steady_listLoop rec fuel a :
  steady rec -> steady (listLoop rec fuel a).
Proof.
  intros Hrec. induction fuel as [|f IH]; simpl; [by intros st|].
  repeat steady_step.
Qed.

Lemma steady_setProperty o k v : steady (setProperty o k v).
Proof. unfold setProperty. repeat steady_step. Qed.

Lemma steady_stringMapLoop rec fuel a :
  steady rec -> steady (stringMapLoop rec fuel a).
Proof.
  intros Hrec. induction fuel as [|f IH]; simpl; [by intros st|].
  repeat first [apply steady_setProperty | steady_step].
Qed.

Lemma steady_intMapLoop rec fuel a :
  steady rec -> steady (intMapLoop rec fuel a).
Proof.
  intros Hrec. induction fuel as [|f IH]; simpl; [by intros st|].
  repeat first [apply steady_setProperty | steady_step].
Qed.

Lemma steady_objectMapLoop rec fuel a :
  steady rec -> steady (objectMapLoop rec fuel a).
Proof.
  intros Hrec. induction fuel as [|f IH]; simpl; [by intros st|].
  repeat steady_step.
Qed.

Lemma steady_readArgs rec n : steady rec -> steady (readArgs rec n).
Proof.
  intros Hrec. induction n as [|n IH]; simpl; repeat steady_step.
Qed.

Lemma steady_runHook rec self p : steady rec -> steady (runHook rec self p).
Proof.
  intros Hrec. induction p as [|e|k v p IH|k IHk h IHh]; simpl.
  - apply steady_ret.
  - apply steady_throw.
  - repeat steady_step.
  - intros st. unfold post. specialize (Hrec st). unfold post in Hrec.
    destruct (rec st) as [v st1|e st1|]; auto.
    + specialize (IHk v st1). unfold post in IHk.
      destruct (runHook _ _ _ _); auto; etrans; eauto.
    + specialize (IHh e st1). unfold post in IHh.
      destruct (runHook _ _ _ _); auto; etrans; eauto.
Qed.

Lemma unserializeEnum_post rec edecl tag st :
  steady rec ->
  post (unserializeEnum rec edecl tag) st
    (fun v st' => exists st1 o,
       grows st st1 /\ wfObj o /\ v = VRef (length (heap st1)) /\
       st' = setHeap (heap st1 ++ [o]) st1)
    (fun _ st' => grows st st').
Proof.
  intros Hrec. unfold post, unserializeEnum, bind, skip.
  pose proof (grows_setPos (pos st + 1) st) as H0.
  destruct (enumClass _ _) as [ctor|]; [|done].
  pose proof (steady_readDigits (setPos (pos st + 1) st)) as H1.
  unfold post in H1. destruct (readDigits _) as [n st1|e st1|]; [| |done].
  2:{ etrans; eauto. }
  destruct (orb _ _); [simpl; etrans; eauto|].
  pose proof (steady_readArgs rec (Z.to_nat n) Hrec st1) as H2.
  unfold post in H2. destruct (readArgs _ _ _) as [args st2|e st2|]; [| |done].
  2:{ repeat (etrans; eauto). }
  simpl. exists st2, (OEnum edecl ctor args).
  split; [repeat (etrans; eauto)|]. split; [exact I|]. split; reflexivity.
Qed.

Lemma steady_enum_push rec edecl tag :
  steady rec ->
  steady (e <- unserializeEnum rec edecl tag ;; pushCache e ;;; skip ;;; ret e).
Proof.
  intros Hrec st. pose proof (unserializeEnum_post rec edecl tag st Hrec) as H.
  unfold post, bind in *.
  destruct (unserializeEnum _ _ _ _) as [v st'|e st'|]; [| done | done].
  destruct H as (st1 & o & Hg & Ho & -> & ->). simpl.
  change (grows st (setPos (pos st1 + 1) (allocPushed o st1))).
  etrans; [exact Hg|]. etrans; [by apply grows_allocPushed|].
  apply grows_setPos.
Qed.

Lemma steady_unserializeTag rec f t :
  steady rec -> steady (unserializeTag rec f t).
Proof.
  intros Hrec. destruct t; simpl;
    repeat first
      [ apply steady_readFloat
      | apply steady_cacheAt
      | apply steady_scacheAt
      | apply steady_enum_push; assumption
      | apply steady_unserializeObject; assumption
      | apply steady_arrayLoop; assumption
      | apply steady_listLoop; assumption
      | apply steady_stringMapLoop; assumption
      | apply steady_intMapLoop; assumption
      | apply steady_objectMapLoop; assumption
      | apply steady_runHook; assumption
      | steady_step ].
Qed.

(** Whatever a call of [unserialize] does, and however it ends, it leaves the
    input alone, only appends to the two caches, keeps every object it made,
    and keeps the store well-formed. *)
Lemma steady_unserialize fuel : steady (unserialize fuel).
Proof.
  induction fuel as [|f IH]; simpl; [by intros st|].
  apply steady_bind; [apply steady_next|]. intros c.
  destruct (tagOf c) as [t|].
  - by apply steady_unserializeTag.
  - repeat steady_step.
Qed.

End Invariants.

(** ** The loops of the scalar readers end by a [break] *)

Lemma get_None_ge s : forall i,
  (String.length s <= i)%nat -> String.get i s = None.
Proof.
  induction s as [|a s IH]; intros [|i]; simpl; try done; [lia|].
  intros H. apply IH. lia.
Qed.

Lemma charCodeAt_None_ge b i :
  Z.of_nat (String.length b) <= i -> charCodeAt b i = None.
Proof.
  intros Hi. unfold charCodeAt. destruct (i <? 0) eqn:Hneg; [done|].
  rewrite get_None_ge; [done|lia].
Qed.

(** Where the loop of [readFloat] leaves the cursor there is no character,
    or one that fails its test. *)
Lemma readFloatLoop_stops b : forall fuel p,
  Z.of_nat (String.length b) - p < Z.of_nat fuel ->
  match charCodeAt b (readFloatLoop fuel b p) with
  | Some c => floatChar c = false
  | None => True
  end.
Proof.
  induction fuel as [|fuel IH]; intros p Hp; simpl.
  - rewrite charCodeAt_None_ge; [done|lia].
  - destruct (charCodeAt b p) as [c|] eqn:Hc; [|by rewrite Hc].
    destruct (floatChar c) eqn:Hf; [apply IH; lia|by rewrite Hc].
Qed.

(** Where the loop of [readDigits] leaves the cursor there is no character,
    or one that is no digit, and no minus sign if the cursor has not moved. *)
Lemma readDigitsLoop_stops b fpos : forall fuel k s p,
  Z.of_nat (String.length b) - p < Z.of_nat fuel ->
  fpos <= p ->
  match charCodeAt b (readDigitsLoop fuel b fpos k s p).2 with
  | Some c =>
      (c <? 48) || (c >? 57) = true /\
      (c = 45 -> (readDigitsLoop fuel b fpos k s p).2 <> fpos)
  | None => True
  end.
Proof.
  induction fuel as [|fuel IH]; intros k s p Hp Hfpos; simpl.
  - rewrite charCodeAt_None_ge; [done|lia].
  - destruct (charCodeAt b p) as [c|] eqn:Hc; [|by simpl; rewrite Hc].
    destruct (c =? 45) eqn:H45.
    + destruct (p =? fpos) eqn:Hpf; simpl.
      * apply IH; lia.
      * rewrite Hc. split; lia.
    + destruct (orb _ _) eqn:Hd; simpl.
      * rewrite Hc. split; [done|lia].
      * apply IH; lia.
Qed.

Lemma charCodeAt_negative b i : i < 0 -> charCodeAt b i = None.
Proof. intros Hi. unfold charCodeAt. by replace (i <? 0) with true by lia. Qed.

(** [readDigits] stops at the end of the input or before a character that
    is no digit: the budget of its loop is never what stops it. *)
Lemma readDigits_stops st n st' :
  readDigits st = Ok n st' ->
  match charCodeAt (buf st') (pos st') with
  | Some c => (c <? 48) || (c >? 57) = true /\ (c = 45 -> pos st' <> pos st)
  | None => True
  end.
Proof.
  unfold readDigits.
  destruct (readDigitsLoop _ _ _ _ _ _) as [[k s] p] eqn:Hloop.
  intros [= _ <-]. simpl.
  destruct (decide (pos st < 0)) as [Hneg|Hpos].
  - simpl in Hloop. rewrite (charCodeAt_negative _ _ Hneg) in Hloop.
    injection Hloop as _ _ <-. by rewrite charCodeAt_negative.
  - pose proof (readDigitsLoop_stops (buf st) (pos st)
                  (S (String.length (buf st))) 0 false (pos st)) as H.
    rewrite Hloop in H. apply H; lia.
Qed.

(** [readFloat] stops at the end of the input or before a character that
    fails the test of its loop. *)
Lemma readFloat_stops {host : Host} st d st' :
  readFloat st = Ok d st' ->
  match charCodeAt (buf st') (pos st') with
  | Some c => floatChar c = false
  | None => True
  end.
Proof.
  unfold readFloat. intros [= _ <-].
  change (match
            charCodeAt (buf st)
              (readFloatLoop (S (String.length (buf st))) (buf st) (pos st))
          with
          | Some c => floatChar c = false
          | None => True
          end).
  destruct (decide (pos st < 0)) as [Hneg|Hpos].
  - simpl. rewrite (charCodeAt_negative _ _ Hneg).
    by rewrite charCodeAt_negative.
  - apply readFloatLoop_stops. lia.
Qed.

Lemma refines_refl {A} (m : M A) : refines m m.
Proof. intros st. by right. Qed.

Lemma refines_outOfFuel {A} (m : M A) : refines outOfFuel m.
Proof. intros st. by left. Qed.

Lemma refines_bind {A B} (m m' : M A) (k k' : A -> M B) :
  refines m m' -> (forall a, refines (k a) (k' a)) ->
  refines (bind m k) (bind m' k').
Proof.
  intros Hm Hk st. unfold bind. destruct (Hm st) as [->| <-]; [by left|].
  destruct (m st) as [a st1|e st1|]; [apply Hk|by right|by left].
Qed.

Ltac refines_step :=
  first
    [ assumption
    | apply refines_refl
    | apply refines_outOfFuel
    | apply refines_bind; [| intros ?]
    | match goal with
      | |- refines (if ?b then _ else _) (if ?b then _ else _) => destruct b
      | |- refines (match ?x with _ => _ end) (match ?x with _ => _ end) =>
          destruct x
      end ].

Section Budget.

Context {host : Host} {resolver : TypeResolver}.

Lemma refines_unserializeObject rec rec' o : forall f f',
  refines rec rec' -> (f <= f')%nat ->
  refines (unserializeObject rec f o) (unserializeObject rec' f' o).
Proof.
  induction f as [|f IH]; intros f' Hrec Hle; [apply refines_outOfFuel|].
  destruct f' as [|f']; [lia|]. simpl.
  repeat first [apply IH; [assumption|lia] | refines_step].
Qed.

Lemma refines_arrayLoop rec rec' a : forall f f',
  refines rec rec' -> (f <= f')%nat ->
  refines (arrayLoop rec f a) (arrayLoop rec' f' a).
Proof.
  induction f as [|f IH]; intros f' Hrec Hle; [apply refines_outOfFuel|].
  destruct f' as [|f']; [lia|]. simpl.
  repeat first [apply IH; [assumption|lia] | refines_step].
Qed.

Lemma refines_listLoop rec rec' a : forall f f',
  refines rec rec' -> (f <= f')%nat ->
  refines (listLoop rec f a) (listLoop rec' f' a).
Proof.
  induction f as [|f IH]; intros f' Hrec Hle; [apply refines_outOfFuel|].
  destruct f' as [|f']; [lia|]. simpl.
  repeat first [apply IH; [assumption|lia] | refines_step].
Qed.

Lemma refines_stringMapLoop rec rec' a : forall f f',
  refines rec rec' -> (f <= f')%nat ->
  refines (stringMapLoop rec f a) (stringMapLoop rec' f' a).
Proof.
  induction f as [|f IH]; intros f' Hrec Hle; [apply refines_outOfFuel|].
  destruct f' as [|f']; [lia|]. simpl.
  repeat first [apply IH; [assumption|lia] | refines_step].
Qed.

Lemma refines_intMapLoop rec rec' a : forall f f',
  refines rec rec' -> (f <= f')%nat ->
  refines (intMapLoop rec f a) (intMapLoop rec' f' a).
Proof.
  induction f as [|f IH]; intros f' Hrec Hle; [apply refines_outOfFuel|].
  destruct f' as [|f']; [lia|]. simpl.
  repeat first [apply IH; [assumption|lia] | refines_step].
Qed.

Lemma refines_objectMapLoop rec rec' a : forall f f',
  refines rec rec' -> (f <= f')%nat ->
  refines (objectMapLoop rec f a) (objectMapLoop rec' f' a).
Proof.
  induction f as [|f IH]; intros f' Hrec Hle; [apply refines_outOfFuel|].
  destruct f' as [|f']; [lia|]. simpl.
  repeat first [apply IH; [assumption|lia] | refines_step].
Qed.

Lemma refines_readArgs rec rec' n :
  refines rec rec' -> refines (readArgs rec n) (readArgs rec' n).
Proof.
  intros Hrec. induction n as [|n IH]; simpl; repeat refines_step.
Qed.

Lemma refines_unserializeEnum rec rec' edecl tag :
  refines rec rec' ->
  refines (unserializeEnum rec edecl tag) (unserializeEnum rec' edecl tag).
Proof.
  intros Hrec. unfold unserializeEnum.
  repeat first [apply refines_readArgs; assumption | refines_step].
Qed.

Lemma refines_runHook rec rec' self p :
  refines rec rec' -> refines (runHook rec self p) (runHook rec' self p).
Proof.
  intros Hrec. induction p as [|e|k v p IH|k IHk h IHh]; simpl;
    repeat refines_step.
  intros st. destruct (Hrec st) as [->| <-]; [by left|].
  destruct (rec st) as [v st1|e st1|]; [apply IHk|apply IHh|by left].
Qed.

Lemma refines_unserializeTag rec rec' f f' t :
  refines rec rec' -> (f <= f')%nat ->
  refines (unserializeTag rec f t) (unserializeTag rec' f' t).
Proof.
  intros Hrec Hle. destruct t; simpl;
    repeat first
      [ apply refines_unserializeObject; assumption
      | apply refines_arrayLoop; assumption
      | apply refines_listLoop; assumption
      | apply refines_stringMapLoop; assumption
      | apply refines_intMapLoop; assumption
      | apply refines_objectMapLoop; assumption
      | apply refines_unserializeEnum; assumption
      | apply refines_runHook; assumption
      | refines_step ].
Qed.

Lemma refines_unserialize : forall f f',
  (f <= f')%nat -> refines (unserialize f) (unserialize f').
Proof.
  induction f as [|f IH]; intros f' Hle; [apply refines_outOfFuel|].
  destruct f' as [|f']; [lia|]. simpl.
  apply refines_bind; [apply refines_refl|]. intros c.
  destruct (tagOf c) as [t|]; [|apply refines_refl].
  apply refines_unserializeTag; [apply IH|]; lia.
Qed.

(** An answer of [unserialize], a value or an error, is its answer on every
    larger budget. *)
Lemma unserialize_fuel_mono f f' st :
  (f <= f')%nat ->
  unserialize f st <> OutOfFuel ->
  unserialize f' st = unserialize f st.
Proof.
  intros Hle Hr. by destruct (refines_unserialize f f' Hle st) as [?| <-].
Qed.

End Budget.

(** ** Runs on the scenarios of the specification *)

Example run_null :
  unserialize 1 (newUnserializer "n")
  = Ok VNull (setPos 1 (newUnserializer "n")).
Proof. reflexivity. Qed.

Example run_int :
  unserialize 1 (newUnserializer "i42")
  = Ok (VNum (NInt 42)) (setPos 3 (newUnserializer "i42")).
Proof. reflexivity. Qed.

Example run_negative_int :
  unserialize 1 (newUnserializer "i-12")
  = Ok (VNum (NInt (-12))) (setPos 4 (newUnserializer "i-12")).
Proof. reflexivity. Qed.

Example run_string :
  unserialize 1 (newUnserializer "y3:abc")
  = Ok (VStr "abc")
       {| buf := "y3:abc"; pos := 6; cache := []; scache := ["abc"];
          heap := [] |}.
Proof. reflexivity. Qed.

Example run_escaped_string :
  unserialize 1 (newUnserializer "y5:a%20b")
  = Ok (VStr "a b")
       {| buf := "y5:a%20b"; pos := 8; cache := []; scache := ["a b"];
          heap := [] |}.
Proof. reflexivity. Qed.

Example run_array :
  unserialize 4 (newUnserializer "ai1i2h")
  = Ok (VRef 0%nat)
       {| buf := "ai1i2h"; pos := 6; cache := [VRef 0%nat]; scache := [];
          heap := [OArray 2 {[ 0 := VNum (NInt 1); 1 := VNum (NInt 2) ]}] |}.
Proof. vm_compute. reflexivity. Qed.

Example run_object :
  unserialize 3 (newUnserializer "oy1:xi5g")
  = Ok (VRef 0%nat)
       {| buf := "oy1:xi5g"; pos := 8; cache := [VRef 0%nat];
          scache := ["x"];
          heap := [OObject PObject {[ "x" := VNum (NInt 5) ]}] |}.
Proof. vm_compute. reflexivity. Qed.

(** A length-3 array whose first two slots are holes and whose third is
    null. *)
Example run_sparse_array :
  exists elems,
    unserialize 3 (newUnserializer "au3h")
    = Ok (VRef 0%nat)
         {| buf := "au3h"; pos := 4; cache := [VRef 0%nat]; scache := [];
            heap := [OArray 3 elems] |} /\
    elems !! 0 = None /\ elems !! 1 = None /\ elems !! 2 = Some VNull.
Proof. exists {[ 2 := VNull ]}. by vm_compute. Qed.

(** An object decoded once and referred to again is one object: both slots
    of the array hold the address 1. *)
Example run_shared_reference :
  unserialize 4 (newUnserializer "aoy1:xi5gr1h")
  = Ok (VRef 0%nat)
       {| buf := "aoy1:xi5gr1h"; pos := 12;
          cache := [VRef 0%nat; VRef 1%nat]; scache := ["x"];
          heap := [OArray 2 {[ 0 := VRef 1%nat; 1 := VRef 1%nat ]};
                   OObject PObject {[ "x" := VNum (NInt 5) ]}] |}.
Proof. vm_compute. reflexivity. Qed.

Example run_custom :
  unserialize 3 (newUnserializer "Cy3:Boxi7g")
  = Ok (VRef 0%nat)
       {| buf := "Cy3:Boxi7g"; pos := 10; cache := [VRef 0%nat];
          scache := ["Box"];
          heap := [OObject (PClass Box) {[ "v" := VNum (NInt 7) ]}] |}.
Proof. vm_compute. reflexivity. Qed.

Example run_propagated_failure :
  unserialize 2 (newUnserializer "xy4:oops")
  = Err (Thrown (VStr "oops"))
        {| buf := "xy4:oops"; pos := 8; cache := []; scache := ["oops"];
           heap := [] |}.
Proof. reflexivity. Qed.

Example run_invalid_char :
  unserialize 1 (newUnserializer "?")
  = Err (InvalidChar (Some 63) 0) (newUnserializer "?").
Proof. reflexivity. Qed.

Example run_end_of_input :
  unserialize 1 (newUnserializer "")
  = Err (InvalidChar None 0) (newUnserializer "").
Proof. reflexivity. Qed.

(** The enum instance is returned whatever the character after it is. *)
Example run_enum_any_trailing_byte (c : Ascii.ascii) :
  unserialize 3 (newUnserializer ("jy5:Color:1:1n" +:+ String c ""))
  = Ok (VRef 0%nat)
       {| buf := "jy5:Color:1:1n" +:+ String c ""; pos := 15;
          cache := [VRef 0%nat]; scache := ["Color"];
          heap := [OEnum Color 1 [VNull]] |}.
Proof. vm_compute. reflexivity. Qed.

(** ** Steps of the decoder *)

Section Steps.

Context {host : Host} {resolver : TypeResolver}.

(** The first step of [unserialize]: the tag is read, the cursor moves past
    it, and the payload of the tag is decoded. *)
Lemma unserialize_tag fuel st c t :
  charCodeAt (buf st) (pos st) = Some c ->
  tagOf (Some c) = Some t ->
  unserialize (S fuel) st
  = unserializeTag (unserialize fuel) fuel t (setPos (pos st + 1) st).
Proof.
  intros Hc Ht. simpl. unfold bind, next. rewrite Hc, Ht. reflexivity.
Qed.

(** One round of [unserializeObject]. *)
Lemma unserializeObject_round rec f o :
  unserializeObject rec (S f) o
  = (e <- atEnd ;;
     if e : bool then throw InvalidObject
     else
       c <- peek ;;
       if codeIs c 103 then skip
       else
         k <- rec ;;
         match k with
         | VStr key =>
             v <- rec ;;
             update o (setField key v) ;;;
             unserializeObject rec f o
         | _ => throw InvalidObjectKey
         end).
Proof. reflexivity. Qed.

Lemma readDigits_store st n st1 :
  readDigits st = Ok n st1 ->
  buf st1 = buf st /\ cache st1 = cache st /\ scache st1 = scache st /\
  heap st1 = heap st.
Proof.
  unfold readDigits. destruct (readDigitsLoop _ _ _ _ _ _) as [[k s] p].
  by intros [= _ <-].
Qed.


Lemma first_slot {A} (k : Value -> M A) o st0 r st' :
  (forall a, steady (k a)) ->
  (a <- alloc o ;; pushCache a ;;; k a) st0 = Ok r st' ->
  cache st' !! length (cache st0) = Some (VRef (length (heap st0))).
Proof.
  intros Hk.
  change ((a <- alloc o ;; pushCache a ;;; k a) st0)
    with (k (VRef (length (heap st0))) (allocPushed o st0)).
  intros Hrun.
  pose proof (Hk (VRef (length (heap st0))) (allocPushed o st0)) as Hg.
  unfold post in Hg. rewrite Hrun in Hg.
  destruct (grows_cache _ _ Hg) as [ext ->]. simpl.
  rewrite <- app_assoc. simpl. by rewrite lookup_app_r, Nat.sub_diag.
Qed.

Lemma first_slot_ret (body : Value -> M unit) o st0 v st' :
  (forall a, steady (body a)) ->
  (a <- alloc o ;; pushCache a ;;; body a ;;; ret a) st0 = Ok v st' ->
  v = VRef (length (heap st0)) /\
  cache st' !! length (cache st0) = Some v.
Proof.
  intros Hb Hrun.
  assert (Hv : v = VRef (length (heap st0))).
  { revert Hrun.
    change ((a <- alloc o ;; pushCache a ;;; body a ;;; ret a) st0)
      with ((body (VRef (length (heap st0))) ;;;
             ret (VRef (length (heap st0)))) (allocPushed o st0)).
    unfold bind. destruct (body _ _); [|done|done]. by intros [= <- _]. }
  split; [done|]. rewrite Hv.
  eapply (first_slot (fun a => body a ;;; ret a)); [|exact Hrun].
  intros a. apply steady_bind; [apply Hb|]. intros _. apply steady_ret.
Qed.

(** Every slot of a well-formed cache holds the address that is its index. *)
Lemma tracks_slot st i v :
  tracks st -> cache st !! i = Some v -> v = VRef i.
Proof.
  unfold tracks. intros -> H.
  apply list_lookup_fmap_Some in H as (j & -> & Hj).
  by apply lookup_seq in Hj as [-> _].
Qed.

(** The slot is there as well when what follows the [push] throws. *)
Lemma first_slot_thrown {A} (k : Value -> M A) o st0 e st' :
  (forall a, steady (k a)) ->
  (a <- alloc o ;; pushCache a ;;; k a) st0 = Err e st' ->
  cache st' !! length (cache st0) = Some (VRef (length (heap st0))) /\
  (length (heap st0) < length (heap st'))%nat.
Proof.
  intros Hk.
  change ((a <- alloc o ;; pushCache a ;;; k a) st0)
    with (k (VRef (length (heap st0))) (allocPushed o st0)).
  intros Hrun.
  pose proof (Hk (VRef (length (heap st0))) (allocPushed o st0)) as Hg.
  unfold post in Hg. rewrite Hrun in Hg. split.
  - destruct (grows_cache _ _ Hg) as [ext ->]. simpl.
    rewrite <- app_assoc. simpl. by rewrite lookup_app_r, Nat.sub_diag.
  - pose proof (grows_heap _ _ Hg) as Hh. simpl in Hh.
    rewrite length_app in Hh. simpl in Hh. lia.
Qed.

Lemma first_slot_ret_thrown (body : Value -> M unit) o st0 e st' :
  (forall a, steady (body a)) ->
  (a <- alloc o ;; pushCache a ;;; body a ;;; ret a) st0 = Err e st' ->
  cache st' !! length (cache st0) = Some (VRef (length (heap st0))) /\
  (length (heap st0) < length (heap st'))%nat.
Proof.
  intros Hb Hrun.
  eapply (first_slot_thrown (fun a => body a ;;; ret a)); [|exact Hrun].
  intros a. apply steady_bind; [apply Hb|]. intros _. apply steady_ret.
Qed.

(** In a well-formed state an address stands in the slot of its rank and in
    no other. *)
Lemma tracks_only_slot st a i :
  tracks st -> cache st !! i = Some (VRef a) -> forall j,
  cache st !! j = Some (VRef a) <-> j = i.
Proof.
  intros Ht Hi j. split.
  - intros Hj. apply (tracks_slot _ _ _ Ht) in Hi, Hj. congruence.
  - by intros ->.
Qed.

Lemma wf_newUnserializer s : wf (newUnserializer s).
Proof. split; [reflexivity|constructor]. Qed.


Lemma get_Some_lt s i c : String.get i s = Some c -> (i < String.length s)%nat.
Proof.
  revert i. induction s as [|a s IH]; intros [|i]; simpl; try done; [lia|].
  intros H. apply IH in H. lia.
Qed.

Lemma charCodeAt_Some_lt b i c :
  charCodeAt b i = Some c -> 0 <= i < Z.of_nat (String.length b).
Proof.
  unfold charCodeAt. destruct (i <? 0) eqn:Hi; [done|].
  destruct (String.get _ _) as [a|] eqn:Hg; [|done]. intros _.
  apply get_Some_lt in Hg. lia.
Qed.

(** [substr] within the string: the characters asked for, and no more. *)
Lemma substr_chars b p n :
  0 <= n ->
  (0 < n -> 0 <= p /\ p + n <= Z.of_nat (String.length b)) ->
  (forall i, 0 <= i < n ->
     charCodeAt (substr b p n) i = charCodeAt b (p + i)) /\
  charCodeAt (substr b p n) n = None.
Proof.
  intros Hn Hin. split.
  - intros i Hi. destruct Hin as [Hp Hpn]; [lia|].
    unfold substr, charCodeAt.
    replace (p <? 0) with false by lia.
    replace (i <? 0) with false by lia.
    replace (p + i <? 0) with false by lia.
    rewrite String.substring_correct1 by lia.
    replace (Z.to_nat i + Z.to_nat (p `min` Z.of_nat (String.length b)))%nat
      with (Z.to_nat (p + i)) by lia.
    reflexivity.
  - unfold substr, charCodeAt.
    replace (n <? 0) with false by lia.
    rewrite String.substring_correct2; [done|]. lia.
Qed.

(** The loop of [readFloat] stops after the [m] characters of its class that
    stand at the cursor, when its budget is more than [m]. *)
Lemma readFloatLoop_run b m : forall fuel p,
  (m < fuel)%nat ->
  (forall i, (i < m)%nat ->
     exists c, charCodeAt b (p + Z.of_nat i) = Some c /\ floatChar c = true) ->
  (forall c, charCodeAt b (p + Z.of_nat m) = Some c -> floatChar c = false) ->
  readFloatLoop fuel b p = p + Z.of_nat m.
Proof.
  induction m as [|m IH]; intros fuel p Hfuel Hrun Hend.
  - destruct fuel as [|fuel]; [lia|]. simpl.
    replace (p + Z.of_nat 0) with p in Hend by lia.
    destruct (charCodeAt b p) as [c|] eqn:Hc; [|lia].
    rewrite (Hend c eq_refl). lia.
  - destruct fuel as [|fuel]; [lia|]. simpl.
    destruct (Hrun 0%nat ltac:(lia)) as (c & Hc & Hf).
    replace (p + Z.of_nat 0) with p in Hc by lia. rewrite Hc, Hf.
    rewrite (IH fuel (p + 1)); [lia|lia| |].
    + intros i Hi. destruct (Hrun (S i) ltac:(lia)) as (c' & Hc' & Hf').
      exists c'. split; [|done]. rewrite <- Hc'. f_equal. lia.
    + intros c' Hc'. apply Hend. rewrite <- Hc'. f_equal. lia.
Qed.

Lemma listedFloatChar_floatChar c :
  listedFloatChar c = true -> floatChar c = true.
Proof. unfold listedFloatChar, floatChar. lia. Qed.

Lemma not_listedFloatChar c :
  listedFloatChar c = false -> c <> 47 -> floatChar c = false.
Proof. unfold listedFloatChar, floatChar. lia. Qed.

(** A string literal, tag [y], that decodes. *)
Lemma unserialize_string fuel st len st1 s :
  charCodeAt (buf st) (pos st) = Some 121 ->
  readDigits (setPos (pos st + 1) st) = Ok len st1 ->
  charCodeAt (buf st1) (pos st1) = Some 58 ->
  (buflen st1 - (pos st1 + 1) <? len) = false ->
  decodeURIComponent (substr (buf st1) (pos st1 + 1) len) = Some s ->
  unserialize (S fuel) st
  = Ok (VStr s)
       {| buf := buf st1; pos := pos st1 + 1 + len; cache := cache st1;
          scache := scache st1 ++ [s]; heap := heap st1 |}.
Proof.
  intros Htag Hlen Hsep Hrem Hdec.
  rewrite (unserialize_tag fuel st 121 TString Htag eq_refl). simpl.
  unfold bind at 1. rewrite Hlen.
  unfold bind at 1, next at 1. rewrite Hsep.
  unfold bind at 1, remaining at 1.
  change (negb (codeIs (Some 58) 58)) with false.
  change (buflen (setPos (pos st1 + 1) st1) - pos (setPos (pos st1 + 1) st1))
    with (buflen st1 - (pos st1 + 1)).
  rewrite Hrem. cbn [orb].
  unfold bind at 1, substrAt at 1. unfold bind at 1, advance at 1.
  cbv beta.
  change (substr (buf (setPos (pos st1 + 1) st1))
                 (pos (setPos (pos st1 + 1) st1)) len)
    with (substr (buf st1) (pos st1 + 1) len).
  rewrite Hdec. reflexivity.
Qed.








End Steps.

(** ** Runs that end *)

Lemma onward_refl st : onward st st.
Proof. split; [done|lia]. Qed.

Lemma onward_trans a b c : onward a b -> onward b c -> onward a c.
Proof. intros [? ?] [? ?]. split; [congruence|lia]. Qed.

Lemma onward_remaining st st' :
  onward st st' -> (remaining_chars st' <= remaining_chars st)%nat.
Proof. intros [Hb Hp]. unfold remaining_chars, buflen. rewrite Hb. lia. Qed.

Lemma onward_tame st st' : onward st st' -> tame (buf st) -> tame (buf st').
Proof. intros [-> _]. done. Qed.

Lemma ends_bind {A B} n (m : M A) (k : A -> M B) :
  ends n m -> (forall a, ends n (k a)) -> ends n (bind m k).
Proof.
  intros Hm Hk st Ht Hr. specialize (Hm st Ht Hr). unfold bind.
  destruct (m st) as [a st1|e st1|]; [|done|done].
  pose proof (onward_remaining _ _ Hm).
  specialize (Hk a st1 (onward_tame _ _ Hm Ht) ltac:(lia)).
  destruct (k a st1); [| |done]; by eapply onward_trans.
Qed.

Lemma advances_ends {A} n (m : M A) : advances n m -> ends n m.
Proof.
  intros Hm st Ht Hr. specialize (Hm st Ht Hr).
  destruct (m st); [|done|done]. by destruct Hm.
Qed.

Lemma ends_le {A} n n' (m : M A) : (n' <= n)%nat -> ends n m -> ends n' m.
Proof. intros Hle Hm st Ht Hr. apply Hm; [done|lia]. Qed.

Lemma steps_ends {A} n (m : M A) : steps m -> ends n m.
Proof. intros Hm st _ _. apply Hm. Qed.

Lemma steps_bind {A B} (m : M A) (k : A -> M B) :
  steps m -> (forall a, steps (k a)) -> steps (bind m k).
Proof.
  intros Hm Hk st. specialize (Hm st). unfold bind.
  destruct (m st) as [a st1|e st1|]; [|done|done].
  specialize (Hk a st1). destruct (k a st1); [| |done]; by eapply onward_trans.
Qed.

Lemma onward_setPos st p : pos st <= p -> onward st (setPos p st).
Proof. by split. Qed.

Lemma steps_ret {A} (a : A) : steps (ret a).
Proof. intros st. apply onward_refl. Qed.

Lemma steps_throw {A} e : steps (@throw A e).
Proof. intros st. apply onward_refl. Qed.

Lemma steps_peek : steps peek.
Proof. intros st. apply onward_refl. Qed.

Lemma steps_next : steps next.
Proof. intros st. apply onward_setPos. lia. Qed.

Lemma steps_skip : steps skip.
Proof. intros st. apply onward_setPos. lia. Qed.

Lemma steps_atEnd : steps atEnd.
Proof. intros st. apply onward_refl. Qed.

Lemma steps_remaining : steps remaining.
Proof. intros st. apply onward_refl. Qed.

Lemma steps_substrAt k : steps (substrAt k).
Proof. intros st. apply onward_refl. Qed.

Lemma steps_getPos : steps getPos.
Proof. intros st. apply onward_refl. Qed.

Lemma steps_getHeap : steps getHeap.
Proof. intros st. apply onward_refl. Qed.

Lemma steps_alloc o : steps (alloc o).
Proof. intros st. split; simpl; (done || lia). Qed.

Lemma steps_pushCache v : steps (pushCache v).
Proof. intros st. split; simpl; (done || lia). Qed.

Lemma steps_pushSCache s : steps (pushSCache s).
Proof. intros st. split; simpl; (done || lia). Qed.

Lemma steps_update v f : steps (update v f).
Proof. intros st. unfold update. destruct v; split; simpl; (done || lia). Qed.

Lemma steps_arrayPush a v : steps (arrayPush a v).
Proof.
  intros st. unfold arrayPush. destruct (_ <? _).
  - apply steps_update.
  - apply (steps_bind (update a (arrayPut _ v)) (fun _ => throw _)).
    + apply steps_update.
    + intros _. apply steps_throw.
Qed.

Lemma steps_weakMapSetM wm k v : steps (weakMapSetM wm k v).
Proof. destruct k; simpl; (apply steps_throw || apply steps_update). Qed.

Lemma steps_cacheAt n : steps (cacheAt n).
Proof.
  intros st. unfold cacheAt. destruct (orb _ _); [apply onward_refl|].
  destruct (cache st !! _); apply onward_refl.
Qed.

Lemma steps_scacheAt n : steps (scacheAt n).
Proof.
  intros st. unfold scacheAt. destruct (orb _ _); [apply onward_refl|].
  destruct (scache st !! _); apply onward_refl.
Qed.

(** The loop of [readDigits] moves the cursor forward, and without a minus
    sign under the cursor it reads a number that is not negative. *)
Lemma readDigitsLoop_onward b fpos : forall n k s p,
  p <= (readDigitsLoop n b fpos k s p).2.
Proof.
  induction n as [|n IH]; intros k s p; simpl; [lia|].
  destruct (charCodeAt b p) as [c|]; simpl; [|lia].
  destruct (c =? 45).
  - destruct (negb _); simpl; [lia|]. specialize (IH k true (p + 1)). lia.
  - destruct (orb _ _); simpl; [lia|].
    specialize (IH (k * 10 + (c - 48)) s (p + 1)). lia.
Qed.

Lemma readDigitsLoop_nonneg b fpos : forall n k p,
  0 <= k -> fpos <= p -> (p = fpos -> charCodeAt b p <> Some 45) ->
  exists k' p', readDigitsLoop n b fpos k false p = (k', false, p') /\ 0 <= k'.
Proof.
  induction n as [|n IH]; intros k p Hk Hfpos Hminus; simpl; [by eauto|].
  destruct (charCodeAt b p) as [c|] eqn:Hc; [|by eauto].
  destruct (c =? 45) eqn:H45.
  - destruct (p =? fpos) eqn:Hp; simpl; [|by eauto].
    exfalso. apply Hminus; [lia|]. f_equal. lia.
  - destruct (orb _ _) eqn:Hd; [by eauto|].
    apply IH; [lia|lia|]. intros Hp. lia.
Qed.

Lemma steps_readDigits : steps readDigits.
Proof.
  intros st. unfold readDigits.
  pose proof (readDigitsLoop_onward (buf st) (pos st)
                (S (String.length (buf st))) 0 false (pos st)) as H.
  destruct (readDigitsLoop _ _ _ _ _ _) as [[k s] p]. by split.
Qed.

Lemma readDigits_nonneg st n st' :
  charCodeAt (buf st) (pos st) <> Some 45 ->
  readDigits st = Ok n st' -> 0 <= n.
Proof.
  intros Hminus. unfold readDigits.
  destruct (readDigitsLoop_nonneg (buf st) (pos st)
              (S (String.length (buf st))) 0 (pos st) ltac:(lia) ltac:(lia)
              (fun _ => Hminus)) as (k' & p' & -> & Hk').
  intros [= <- _]. lia.
Qed.

Lemma readFloatLoop_onward b : forall n p, p <= readFloatLoop n b p.
Proof.
  induction n as [|n IH]; intros p; simpl; [lia|].
  destruct (charCodeAt b p) as [c|]; [|lia].
  destruct (floatChar c); [|lia]. specialize (IH (p + 1)). lia.
Qed.

Lemma steps_readFloat {host : Host} : steps readFloat.
Proof.
  intros st. unfold readFloat. split; [done|].
  apply (readFloatLoop_onward (buf st) (S (String.length (buf st))) (pos st)).
Qed.

Lemma from_steps {A} st0 (m : M A) st :
  steps m -> onward st0 st -> answers_from st0 m st.
Proof.
  intros Hm Hon. specialize (Hm st). unfold answers_from.
  destruct (m st); [| |done]; by eapply onward_trans.
Qed.

Lemma from_steps_bind {A B} st0 (m : M A) (k : A -> M B) st :
  steps m -> onward st0 st ->
  (forall a st1, onward st st1 -> answers_from st0 (k a) st1) ->
  answers_from st0 (bind m k) st.
Proof.
  intros Hm Hon Hk. specialize (Hm st). unfold answers_from, bind.
  destruct (m st) as [a st1|e st1|]; [|by eapply onward_trans|done].
  apply (Hk a st1 Hm).
Qed.

Lemma from_ends {A} n st0 (m : M A) st :
  ends n m -> tame (buf st) -> (remaining_chars st < n)%nat ->
  onward st0 st -> answers_from st0 m st.
Proof.
  intros Hm Ht Hr Hon. specialize (Hm st Ht Hr). unfold answers_from.
  destruct (m st); [| |done]; by eapply onward_trans.
Qed.

Lemma from_rec_bind {B} f st0 (rec : M Value) (k : Value -> M B) st :
  advances f rec -> tame (buf st) -> (remaining_chars st < f)%nat ->
  onward st0 st ->
  (forall v st1, onward st st1 ->
     (remaining_chars st1 < remaining_chars st)%nat ->
     answers_from st0 (k v) st1) ->
  answers_from st0 (bind rec k) st.
Proof.
  intros Hrec Ht Hr Hon Hk. specialize (Hrec st Ht Hr).
  unfold answers_from, bind.
  destruct (rec st) as [v st1|e st1|]; [|by eapply onward_trans|done].
  destruct Hrec as [Hon1 Hlt]. by apply Hk.
Qed.

Lemma ends_from {A} n (m : M A) :
  (forall st, tame (buf st) -> (remaining_chars st < n)%nat ->
              answers_from st m st) ->
  ends n m.
Proof. intros H st Ht Hr. apply (H st Ht Hr). Qed.

(** A character under the cursor is one of the characters that remain. *)
Lemma remaining_after_char st c :
  charCodeAt (buf st) (pos st) = Some c ->
  (remaining_chars (setPos (pos st + 1) st) < remaining_chars st)%nat.
Proof.
  intros Hc. apply charCodeAt_Some_lt in Hc.
  unfold remaining_chars, buflen. simpl. lia.
Qed.

Lemma codeIs_Some c n : codeIs c n = true -> c = Some n.
Proof. destruct c as [x|]; simpl; [|done]. intros H. f_equal. lia. Qed.

Ltac onward_solve :=
  repeat match goal with
         | H : onward _ _ |- _ =>
             lazymatch type of H with
             | onward ?a ?b =>
                 lazymatch goal with
                 | _ : (remaining_chars b <= remaining_chars a)%nat |- _ => fail
                 | _ => pose proof (onward_remaining _ _ H)
                 end
             end
         end.

Ltac side :=
  first
    [ done
    | apply onward_refl
    | onward_solve; lia
    | eauto 8 using onward_refl, onward_trans, onward_tame ].

Section Ending.

Context {host : Host} {resolver : TypeResolver}.

Variable rec : M Value.
Variable f : nat.
Hypothesis Hrec : advances f rec.

Lemma ends_unserializeObject o : forall k,
  (k <= f)%nat -> ends k (unserializeObject rec k o).
Proof.
  induction k as [|k IH]; intros Hle; apply ends_from; intros st Ht Hr; [lia|].
  rewrite unserializeObject_round.
  unfold answers_from. unfold bind at 1, atEnd at 1.
  destruct (buflen st <=? pos st); [apply onward_refl|].
  unfold bind at 1, peek at 1.
  destruct (codeIs _ 103); [apply (steps_skip st)|].
  apply (from_rec_bind f st rec); [done|done|lia|apply onward_refl|].
  intros key st1 Hon1 Hlt1.
  destruct key; try (apply from_steps; [apply steps_throw|done]).
  apply (from_rec_bind f st rec); [done|by eapply onward_tame|lia|done|].
  intros v st2 Hon2 Hlt2.
  apply from_steps_bind; [apply steps_update|by eapply onward_trans|].
  intros _ st3 Hon3. pose proof (onward_remaining _ _ Hon3).
  apply (from_ends k); [apply IH; lia| |lia|].
  - eapply onward_tame; [|exact Ht].
    repeat (eapply onward_trans; [|eassumption]). done.
  - repeat (eapply onward_trans; [|eassumption]). apply onward_refl.
Qed.

Lemma ends_arrayLoop a : forall k,
  (k <= f)%nat -> ends k (arrayLoop rec k a).
Proof.
  induction k as [|k IH]; intros Hle; apply ends_from; intros st Ht Hr; [lia|].
  simpl arrayLoop. unfold answers_from. unfold bind at 1, peek at 1.
  destruct (codeIs _ 104); [apply (steps_skip st)|].
  destruct (codeIs _ 117) eqn:Hu.
  - apply codeIs_Some in Hu. pose proof (remaining_after_char st 117 Hu).
    unfold bind at 1, skip at 1.
    assert (Hon0 : onward st (setPos (pos st + 1) st))
      by (apply onward_setPos; lia).
    apply from_steps_bind; [apply steps_readDigits|done|].
    intros n st1 Hon1.
    apply from_steps_bind; [apply steps_getHeap|side|].
    intros h st2 Hon2.
    apply from_steps_bind; [apply steps_update|side|].
    intros _ st3 Hon3.
    apply (from_ends k); [apply IH; lia|side|side|side].
  - apply (from_rec_bind f st rec); [done|done|lia|side|].
    intros v st1 Hon1 Hlt1.
    apply from_steps_bind; [apply steps_arrayPush|side|].
    intros _ st2 Hon2.
    apply (from_ends k); [apply IH; lia|side|side|side].
Qed.

Lemma ends_listLoop a : forall k,
  (k <= f)%nat -> ends k (listLoop rec k a).
Proof.
  induction k as [|k IH]; intros Hle; apply ends_from; intros st Ht Hr; [lia|].
  simpl listLoop. unfold answers_from. unfold bind at 1, peek at 1.
  destruct (codeIs _ 104); [apply (steps_skip st)|].
  apply (from_rec_bind f st rec); [done|done|lia|side|].
  intros v st1 Hon1 Hlt1.
  apply from_steps_bind; [apply steps_arrayPush|side|].
  intros _ st2 Hon2.
  apply (from_ends k); [apply IH; lia|side|side|side].
Qed.

Lemma steps_setProperty o k v : steps (setProperty o k v).
Proof.
  unfold setProperty. apply steps_bind; [apply steps_getHeap|].
  intros h. apply steps_update.
Qed.

Lemma ends_stringMapLoop a : forall k,
  (k <= f)%nat -> ends k (stringMapLoop rec k a).
Proof.
  induction k as [|k IH]; intros Hle; apply ends_from; intros st Ht Hr; [lia|].
  simpl stringMapLoop. unfold answers_from. unfold bind at 1, peek at 1.
  destruct (codeIs _ 104); [apply (steps_skip st)|].
  apply (from_rec_bind f st rec); [done|done|lia|side|].
  intros smt st1 Hon1 Hlt1.
  apply (from_rec_bind f st rec); [done|side|side|side|].
  intros v st2 Hon2 Hlt2.
  apply from_steps_bind; [apply steps_setProperty|side|].
  intros _ st3 Hon3.
  apply (from_ends k); [apply IH; lia|side|side|side].
Qed.

Lemma ends_objectMapLoop a : forall k,
  (k <= f)%nat -> ends k (objectMapLoop rec k a).
Proof.
  induction k as [|k IH]; intros Hle; apply ends_from; intros st Ht Hr; [lia|].
  simpl objectMapLoop. unfold answers_from. unfold bind at 1, peek at 1.
  destruct (codeIs _ 104); [apply (steps_skip st)|].
  apply (from_rec_bind f st rec); [done|done|lia|side|].
  intros wms st1 Hon1 Hlt1.
  apply (from_rec_bind f st rec); [done|side|side|side|].
  intros v st2 Hon2 Hlt2.
  apply from_steps_bind; [apply steps_weakMapSetM|side|].
  intros _ st3 Hon3.
  apply (from_ends k); [apply IH; lia|side|side|side].
Qed.

Lemma ends_intMapLoop a : forall k,
  (k <= f)%nat -> ends k (intMapLoop rec k a).
Proof.
  induction k as [|k IH]; intros Hle; apply ends_from; intros st Ht Hr; [lia|].
  simpl intMapLoop. unfold answers_from. unfold bind at 1, next at 1.
  assert (Hon0 : onward st (setPos (pos st + 1) st))
    by (apply onward_setPos; lia).
  destruct (codeIs _ 58) eqn:Hc.
  - apply codeIs_Some in Hc. pose proof (remaining_after_char st 58 Hc).
    apply from_steps_bind; [apply steps_readDigits|done|].
    intros i st1 Hon1.
    apply (from_rec_bind f st rec); [done|side|side|side|].
    intros v st2 Hon2 Hlt2.
    apply from_steps_bind; [apply steps_setProperty|side|].
    intros _ st3 Hon3.
    apply (from_ends k); [apply IH; lia|side|side|side].
  - destruct (codeIs _ 104); exact Hon0.
Qed.

Lemma ends_readArgs n : ends f (readArgs rec n).
Proof.
  induction n as [|n IH]; simpl; [apply steps_ends, steps_ret|].
  apply ends_bind; [by apply advances_ends|]. intros v.
  apply ends_bind; [done|]. intros vs. apply steps_ends, steps_ret.
Qed.

Lemma ends_unserializeEnum edecl tag :
  ends f (unserializeEnum rec edecl tag).
Proof.
  unfold unserializeEnum.
  apply ends_bind; [apply steps_ends, steps_skip|]. intros _.
  destruct (enumClass _ _) as [ctor|]; [|apply steps_ends, steps_throw].
  apply ends_bind; [apply steps_ends, steps_readDigits|]. intros numArgs.
  destruct (orb _ _); [apply steps_ends, steps_throw|].
  apply ends_bind; [apply ends_readArgs|]. intros args.
  apply steps_ends, steps_alloc.
Qed.

Lemma ends_runHook self p : ends f (runHook rec self p).
Proof.
  induction p as [|e|k v p IH|k IHk h IHh]; simpl.
  - apply steps_ends, steps_ret.
  - apply steps_ends, steps_throw.
  - apply ends_bind; [apply steps_ends, steps_update|]. by intros _.
  - intros st Ht Hr. pose proof (Hrec st Ht Hr) as H.
    destruct (rec st) as [v st1|e st1|]; [| |done].
    + destruct H as [Hon Hlt].
      specialize (IHk v st1 (onward_tame _ _ Hon Ht) ltac:(lia)).
      destruct (runHook _ _ _ _); [| |done]; by eapply onward_trans.
    + pose proof (onward_remaining _ _ H).
      specialize (IHh e st1 (onward_tame _ _ H Ht) ltac:(lia)).
      destruct (runHook _ _ _ _); [| |done]; by eapply onward_trans.
Qed.

(** The payload of a string, tag [y]: the length is not negative when no
    minus sign follows the tag. *)
Lemma string_answers st :
  charCodeAt (buf st) (pos st) <> Some 45 ->
  answers_from st (unserializeTag rec f TString) st.
Proof.
  intros Hminus. simpl. unfold answers_from. unfold bind at 1.
  pose proof (steps_readDigits st) as Hrd.
  destruct (readDigits st) as [len st1|e st1|] eqn:Hlen; [|done|done].
  pose proof (readDigits_nonneg st len st1 Hminus Hlen) as Hnn.
  unfold bind at 1, next at 1. unfold bind at 1, remaining at 1.
  destruct Hrd as [Hb Hp].
  destruct (orb _ _); [split; simpl; [done|lia]|].
  unfold bind at 1, substrAt at 1. unfold bind at 1, advance at 1.
  destruct (decodeURIComponent _); simpl; split; simpl; (done || lia).
Qed.

(** The payload of a byte buffer, tag [s]. *)
Lemma bytes_answers st :
  charCodeAt (buf st) (pos st) <> Some 45 ->
  answers_from st (unserializeTag rec f TBytes) st.
Proof.
  intros Hminus. simpl. unfold answers_from. unfold bind at 1.
  pose proof (steps_readDigits st) as Hrd.
  destruct (readDigits st) as [len st1|e st1|] eqn:Hlen; [|done|done].
  pose proof (readDigits_nonneg st len st1 Hminus Hlen) as Hnn.
  unfold bind at 1, next at 1. unfold bind at 1, remaining at 1.
  destruct Hrd as [Hb Hp].
  destruct (orb _ _); [split; simpl; [done|lia]|].
  simpl. split; simpl; (done || lia).
Qed.

Ltac ends_step :=
  first
    [ apply ends_unserializeObject; lia
    | apply ends_arrayLoop; lia
    | apply ends_listLoop; lia
    | apply ends_stringMapLoop; lia
    | apply ends_intMapLoop; lia
    | apply ends_objectMapLoop; lia
    | apply ends_unserializeEnum
    | apply ends_runHook
    | apply advances_ends; exact Hrec
    | apply ends_bind; [| intros ?]
    | apply steps_ends;
      first [ apply steps_ret | apply steps_throw | apply steps_next
            | apply steps_skip | apply steps_readDigits | apply steps_readFloat
            | apply steps_alloc | apply steps_pushCache | apply steps_cacheAt
            | apply steps_scacheAt ]
    | match goal with
      | |- ends _ (if ?b then _ else _) => destruct b
      | |- ends _ (match ?x with _ => _ end) => destruct x
      end ].

Lemma ends_unserializeTag t :
  t <> TString -> t <> TBytes -> ends f (unserializeTag rec f t).
Proof.
  intros Hy Hs. destruct t; try done; simpl; repeat ends_step.
Qed.

End Ending.

Lemma tagOf_string c : tagOf (Some c) = Some TString -> c = 121.
Proof.
  destruct c as [|p|p]; try discriminate.
  do 8 (try destruct p as [p|p|]; try discriminate). done.
Qed.

Lemma tagOf_bytes c : tagOf (Some c) = Some TBytes -> c = 115.
Proof.
  destruct c as [|p|p]; try discriminate.
  do 8 (try destruct p as [p|p|]; try discriminate). done.
Qed.

(** On a tame input, [unserialize] with a budget larger than the number of
    characters that remain returns or throws, and has read at least one
    character when it returns. *)
Lemma unserialize_advances {host : Host} {resolver : TypeResolver} :
  forall f, advances f (unserialize f).
Proof.
  induction f as [|f IH]; intros st Ht Hr; [lia|].
  simpl unserialize. unfold bind at 1, next at 1.
  destruct (charCodeAt (buf st) (pos st)) as [c|] eqn:Hc.
  2:{ simpl. split; simpl; (done || lia). }
  pose proof (remaining_after_char st c Hc) as Hlt.
  destruct (tagOf (Some c)) as [t|] eqn:Htag.
  2:{ simpl. split; simpl; (done || lia). }
  assert (Hon : onward st (setPos (pos st + 1) st))
    by (apply onward_setPos; lia).
  assert (Hans : answers_from (setPos (pos st + 1) st)
                   (unserializeTag (unserialize f) f t)
                   (setPos (pos st + 1) st)).
  { assert (Hcases : t = TString \/ t = TBytes \/ (t <> TString /\ t <> TBytes))
      by (destruct t;
          first [ left; reflexivity | right; left; reflexivity
                | right; right; split; discriminate ]).
    destruct Hcases as [->|[->|[Hy Hs]]].
    - apply string_answers. apply tagOf_string in Htag as ->.
      apply (Ht (pos st)). by left.
    - apply bytes_answers. apply tagOf_bytes in Htag as ->.
      apply (Ht (pos st)). by right.
    - apply (ends_unserializeTag _ f IH t Hy Hs); [done|lia]. }
  unfold answers_from in Hans.
  destruct (unserializeTag _ _ _ _) as [v st'|e st'|]; [| |done].
  - pose proof (onward_remaining _ _ Hans).
    split; [by eapply onward_trans|lia].
  - by eapply onward_trans.
Qed.

(** On a tame input [unserialize] ends: some budget makes it return or
    throw, and so does every larger one. *)
Theorem unserialize_ends {host : Host} {resolver : TypeResolver} st :
  tame (buf st) ->
  forall fuel, (remaining_chars st < fuel)%nat ->
  unserialize fuel st <> OutOfFuel.
Proof.
  intros Ht fuel Hr H. pose proof (unserialize_advances fuel st Ht Hr) as Ha.
  by rewrite H in Ha.
Qed.

Lemma charCodeAt_head c r : charCodeAt (String c r) 0 = Some (code c).
Proof. reflexivity. Qed.

Lemma charCodeAt_tail c r i :
  0 <= i -> charCodeAt (String c r) (i + 1) = charCodeAt r i.
Proof.
  intros Hi. unfold charCodeAt.
  replace (i + 1 <? 0) with false by lia.
  replace (i <? 0) with false by lia.
  replace (Z.to_nat (i + 1)) with (S (Z.to_nat i)) by lia. reflexivity.
Qed.

Lemma tameFrom_tame s : forall after,
  tameFrom after s = true ->
  (after = true -> charCodeAt s 0 <> Some 45) /\
  (forall i, charCodeAt s i = Some 121 \/ charCodeAt s i = Some 115 ->
             charCodeAt s (i + 1) <> Some 45).
Proof.
  induction s as [|c r IH]; intros after Hs.
  - split; [done|]. intros i _. unfold charCodeAt. by destruct (_ <? _).
  - simpl in Hs. apply andb_true_iff in Hs as [Hhead Hrest].
    destruct (IH _ Hrest) as [IH0 IHi]. split.
    + intros ->. rewrite charCodeAt_head. simpl in Hhead.
      intros [= H]. rewrite H in Hhead. done.
    + intros i Hi.
      assert (Hi0 : 0 <= i).
      { destruct Hi as [Hi|Hi]; apply charCodeAt_Some_lt in Hi; lia. }
      destruct (decide (i = 0)) as [->|Hne].
      * rewrite (charCodeAt_tail c r 0) by lia.
        apply IH0. rewrite charCodeAt_head in Hi.
        destruct Hi as [[= ->]|[= ->]]; reflexivity.
      * replace i with ((i - 1) + 1) in Hi by lia.
        rewrite charCodeAt_tail in Hi by lia.
        rewrite charCodeAt_tail by lia.
        replace i with ((i - 1) + 1) by lia. by apply IHi.
Qed.

Lemma tameFrom_true b : tameFrom false b = true -> tame b.
Proof. intros H. by destruct (tameFrom_tame b false H). Qed.

Example run_ends :
  forall fuel, (11 < fuel)%nat ->
  unserialize fuel (newUnserializer "ai-1y3:abch") <> OutOfFuel.
Proof.
  intros fuel Hfuel. apply unserialize_ends; [|exact Hfuel].
  by apply tameFrom_true.
Qed.

(** * The claims of the specification *)

(** ** Claim C1 *)

(** C1 fails for tag [w]: the argument of the enum instance, an array, takes
    slot 0, the slot that was free when the instance began, and the instance
    takes slot 1. *)
Lemma C1_counterexample :
  tagOf (charCodeAt "wy5:Colory3:Rgb:1ah!" 0) = Some TEnumName /\
  unserialize 3 (newUnserializer "wy5:Colory3:Rgb:1ah!")
  = Ok (VRef 1)
       {| buf := "wy5:Colory3:Rgb:1ah!"; pos := 20;
          cache := [VRef 0%nat; VRef 1%nat]; scache := ["Color"; "Rgb"];
          heap := [OArray 0 ∅; OEnum Color 1 [VRef 0%nat]] |} /\
  ~ pushedAtStart 3 (newUnserializer "wy5:Colory3:Rgb:1ah!").
Proof.
  assert (Hrun : unserialize 3 (newUnserializer "wy5:Colory3:Rgb:1ah!")
                 = Ok (VRef 1)
                      {| buf := "wy5:Colory3:Rgb:1ah!"; pos := 20;
                         cache := [VRef 0%nat; VRef 1%nat];
                         scache := ["Color"; "Rgb"];
                         heap := [OArray 0 ∅; OEnum Color 1 [VRef 0%nat]] |})
    by (vm_compute; reflexivity).
  split; [vm_compute; reflexivity|]. split; [exact Hrun|].
  intros H. specialize (H _ _ Hrun). discriminate H.
Qed.

(** C1, as the code has it: a call of [unserialize] on the tag of a compound
    value has pushed the value
    - for [a], [o], [l], [b], [q] and [M], into the slot that was the next
      free one when the call began, before anything of the payload, whether
      the call returns or throws;
    - for [c] and [C], into the slot that was the next free one when the
      name had been decoded and resolved, before the fields or the custom
      payload, whether the call returns or throws;
    - for [w], [j], [v] and [s], into the last slot of the cache, after the
      payload, when the call returns;
    and, from a well-formed state, into that slot only. *)
Theorem C1_cache_slot {host : Host} {resolver : TypeResolver} fuel st c t :
  charCodeAt (buf st) (pos st) = Some c ->
  tagOf (Some c) = Some t ->
  (forall v st', unserialize (S fuel) st = Ok v st' ->
   (pushesFirst t = true ->
    v = VRef (length (heap st)) /\
    cache st' !! length (cache st) = Some v) /\
   (pushesAfterName t = true ->
    exists name st1,
      unserialize fuel (setPos (pos st + 1) st) = Ok name st1 /\
      v = VRef (length (heap st1)) /\
      cache st' !! length (cache st1) = Some v) /\
   (pushesLast t = true -> last (cache st') = Some v) /\
   (compound t = true -> wf st ->
    exists i, forall j, cache st' !! j = Some v <-> j = i)) /\
  (forall e st', unserialize (S fuel) st = Err e st' ->
   (pushesFirst t = true ->
    cache st' !! length (cache st) = Some (VRef (length (heap st))) /\
    (length (heap st) < length (heap st'))%nat /\
    (wf st -> forall j,
       cache st' !! j = Some (VRef (length (heap st)))
       <-> j = length (cache st))) /\
   (pushesAfterName t = true ->
    forall name st1 cl,
      unserialize fuel (setPos (pos st + 1) st) = Ok name st1 ->
      resolveClass name = Some cl ->
      cache st' !! length (cache st1) = Some (VRef (length (heap st1))) /\
      (length (heap st1) < length (heap st'))%nat /\
      (wf st -> forall j,
         cache st' !! j = Some (VRef (length (heap st1)))
         <-> j = length (cache st1)))).
Proof.
  intros Hc Ht. split.
  - intros v st' Hrun.
    assert (Hfirst : pushesFirst t = true ->
      v = VRef (length (heap st)) /\ cache st' !! length (cache st) = Some v).
    { intros Hp. rewrite (unserialize_tag fuel st c t Hc Ht) in Hrun.
      pose proof (steady_unserialize fuel) as Hrec.
      destruct t; try discriminate Hp; simpl in Hrun;
        apply first_slot_ret in Hrun; try exact Hrun; intros a.
      - by apply steady_arrayLoop.
      - by apply steady_unserializeObject.
      - by apply steady_listLoop.
      - by apply steady_stringMapLoop.
      - by apply steady_intMapLoop.
      - by apply steady_objectMapLoop. }
    assert (Hname : pushesAfterName t = true ->
      exists name st1,
        unserialize fuel (setPos (pos st + 1) st) = Ok name st1 /\
        v = VRef (length (heap st1)) /\
        cache st' !! length (cache st1) = Some v).
    { intros Hp. rewrite (unserialize_tag fuel st c t Hc Ht) in Hrun.
      pose proof (steady_unserialize fuel) as Hrec.
      destruct t; try discriminate Hp; simpl in Hrun;
        unfold bind at 1 in Hrun;
        destruct (unserialize fuel _) as [name st1|e st1|];
        try discriminate Hrun;
        exists name, st1; (split; [reflexivity|]).
      - destruct (resolveClass name) as [cli|]; [|done].
        apply first_slot_ret in Hrun; [done|].
        intros a. by apply steady_unserializeObject.
      - destruct (resolveClass name) as [cl|]; [|done].
        assert (Hv : v = VRef (length (heap st1))).
        { revert Hrun. unfold bind, alloc, pushCache.
          destruct (qwkpktDecode cl) as [decode|]; [|done].
          destruct (runHook _ _ _ _); [|done|done].
          unfold next. destruct (codeIs _ _); [|done]. by intros [= <- _]. }
        split; [done|]. rewrite Hv.
        eapply (first_slot (fun a =>
                  match qwkpktDecode cl with
                  | Some decode => runHook (unserialize fuel) a (decode a)
                  | None =>
                      throw (TypeError "cclo._qwkpktDecode is not a function")
                  end ;;; c0 <- next ;;
                  if codeIs c0 103 then ret a else throw InvalidCustomData));
          [|exact Hrun].
        intros a. apply steady_bind.
        + destruct (qwkpktDecode cl);
            [by apply steady_runHook|apply steady_throw].
        + intros _. repeat steady_step. }
    assert (Hlast : pushesLast t = true -> last (cache st') = Some v).
    { intros Hp. rewrite (unserialize_tag fuel st c t Hc Ht) in Hrun.
      destruct t; try discriminate Hp; simpl in Hrun.
      - unfold bind at 1 in Hrun.
        destruct (unserialize fuel _) as [name st1|e st1|];
          try discriminate Hrun.
        destruct (resolveEnum name) as [edecl|]; [|done].
        unfold bind at 1 in Hrun.
        destruct (unserialize fuel _) as [tag st2|e st2|];
          try discriminate Hrun.
        unfold bind at 1 in Hrun.
        destruct (unserializeEnum _ _ _ _) as [e1 st3|e st3|];
          try discriminate Hrun.
        injection Hrun as <- <-. simpl. apply last_snoc.
      - unfold bind at 1 in Hrun.
        destruct (unserialize fuel _) as [name st1|e st1|];
          try discriminate Hrun.
        destruct (resolveEnum name) as [edecl|]; [|done].
        unfold bind at 1, skip at 1 in Hrun. unfold bind at 1 in Hrun.
        destruct (readDigits _) as [index st2|e st2|]; try discriminate Hrun.
        unfold bind at 1 in Hrun.
        destruct (unserializeEnum _ _ _ _) as [e1 st3|e st3|];
          try discriminate Hrun.
        injection Hrun as <- <-. simpl. apply last_snoc.
      - injection Hrun as <- <-. simpl. apply last_snoc.
      - unfold bind at 1 in Hrun.
        destruct (readDigits _) as [len st1|e st1|]; try discriminate Hrun.
        unfold bind at 1, next at 1 in Hrun.
        unfold bind at 1, remaining at 1 in Hrun.
        destruct (orb _ _); [done|].
        injection Hrun as <- <-. simpl. apply last_snoc. }
    split; [done|]. split; [done|]. split; [done|].
    intros Hcomp Hwf.
    pose proof (steady_unserialize (S fuel) st) as Hg. unfold post in Hg.
    rewrite Hrun in Hg. destruct (grows_wf _ _ Hg Hwf) as [Htr _].
    assert (Hin : exists i, cache st' !! i = Some v).
    { unfold compound in Hcomp.
      destruct (pushesFirst t) eqn:H1.
      { destruct (Hfirst eq_refl) as [_ H]. eauto. }
      destruct (pushesAfterName t) eqn:H2.
      { destruct (Hname eq_refl) as (name & st1 & _ & _ & H). eauto. }
      simpl in Hcomp. specialize (Hlast Hcomp).
      rewrite last_lookup in Hlast. eauto. }
    destruct Hin as [i Hi]. exists i. intros j. split.
    + intros Hj. apply (tracks_slot _ _ _ Htr) in Hi, Hj. congruence.
    + by intros ->.
  - intros e st' Hrun.
    pose proof (steady_unserialize (S fuel) st) as Hg. unfold post in Hg.
    rewrite Hrun in Hg.
    rewrite (unserialize_tag fuel st c t Hc Ht) in Hrun.
    pose proof (steady_unserialize fuel) as Hrec.
    split.
    + intros Hp.
      assert (Hslot :
        cache st' !! length (cache st) = Some (VRef (length (heap st))) /\
        (length (heap st) < length (heap st'))%nat).
      { destruct t; try discriminate Hp; simpl in Hrun;
          apply first_slot_ret_thrown in Hrun; try exact Hrun; intros a.
        - by apply steady_arrayLoop.
        - by apply steady_unserializeObject.
        - by apply steady_listLoop.
        - by apply steady_stringMapLoop.
        - by apply steady_intMapLoop.
        - by apply steady_objectMapLoop. }
      destruct Hslot as [Hslot Hlen]. split; [done|]. split; [done|].
      intros Hwf. destruct (grows_wf _ _ Hg Hwf) as [Htr _].
      by apply tracks_only_slot.
    + intros Hp name st1 cl Hname Hres.
      assert (Hslot :
        cache st' !! length (cache st1) = Some (VRef (length (heap st1))) /\
        (length (heap st1) < length (heap st'))%nat).
      { destruct t; try discriminate Hp; simpl in Hrun;
          unfold bind at 1 in Hrun; rewrite Hname, Hres in Hrun.
        - apply first_slot_ret_thrown in Hrun; [done|].
          intros a. by apply steady_unserializeObject.
        - eapply (first_slot_thrown (fun a =>
                  match qwkpktDecode cl with
                  | Some decode => runHook (unserialize fuel) a (decode a)
                  | None =>
                      throw (TypeError "cclo._qwkpktDecode is not a function")
                  end ;;; c0 <- next ;;
                  if codeIs c0 103 then ret a else throw InvalidCustomData));
            [|exact Hrun].
          intros a. apply steady_bind.
          + destruct (qwkpktDecode cl);
              [by apply steady_runHook|apply steady_throw].
          + intros _. repeat steady_step. }
      destruct Hslot as [Hslot Hlen]. split; [done|]. split; [done|].
      intros Hwf. destruct (grows_wf _ _ Hg Hwf) as [Htr _].
      by apply tracks_only_slot.
Qed.

Lemma C1_cache_slot_witness :
  (unserialize 3 (newUnserializer "aahh")
   = Ok (VRef 0%nat)
        {| buf := "aahh"; pos := 4; cache := [VRef 0%nat; VRef 1%nat];
           scache := [];
           heap := [OArray 1 {[ 0 := VRef 1%nat ]}; OArray 0 ∅] |} /\
   [VRef 0%nat; VRef 1%nat] !! 0%nat = Some (VRef 0%nat)) /\
  last [VRef 0%nat; VRef 1%nat] = Some (VRef 1%nat) /\
  (exists name st1,
     unserialize 2 (setPos 1 (newUnserializer "cy5:Pointg")) = Ok name st1 /\
     VRef 0%nat = VRef (length (heap st1)) /\
     [VRef 0%nat] !! length (cache st1) = Some (VRef 0%nat)) /\
  (exists i, forall j,
     [VRef 0%nat; VRef 1%nat] !! j = Some (VRef 1%nat) <-> j = i) /\
  (unserialize 3 (newUnserializer "ai1")
   = Err (InvalidChar None 3)
         {| buf := "ai1"; pos := 3; cache := [VRef 0%nat]; scache := [];
            heap := [OArray 1 {[ 0 := VNum (NInt 1) ]}] |} /\
   [VRef 0%nat] !! 0%nat = Some (VRef 0%nat)) /\
  (unserialize 3 (newUnserializer "cy5:Pointy1:x")
   = Err (InvalidChar None 13)
         {| buf := "cy5:Pointy1:x"; pos := 13; cache := [VRef 0%nat];
            scache := ["Point"; "x"];
            heap := [OObject (PClass Point) ∅] |} /\
   [VRef 0%nat] !! 0%nat = Some (VRef 0%nat)).
Proof.
  split; [split; [reflexivity|] |split; [|split; [|split; [|split]]]].
  - destruct (C1_cache_slot 2 (newUnserializer "aahh") 97 TArray)
      as [H _]; [reflexivity..|].
    destruct (H (VRef 0%nat)
                {| buf := "aahh"; pos := 4; cache := [VRef 0%nat; VRef 1%nat];
                   scache := [];
                   heap := [OArray 1 {[ 0 := VRef 1%nat ]}; OArray 0 ∅] |})
      as (H1 & _); [reflexivity|].
    exact (proj2 (H1 eq_refl)).
  - destruct (C1_cache_slot 2 (newUnserializer "wy5:Colory3:Rgb:1ah!")
                119 TEnumName) as [H _]; [reflexivity..|].
    destruct (H (VRef 1%nat)
                {| buf := "wy5:Colory3:Rgb:1ah!"; pos := 20;
                   cache := [VRef 0%nat; VRef 1%nat];
                   scache := ["Color"; "Rgb"];
                   heap := [OArray 0 ∅; OEnum Color 1 [VRef 0%nat]] |})
      as (_ & _ & H3 & _); [reflexivity|].
    exact (H3 eq_refl).
  - destruct (C1_cache_slot 2 (newUnserializer "cy5:Pointg") 99 TClass)
      as [H _]; [reflexivity..|].
    destruct (H (VRef 0%nat)
                {| buf := "cy5:Pointg"; pos := 10; cache := [VRef 0%nat];
                   scache := ["Point"];
                   heap := [OObject (PClass Point) ∅] |})
      as (_ & H2 & _); [reflexivity|].
    exact (H2 eq_refl).
  - destruct (C1_cache_slot 2 (newUnserializer "wy5:Colory3:Rgb:1ah!")
                119 TEnumName) as [H _]; [reflexivity..|].
    destruct (H (VRef 1%nat)
                {| buf := "wy5:Colory3:Rgb:1ah!"; pos := 20;
                   cache := [VRef 0%nat; VRef 1%nat];
                   scache := ["Color"; "Rgb"];
                   heap := [OArray 0 ∅; OEnum Color 1 [VRef 0%nat]] |})
      as (_ & _ & _ & H4); [reflexivity|].
    exact (H4 eq_refl (wf_newUnserializer _)).
  - split; [reflexivity|].
    destruct (C1_cache_slot 2 (newUnserializer "ai1") 97 TArray)
      as [_ H]; [reflexivity..|].
    destruct (H (InvalidChar None 3)
                {| buf := "ai1"; pos := 3; cache := [VRef 0%nat];
                   scache := [];
                   heap := [OArray 1 {[ 0 := VNum (NInt 1) ]}] |})
      as (H1 & _); [reflexivity|].
    exact (proj1 (H1 eq_refl)).
  - split; [reflexivity|].
    destruct (C1_cache_slot 2 (newUnserializer "cy5:Pointy1:x") 99 TClass)
      as [_ H]; [reflexivity..|].
    destruct (H (InvalidChar None 13)
                {| buf := "cy5:Pointy1:x"; pos := 13; cache := [VRef 0%nat];
                   scache := ["Point"; "x"];
                   heap := [OObject (PClass Point) ∅] |})
      as (_ & H2); [reflexivity|].
    destruct (H2 eq_refl (VStr "Point")
                {| buf := "cy5:Pointy1:x"; pos := 9; cache := [];
                   scache := ["Point"]; heap := [] |} Point)
      as (H3 & _); [reflexivity..|].
    exact H3.
Defined.

(** ** Claim C2 *)



(** ** Claim C3 *)



(** ** Claim C4 *)

(** C4: a reference tag [r] or [R] whose index is negative or not below the
    length of its cache makes [unserialize] throw "Invalid reference",
    respectively "Invalid string reference", both format errors; no value is
    returned. *)
Theorem C4_reference_out_of_range {host : Host} {resolver : TypeResolver}
    fuel st n st1 :
  readDigits (setPos (pos st + 1) st) = Ok n st1 ->
  (charCodeAt (buf st) (pos st) = Some 114 ->
   n < 0 \/ Z.of_nat (length (cache st)) <= n ->
   unserialize (S fuel) st = Err InvalidReference st1 /\
   errorKind InvalidReference = FormatError) /\
  (charCodeAt (buf st) (pos st) = Some 82 ->
   n < 0 \/ Z.of_nat (length (scache st)) <= n ->
   unserialize (S fuel) st = Err InvalidStringReference st1 /\
   errorKind InvalidStringReference = FormatError).
Proof.
  intros Hn.
  assert (Hst : cache st1 = cache st /\ scache st1 = scache st).
  { unfold readDigits in Hn. destruct (readDigitsLoop _ _ _ _ _ _) as [[k s] p].
    by inversion Hn. }
  destruct Hst as [Hc Hs].
  split; intros Htag Hrange; (split; [|reflexivity]).
  - rewrite (unserialize_tag fuel st 114 TRef Htag eq_refl). simpl.
    unfold bind. rewrite Hn. unfold cacheAt. rewrite Hc.
    destruct (orb _ _) eqn:Hb; [done|]. lia.
  - rewrite (unserialize_tag fuel st 82 TStrRef Htag eq_refl). simpl.
    unfold bind. rewrite Hn. unfold scacheAt. rewrite Hs.
    destruct (orb _ _) eqn:Hb; [done|]. lia.
Qed.

Lemma C4_reference_out_of_range_witness :
  unserialize 1 (newUnserializer "r0")
  = Err InvalidReference (setPos 2 (newUnserializer "r0")) /\
  unserialize 1 (newUnserializer "R-1")
  = Err InvalidStringReference (setPos 3 (newUnserializer "R-1")).
Proof.
  split.
  - apply (C4_reference_out_of_range 0 (newUnserializer "r0") 0
             (setPos 2 (newUnserializer "r0")));
      [reflexivity | reflexivity | simpl; lia].
  - apply (C4_reference_out_of_range 0 (newUnserializer "R-1") (-1)
             (setPos 3 (newUnserializer "R-1")));
      [reflexivity | reflexivity | simpl; lia].
Defined.

(** ** Claim C5 *)


(** ** Claim C6 *)

(** C6 fails on [d1,5]: the reader goes from the cursor 1 to 4, over the
    comma at 2, which is none of plus, minus, dot, a digit, [e] or [E]. *)
Lemma C6_counterexample :
  readFloat (setPos 1 (newUnserializer "d1,5"))
  = Ok (parseFloat "1,5") (setPos 4 (newUnserializer "d1,5")) /\
  ~ consumedOnly specFloatChar
      (setPos 1 (newUnserializer "d1,5")) (setPos 4 (newUnserializer "d1,5")).
Proof.
  split; [reflexivity|]. intros H.
  specialize (H 2 44 ltac:(simpl; lia) eq_refl). discriminate H.
Qed.

(** C6, as the code has it: when [n] characters from plus, comma, minus,
    dot, the digits, [e] and [E] stand at the cursor, and what follows them,
    if anything, is neither one of these nor a slash, [readFloat] moves the
    cursor over these [n] characters and no further, and returns what the
    host's [parseFloat] makes of the string of these [n] characters; it
    changes nothing else. *)
Theorem C6_readFloat_run {host : Host}
    st n :
  0 <= n ->
  (forall i, 0 <= i < n ->
     exists c, charCodeAt (buf st) (pos st + i) = Some c /\
               listedFloatChar c = true) ->
  (forall c, charCodeAt (buf st) (pos st + n) = Some c ->
     listedFloatChar c = false /\ c <> 47) ->
  readFloat st
  = Ok (parseFloat (substr (buf st) (pos st) n)) (setPos (pos st + n) st) /\
  (forall i, 0 <= i < n ->
     charCodeAt (substr (buf st) (pos st) n) i
     = charCodeAt (buf st) (pos st + i)) /\
  charCodeAt (substr (buf st) (pos st) n) n = None.
Proof.
  intros Hn Hrun Hend. split.
  2:{ apply substr_chars; [done|]. intros Hpos.
      destruct (Hrun (n - 1) ltac:(lia)) as (c & Hc & _).
      destruct (Hrun 0 ltac:(lia)) as (c0 & Hc0 & _).
      apply charCodeAt_Some_lt in Hc, Hc0. lia. }
  unfold readFloat.
  assert (Hloop : readFloatLoop (S (String.length (buf st))) (buf st) (pos st)
                  = pos st + Z.of_nat (Z.to_nat n)).
  { apply readFloatLoop_run.
    - destruct (decide (n = 0)) as [->|Hn0]; [simpl; lia|].
      destruct (Hrun (n - 1) ltac:(lia)) as (c & Hc & _).
      destruct (Hrun 0 ltac:(lia)) as (c0 & Hc0 & _).
      apply charCodeAt_Some_lt in Hc, Hc0. lia.
    - intros i Hi. destruct (Hrun (Z.of_nat i) ltac:(lia)) as (c & Hc & Hl).
      exists c. split; [done|]. by apply listedFloatChar_floatChar.
    - rewrite Z2Nat.id by done. intros c Hc.
      destruct (Hend c Hc). by apply not_listedFloatChar. }
  rewrite Hloop, Z2Nat.id by done.
  by replace (pos st + n - pos st) with n by lia.
Qed.

Lemma C6_readFloat_run_witness :
  readFloat (setPos 1 (newUnserializer "d-1.5e+3h"))
  = Ok (parseFloat "-1.5e+3") (setPos 8 (newUnserializer "d-1.5e+3h")).
Proof.
  apply (C6_readFloat_run (setPos 1 (newUnserializer "d-1.5e+3h")) 7).
  - lia.
  - intros i Hi.
    assert (Hcases : i = 0 \/ i = 1 \/ i = 2 \/ i = 3 \/ i = 4 \/ i = 5
                     \/ i = 6) by lia.
    destruct Hcases as [->|[->|[->|[->|[->|[->| ->]]]]]];
      eexists; split; reflexivity.
  - intros c Hc. vm_compute in Hc. injection Hc as <-.
    split; [reflexivity|discriminate].
Defined.

(** ** Claim C7 *)

(** C7 fails on [au4294967296h]: the directive writes at 4294967295, which
    is no array index, and the length of the array stays 0. *)
Lemma C7_counterexample :
  unserialize 3 (newUnserializer "au4294967296h")
  = Ok (VRef 0%nat)
       {| buf := "au4294967296h"; pos := 13; cache := [VRef 0%nat];
          scache := [];
          heap := [OArray 0 {[ 4294967295 := VNull ]}] |} /\
  arrayLength [OArray 0 {[ 4294967295 := VNull ]}] (VRef 0%nat)
  <> arrayLength [OArray 0 ∅] (VRef 0%nat) + 4294967296.
Proof. split; [reflexivity|discriminate]. Qed.

(** C7, as the code has it: in the body of an array of length [len], the
    directive [u] followed by the digits of [n], with [n] at least 1 and
    [len + n] within the largest length of an array, leaves an array of
    length [len + n] whose last slot holds null, whose slots from [len] up to
    the last are absent, and whose slots below [len] are as they were; the
    loop goes on from there. *)
Theorem C7_sparse_fill rec fuel a st n st1 len elems :
  charCodeAt (buf st) (pos st) = Some 117 ->
  readDigits (setPos (pos st + 1) st) = Ok n st1 ->
  wf st ->
  heap st !! a = Some (OArray len elems) ->
  1 <= n ->
  len + n <= MAX_LENGTH ->
  exists st2 elems',
    arrayLoop rec (S fuel) (VRef a) st = arrayLoop rec fuel (VRef a) st2 /\
    heap st2 !! a = Some (OArray (len + n) elems') /\
    elems' !! (len + n - 1) = Some VNull /\
    (forall i, len <= i < len + n - 1 -> elems' !! i = None) /\
    (forall i, i < len -> elems' !! i = elems !! i).
Proof.
  intros Hc Hn [_ Hwf] Ha Hn1 Hmax.
  destruct (readDigits_store _ _ _ Hn) as (_ & _ & _ & Hh). simpl in Hh.
  assert (Ho : wfObj (OArray len elems)).
  { eapply Forall_lookup_1; [exact Hwf|exact Ha]. }
  destruct Ho as [Hlen Hel].
  exists (setHeap (alter (arraySet (len + n - 1) VNull) a (heap st1)) st1),
         (<[len + n - 1 := VNull]> elems).
  assert (Hidx : isArrayIndex (len + n - 1) = true).
  { unfold isArrayIndex, MAX_LENGTH in *. lia. }
  split; [|split; [|split; [|split]]].
  - simpl. unfold bind at 1, peek at 1. rewrite Hc. simpl.
    unfold bind at 1, skip at 1. unfold bind at 1. rewrite Hn.
    unfold bind at 1, getHeap at 1. unfold bind at 1, update at 1.
    unfold arrayLength. by rewrite Hh, Ha.
  - cbn [heap setHeap]. rewrite Hh, list_lookup_alter_eq, Ha. simpl.
    rewrite Hidx. do 2 f_equal. lia.
  - apply lookup_insert_eq.
  - intros i Hi. rewrite lookup_insert_ne by lia. apply Hel; [|lia].
    unfold isArrayIndex, MAX_LENGTH in *. lia.
  - intros i Hi. by rewrite lookup_insert_ne by lia.
Qed.

Lemma C7_sparse_fill_witness :
  exists st2 elems',
    arrayLoop (unserialize 0) 2 (VRef 0%nat)
      {| buf := "ai7u3h"; pos := 3; cache := [VRef 0%nat]; scache := [];
         heap := [OArray 1 {[ 0 := VNum (NInt 7) ]}] |}
    = arrayLoop (unserialize 0) 1 (VRef 0%nat) st2 /\
    heap st2 !! 0%nat = Some (OArray (1 + 3) elems') /\
    elems' !! (1 + 3 - 1) = Some VNull /\
    (forall i, 1 <= i < 1 + 3 - 1 -> elems' !! i = None) /\
    (forall i, i < 1 ->
       elems' !! i = ({[ 0 := VNum (NInt 7) ]} : gmap Z Value) !! i).
Proof.
  apply (C7_sparse_fill (unserialize 0) 1 0
           {| buf := "ai7u3h"; pos := 3; cache := [VRef 0%nat]; scache := [];
              heap := [OArray 1 {[ 0 := VNum (NInt 7) ]}] |}
           3
           {| buf := "ai7u3h"; pos := 5; cache := [VRef 0%nat]; scache := [];
              heap := [OArray 1 {[ 0 := VNum (NInt 7) ]}] |});
    try reflexivity; try (unfold MAX_LENGTH; lia).
  split; [reflexivity|]. constructor; [|constructor].
  split; [unfold MAX_LENGTH; lia|].
  intros i _ Hi. apply lookup_singleton_ne. lia.
Defined.

(** ** Claim C8 *)

(** C8: a string literal, tag [y], that decodes appends its text, and
    nothing else, to the string cache, whatever the cache holds already and
    wherever the literal stands; a string reference, tag [R], that decodes
    leaves the string cache as it is; the first entry of the string cache
    stays the first entry through every call of [unserialize], however the
    call ends, and [R0] returns it. *)
Theorem C8_string_cache {host : Host} {resolver : TypeResolver}
    fuel st :
  (charCodeAt (buf st) (pos st) = Some 121 ->
   forall v st', unserialize (S fuel) st = Ok v st' ->
   exists s, v = VStr s /\ scache st' = scache st ++ [s]) /\
  (charCodeAt (buf st) (pos st) = Some 82 ->
   forall v st', unserialize (S fuel) st = Ok v st' ->
   scache st' = scache st) /\
  (forall s0, scache st !! 0%nat = Some s0 ->
   (forall st', (exists v, unserialize fuel st = Ok v st') \/
                (exists e, unserialize fuel st = Err e st') ->
                scache st' !! 0%nat = Some s0) /\
   (charCodeAt (buf st) (pos st) = Some 82 ->
    forall st1, readDigits (setPos (pos st + 1) st) = Ok 0 st1 ->
    unserialize (S fuel) st = Ok (VStr s0) st1)).
Proof.
  split; [|split].
  - intros Htag v st'.
    rewrite (unserialize_tag fuel st 121 TString Htag eq_refl). simpl.
    unfold bind at 1.
    destruct (readDigits _) as [len st1|e st1|] eqn:Hlen; [|done|done].
    assert (Hs1 : scache st1 = scache st).
    { unfold readDigits in Hlen.
      destruct (readDigitsLoop _ _ _ _ _ _) as [[k s] p]. by inversion Hlen. }
    unfold bind at 1, next at 1. unfold bind at 1, remaining at 1.
    destruct (orb _ _); [done|].
    unfold bind at 1, substrAt at 1. unfold bind at 1, advance at 1.
    destruct (decodeURIComponent _) as [s'|]; [|done].
    unfold bind, pushSCache, ret. intros [= <- <-]. simpl.
    exists s'. by rewrite Hs1.
  - intros Htag v st'.
    rewrite (unserialize_tag fuel st 82 TStrRef Htag eq_refl). simpl.
    unfold bind.
    destruct (readDigits _) as [n st1|e st1|] eqn:Hn; [|done|done].
    assert (Hs1 : scache st1 = scache st).
    { unfold readDigits in Hn.
      destruct (readDigitsLoop _ _ _ _ _ _) as [[k s] p]. by inversion Hn. }
    unfold scacheAt. destruct (orb _ _); [done|].
    destruct (scache st1 !! _); [|done]. by intros [= _ <-].
  - intros s0 Hs0. split.
    + intros st' Hrun. pose proof (steady_unserialize fuel st) as Hg.
      unfold post in Hg.
      assert (Hgr : grows st st').
      { destruct Hrun as [[v Hv]|[e He]]; [by rewrite Hv in Hg|].
        by rewrite He in Hg. }
      destruct (grows_scache _ _ Hgr) as [ext ->].
      by apply lookup_app_l_Some.
    + intros Htag st1 Hn.
      rewrite (unserialize_tag fuel st 82 TStrRef Htag eq_refl). simpl.
      unfold bind. rewrite Hn.
      assert (Hs1 : scache st1 = scache st).
      { unfold readDigits in Hn.
        destruct (readDigitsLoop _ _ _ _ _ _) as [[k s] p]. by inversion Hn. }
      unfold scacheAt. rewrite Hs1. simpl.
      destruct (scache st) as [|s rest]; [done|]. simpl in *.
      by inversion Hs0.
Qed.

Lemma C8_string_cache_witness :
  (exists s, VStr "a" = VStr s /\ ["a"; "a"] = ["a"] ++ [s]) /\
  unserialize 1
    {| buf := "R0"; pos := 0; cache := []; scache := ["x"; "y"]; heap := [] |}
  = Ok (VStr "x")
       {| buf := "R0"; pos := 2; cache := []; scache := ["x"; "y"];
          heap := [] |} /\
  scache
    {| buf := "R0"; pos := 2; cache := []; scache := ["x"; "y"]; heap := [] |}
  = ["x"; "y"].
Proof.
  split; [|split].
  - destruct (C8_string_cache 0
                {| buf := "y1:ay1:a"; pos := 4; cache := []; scache := ["a"];
                   heap := [] |}) as (Hy & _ & _).
    apply (Hy eq_refl (VStr "a")
             {| buf := "y1:ay1:a"; pos := 8; cache := [];
                scache := ["a"; "a"]; heap := [] |}).
    reflexivity.
  - destruct (C8_string_cache 0
                {| buf := "R0"; pos := 0; cache := []; scache := ["x"; "y"];
                   heap := [] |}) as (_ & _ & H0).
    destruct (H0 "x" eq_refl) as [_ HR]. by apply HR.
  - destruct (C8_string_cache 0
                {| buf := "R0"; pos := 0; cache := []; scache := ["x"; "y"];
                   heap := [] |}) as (_ & HR & _).
    apply (HR eq_refl (VStr "x")). reflexivity.
Defined.

(** ** Claim C9 *)

(** C9: once [unserializeEnum] has constructed the instance, tags [w] and
    [j] push it, move the cursor one place further and return it.  The
    character under the cursor at that point is not read: whatever it is,
    and also when there is none, the instance is returned. *)
Theorem C9_enum_trailing_byte {host : Host} {resolver : TypeResolver}
    fuel st ename st1 edecl :
  unserialize fuel (setPos (pos st + 1) st) = Ok ename st1 ->
  resolveEnum ename = Some edecl ->
  (charCodeAt (buf st) (pos st) = Some 119 ->
   forall tag st2 e st3,
     unserialize fuel st1 = Ok tag st2 ->
     unserializeEnum (unserialize fuel) edecl tag st2 = Ok e st3 ->
     unserialize (S fuel) st = Ok e (enumPushed e st3)) /\
  (charCodeAt (buf st) (pos st) = Some 106 ->
   forall index st2 e st3,
     readDigits (setPos (pos st1 + 1) st1) = Ok index st2 ->
     unserializeEnum (unserialize fuel) edecl (VNum (NInt index)) st2
     = Ok e st3 ->
     unserialize (S fuel) st = Ok e (enumPushed e st3)).
Proof.
  intros Hname Hres. split; intros Htag x st2 e st3 Hx He.
  - rewrite (unserialize_tag fuel st 119 TEnumName Htag eq_refl). simpl.
    unfold bind at 1. rewrite Hname, Hres.
    unfold bind at 1. rewrite Hx.
    unfold bind at 1. rewrite He. reflexivity.
  - rewrite (unserialize_tag fuel st 106 TEnumIndex Htag eq_refl). simpl.
    unfold bind at 1. rewrite Hname, Hres.
    unfold bind at 1. unfold skip at 1.
    unfold bind at 1. rewrite Hx.
    unfold bind at 1. rewrite He. reflexivity.
Qed.

Lemma C9_enum_trailing_byte_witness :
  unserialize 2 (newUnserializer "wy5:Colory3:Red:0!")
  = Ok (VRef 0%nat)
       (enumPushed (VRef 0%nat)
          {| buf := "wy5:Colory3:Red:0!"; pos := 17; cache := [];
             scache := ["Color"; "Red"]; heap := [OEnum Color 0 []] |}) /\
  unserialize 2 (newUnserializer "jy5:Color:1:1n")
  = Ok (VRef 0%nat)
       (enumPushed (VRef 0%nat)
          {| buf := "jy5:Color:1:1n"; pos := 14; cache := [];
             scache := ["Color"]; heap := [OEnum Color 1 [VNull]] |}).
Proof.
  split.
  - destruct (C9_enum_trailing_byte 1 (newUnserializer "wy5:Colory3:Red:0!")
                (VStr "Color")
                {| buf := "wy5:Colory3:Red:0!"; pos := 9; cache := [];
                   scache := ["Color"]; heap := [] |} Color)
      as [Hw _]; [reflexivity | reflexivity |].
    eapply Hw; reflexivity.
  - destruct (C9_enum_trailing_byte 1 (newUnserializer "jy5:Color:1:1n")
                (VStr "Color")
                {| buf := "jy5:Color:1:1n"; pos := 9; cache := [];
                   scache := ["Color"]; heap := [] |} Color)
      as [_ Hj]; [reflexivity | reflexivity |].
    eapply Hj; reflexivity.
Defined.

(** ** Claim C10 *)




(** * Further properties of the decoder *)

(** ** Strings and the input at the cursor *)

Lemma string_app_nil (s : string) : "" +:+ s = s.
Proof. reflexivity. Qed.

Lemma string_app_cons c (a b : string) : String c a +:+ b = String c (a +:+ b).
Proof. reflexivity. Qed.

Lemma string_length_app (a b : string) :
  String.length (a +:+ b) = (String.length a + String.length b)%nat.
Proof.
  induction a as [|c a IH]; [done|].
  rewrite string_app_cons. simpl. by f_equal.
Qed.

Lemma string_app_assoc (a b c : string) : (a +:+ b) +:+ c = a +:+ (b +:+ c).
Proof.
  induction a as [|x a IH]; [done|].
  rewrite !string_app_cons. by f_equal.
Qed.

Lemma charCodeAt_app_r (pre s : string) i :
  0 <= i ->
  charCodeAt (pre +:+ s) (Z.of_nat (String.length pre) + i) = charCodeAt s i.
Proof.
  intros Hi. induction pre as [|c pre IH]; simpl String.length.
  - rewrite string_app_nil. f_equal.
  - replace (Z.of_nat (S (String.length pre)) + i)
      with ((Z.of_nat (String.length pre) + i) + 1) by lia.
    rewrite string_app_cons, charCodeAt_tail by lia. exact IH.
Qed.

Lemma charCodeAt_app_l (s t : string) i :
  0 <= i < Z.of_nat (String.length s) ->
  charCodeAt (s +:+ t) i = charCodeAt s i.
Proof.
  revert i. induction s as [|c s IH]; simpl String.length; intros i Hi; [lia|].
  destruct (decide (i = 0)) as [->|Hne].
  - by rewrite string_app_cons, !charCodeAt_head.
  - replace i with ((i - 1) + 1) by lia.
    rewrite string_app_cons, !charCodeAt_tail by lia. apply IH. lia.
Qed.

Lemma reads_charCodeAt st s i :
  reads st s -> 0 <= i -> charCodeAt (buf st) (pos st + i) = charCodeAt s i.
Proof. intros (pre & -> & ->) Hi. by apply charCodeAt_app_r. Qed.

Lemma reads_head st c r :
  reads st (String c r) -> charCodeAt (buf st) (pos st) = Some (code c).
Proof.
  intros H. replace (pos st) with (pos st + 0) by lia.
  rewrite (reads_charCodeAt _ _ 0 H) by lia. apply charCodeAt_head.
Qed.

Lemma reads_end st : reads st "" -> charCodeAt (buf st) (pos st) = None.
Proof.
  intros H. replace (pos st) with (pos st + 0) by lia.
  by rewrite (reads_charCodeAt _ _ 0 H).
Qed.

(** Past the string [a] that stands at the cursor. *)
Lemma reads_past st st' a s :
  reads st (a +:+ s) ->
  buf st' = buf st ->
  pos st' = pos st + Z.of_nat (String.length a) ->
  reads st' s.
Proof.
  intros (pre & Hb & Hp) Hb' Hp'. exists (pre +:+ a).
  rewrite Hb', Hb, Hp', Hp, string_app_assoc, string_length_app.
  split; [done|lia].
Qed.

Lemma reads_within st s : reads st s ->
  0 <= pos st /\ pos st + Z.of_nat (String.length s) = buflen st.
Proof.
  intros (pre & Hb & Hp). unfold buflen. rewrite Hb, string_length_app. lia.
Qed.

Lemma substring_app (pre s rest : string) :
  String.substring (String.length pre) (String.length s) (pre +:+ s +:+ rest)
  = s.
Proof.
  induction pre as [|c pre IH]; [|rewrite string_app_cons; exact IH].
  rewrite string_app_nil. simpl String.length.
  induction s as [|c s IH].
  - rewrite string_app_nil. by destruct rest.
  - rewrite string_app_cons. simpl. by rewrite IH.
Qed.

Lemma reads_substr st s rest :
  reads st (s +:+ rest) ->
  substr (buf st) (pos st) (Z.of_nat (String.length s)) = s.
Proof.
  intros (pre & Hb & Hp). unfold substr. rewrite Hb, Hp.
  rewrite !string_length_app.
  replace (Z.of_nat (String.length pre) <? 0) with false by lia.
  replace (Z.to_nat (Z.of_nat (String.length pre) `min` _))
    with (String.length pre) by lia.
  replace (Z.to_nat _) with (String.length s) by lia.
  apply substring_app.
Qed.

(** ** Digits *)

Lemma isDigit_code c : isDigit c = true -> 48 <= code c <= 57.
Proof. unfold isDigit. lia. Qed.

(** The loop of [readDigits] over the digits [ds] that stand at [p]. *)
Lemma readDigitsLoop_run b fpos ds : forall fuel k s p,
  allDigits ds = true ->
  (String.length ds < fuel)%nat ->
  (forall i, 0 <= i < Z.of_nat (String.length ds) ->
     charCodeAt b (p + i) = charCodeAt ds i) ->
  (forall c, charCodeAt b (p + Z.of_nat (String.length ds)) = Some c ->
     digitCode c = false /\
     (c = 45 -> p + Z.of_nat (String.length ds) <> fpos)) ->
  readDigitsLoop fuel b fpos k s p
  = (digitsValue ds k, s, p + Z.of_nat (String.length ds)).
Proof.
  induction ds as [|d ds IH]; intros fuel k s p Hds Hfuel Hrun Hend;
    (destruct fuel as [|fuel]; [simpl in Hfuel; lia|]); simpl.
  - change (Z.of_nat 0) with 0 in *. rewrite Z.add_0_r in *.
    destruct (charCodeAt b p) as [c|] eqn:Hc; [|done].
    destruct (Hend c eq_refl) as [Hd H45]. unfold digitCode in Hd.
    destruct (c =? 45) eqn:E.
    + replace (negb (p =? fpos)) with true; [done|].
      symmetry. apply negb_true_iff, Z.eqb_neq, H45. lia.
    + replace ((c <? 48) || (c >? 57)) with true by lia. done.
  - simpl in Hds. apply andb_true_iff in Hds as [Hd Hds].
    apply isDigit_code in Hd.
    pose proof (Hrun 0 ltac:(simpl; lia)) as H0.
    replace (p + 0) with p in H0 by lia. rewrite charCodeAt_head in H0.
    rewrite H0.
    replace (code d =? 45) with false by lia.
    replace ((code d <? 48) || (code d >? 57)) with false by lia.
    rewrite (IH fuel _ s (p + 1) Hds).
    + f_equal. simpl String.length. lia.
    + simpl in Hfuel. lia.
    + intros i Hi. replace (p + 1 + i) with (p + (i + 1)) by lia.
      rewrite Hrun by (simpl String.length; lia).
      by rewrite charCodeAt_tail by lia.
    + intros c Hc. simpl String.length in Hend.
      replace (p + 1 + Z.of_nat (String.length ds))
        with (p + Z.of_nat (S (String.length ds))) in * by lia.
      by apply Hend.
Qed.

Lemma headIs_charCodeAt P s c :
  charCodeAt s 0 = Some c -> headIs P s = P c.
Proof.
  destruct s as [|a r]; [done|]. rewrite charCodeAt_head. by intros [= <-].
Qed.

(** [readDigits] on a sign, digits, and what follows them. *)
Lemma readDigits_run st (neg : bool) ds rest :
  reads st ((if neg then "-" else "") +:+ ds +:+ rest) ->
  allDigits ds = true ->
  headIs digitCode rest = false ->
  (neg = false -> ds = "" -> headIs minusCode rest = false) ->
  readDigits st
  = Ok ((if neg then -1 else 1) * digitsValue ds 0)
       (setPos (pos st + (if neg then 1 else 0)
                + Z.of_nat (String.length ds)) st).
Proof.
  intros Hr Hds Hrest Hminus.
  pose proof (reads_within _ _ Hr) as [Hp0 Hlen].
  rewrite !string_length_app in Hlen. unfold buflen in Hlen.
  set (p1 := pos st + (if neg then 1 else 0)).
  assert (Hr1 : forall i, 0 <= i ->
            charCodeAt (buf st) (p1 + i) = charCodeAt (ds +:+ rest) i).
  { intros i Hi. unfold p1. destruct neg.
    - replace (pos st + 1 + i) with (pos st + (i + 1)) by lia.
      rewrite (reads_charCodeAt _ _ _ Hr) by lia.
      by rewrite string_app_cons, string_app_nil, charCodeAt_tail by lia.
    - replace (pos st + 0 + i) with (pos st + i) by lia.
      by rewrite (reads_charCodeAt _ _ _ Hr) by lia. }
  assert (Hloop : forall fuel k s,
            (String.length ds < fuel)%nat ->
            readDigitsLoop fuel (buf st) (pos st) k s p1
            = (digitsValue ds k, s, p1 + Z.of_nat (String.length ds))).
  { intros fuel k s Hfuel. apply readDigitsLoop_run; [done|done| |].
    - intros i Hi. rewrite Hr1 by lia. by apply charCodeAt_app_l.
    - intros c Hc. rewrite Hr1 in Hc by lia.
      replace (Z.of_nat (String.length ds))
        with (Z.of_nat (String.length ds) + 0) in Hc by lia.
      rewrite charCodeAt_app_r in Hc by lia.
      split.
      + by rewrite <- (headIs_charCodeAt digitCode rest c Hc).
      + intros ->. unfold p1. destruct neg; [lia|].
        destruct ds as [|d ds]; [|simpl String.length; lia].
        specialize (Hminus eq_refl eq_refl).
        rewrite (headIs_charCodeAt _ rest 45 Hc) in Hminus. done. }
  assert (H45 : neg = true -> charCodeAt (buf st) (pos st) = Some 45).
  { intros ->. rewrite string_app_cons in Hr. exact (reads_head _ _ _ Hr). }
  unfold readDigits. destruct neg.
  - simpl readDigitsLoop. rewrite (H45 eq_refl).
    change (45 =? 45) with true. cbv iota.
    rewrite Z.eqb_refl. cbn [negb].
    change (pos st + 1) with p1.
    rewrite Hloop by (simpl String.length in Hlen; lia).
    f_equal. lia.
  - assert (E : p1 = pos st) by (unfold p1; lia).
    clearbody p1. subst p1.
    rewrite Hloop by lia. f_equal. lia.
Qed.

(** The digits of [pretty] and their value. *)
Lemma pretty_N_char_code m :
  (m < 10)%N -> code (pretty_N_char m) = 48 + Z.of_N m.
Proof.
  intros Hm.
  assert (m = 0 \/ m = 1 \/ m = 2 \/ m = 3 \/ m = 4 \/ m = 5 \/ m = 6
          \/ m = 7 \/ m = 8 \/ m = 9)%N as H by lia.
  destruct H as [->|[->|[->|[->|[->|[->|[->|[->|[->| ->]]]]]]]]]; reflexivity.
Qed.

Lemma pretty_N_go_app x : forall s,
  pretty_N_go x s = pretty_N_go x "" +:+ s.
Proof.
  induction (N.lt_wf_0 x) as [x _ IH]; intros s.
  destruct (decide (x = 0)%N) as [->|Hx]; [by rewrite !pretty_N_go_0|].
  rewrite !(pretty_N_go_step x) by lia.
  rewrite (IH (x `div` 10)%N) by (apply N.div_lt; lia).
  rewrite (IH (x `div` 10)%N ltac:(apply N.div_lt; lia) (String _ "")).
  by rewrite string_app_assoc.
Qed.

Lemma allDigits_app a b :
  allDigits (a +:+ b) = allDigits a && allDigits b.
Proof.
  induction a as [|c a IH]; [done|].
  rewrite string_app_cons. simpl. rewrite IH. by rewrite andb_assoc.
Qed.

Lemma digitsValue_app a b k :
  digitsValue (a +:+ b) k = digitsValue b (digitsValue a k).
Proof.
  revert k. induction a as [|c a IH]; intros k; [done|].
  rewrite string_app_cons. simpl. by rewrite IH.
Qed.

Lemma pretty_N_go_digits x :
  allDigits (pretty_N_go x "") = true /\
  digitsValue (pretty_N_go x "") 0 = Z.of_N x.
Proof.
  induction (N.lt_wf_0 x) as [x _ IH].
  destruct (decide (x = 0)%N) as [->|Hx]; [by rewrite pretty_N_go_0|].
  rewrite (pretty_N_go_step x) by lia. rewrite pretty_N_go_app.
  destruct (IH (x `div` 10)%N ltac:(apply N.div_lt; lia)) as [Hd Hv].
  pose proof (pretty_N_char_code (x `mod` 10)%N
                ltac:(apply N.mod_lt; lia)) as Hc.
  rewrite allDigits_app, digitsValue_app, Hd, Hv. simpl.
  unfold isDigit. rewrite Hc.
  pose proof (N.mod_lt x 10 ltac:(lia)).
  pose proof (N.div_mod x 10 ltac:(lia)).
  generalize dependent (x `mod` 10)%N. generalize dependent (x `div` 10)%N.
  intros q _ _ r _ Hr Hx'. split; lia.
Qed.

Lemma pretty_N_digits (x : N) :
  allDigits (pretty x) = true /\ digitsValue (pretty x) 0 = Z.of_N x.
Proof.
  unfold pretty, pretty_N. destruct (decide (x = 0)%N) as [->|Hx]; [done|].
  apply pretty_N_go_digits.
Qed.

(** [pretty z] is a minus sign, or none, and the digits of [|z|]. *)
Lemma pretty_Z_digits (z : Z) :
  exists ds,
    pretty z = (if z <? 0 then "-" else "") +:+ ds /\
    allDigits ds = true /\ digitsValue ds 0 = Z.abs z.
Proof.
  destruct z as [|p|p].
  - by exists "0".
  - exists (pretty (Npos p)). split; [done|].
    destruct (pretty_N_digits (Npos p)) as [Hd Hv]. split; [done|].
    by rewrite Hv.
  - exists (pretty (Npos p)). split; [done|].
    destruct (pretty_N_digits (Npos p)) as [Hd Hv]. split; [done|].
    by rewrite Hv.
Qed.

(** The length that stands after a tag [y] or [s]: digits of a number that
    is not negative. *)
Lemma readDigits_length st (n : Z) rest :
  0 <= n ->
  reads st (pretty n +:+ rest) ->
  headIs digitCode rest = false ->
  readDigits st
  = Ok n (setPos (pos st + Z.of_nat (String.length (pretty n))) st).
Proof.
  intros Hn Hr Hrest.
  destruct (pretty_Z_digits n) as (ds & Hz & Hds & Hv).
  replace (n <? 0) with false in Hz by lia. rewrite string_app_nil in Hz.
  rewrite Hz in *.
  rewrite (readDigits_run st false ds rest); [| done..| ].
  - f_equal; [lia|]. f_equal. lia.
  - intros _ ->. by destruct n.
Qed.

Lemma noPercent_plain {host : Host} s :
  noPercent s = true -> decodeURIComponent s = Some s.
Proof. apply decodeURIComponent_plain. Qed.

(** ** The first character of a value *)

Lemma setPos_back st : setPos (pos st + 1 + -1) (setPos (pos st + 1) st) = st.
Proof. destruct st as [b p c sc h]. unfold setPos. simpl. f_equal. lia. Qed.

(** A character that no [case] takes. *)
Lemma unserialize_no_tag {host : Host} {resolver : TypeResolver} fuel st :
  tagOf (charCodeAt (buf st) (pos st)) = None ->
  unserialize (S fuel) st
  = Err (InvalidChar (charCodeAt (buf st) (pos st)) (pos st)) st.
Proof.
  intros Ht. simpl. unfold bind, next. rewrite Ht.
  unfold advance, peek, getPos, throw. cbv beta.
  change (pos (setPos (pos st + 1) st)) with (pos st + 1).
  rewrite setPos_back. reflexivity.
Qed.

Lemma unserialize_at_end {host : Host} {resolver : TypeResolver} fuel st :
  buflen st <= pos st ->
  unserialize (S fuel) st = Err (InvalidChar None (pos st)) st.
Proof.
  intros Hend. rewrite <- (charCodeAt_None_ge (buf st) (pos st) Hend).
  apply unserialize_no_tag.
  by rewrite (charCodeAt_None_ge (buf st) (pos st) Hend).
Qed.

(** What [unserialize] returns from, it began at a tag. *)
Lemma unserialize_Ok_tag {host : Host} {resolver : TypeResolver}
    fuel st v st' :
  unserialize fuel st = Ok v st' ->
  exists c t, charCodeAt (buf st) (pos st) = Some c /\
              tagOf (Some c) = Some t.
Proof.
  destruct fuel as [|fuel]; [done|]. simpl. unfold bind at 1, next at 1.
  destruct (charCodeAt (buf st) (pos st)) as [c|]; [|done].
  destruct (tagOf (Some c)) as [t|] eqn:Ht; [|done].
  intros _. by exists c, t.
Qed.

Lemma unserialize_not_u {host : Host} {resolver : TypeResolver}
    fuel st v st' :
  unserialize fuel st = Ok v st' ->
  codeIs (charCodeAt (buf st) (pos st)) 117 = false.
Proof.
  destruct fuel as [|fuel]; [done|]. simpl. unfold bind at 1, next at 1.
  destruct (charCodeAt (buf st) (pos st)) as [c|]; [|done].
  destruct (decide (c = 117)) as [->|Hne]; [done|].
  intros _. simpl. lia.
Qed.

(** The tag [i] and the decimal writing of an integer. *)
Lemma unserialize_integer {host : Host} {resolver : TypeResolver}
    fuel st (z : Z) rest :
  reads st ("i" +:+ pretty z +:+ rest) ->
  headIs digitCode rest = false ->
  unserialize (S fuel) st
  = Ok (VNum (NInt z))
       (setPos (pos st + 1 + Z.of_nat (String.length (pretty z))) st).
Proof.
  intros Hr Hrest.
  destruct (pretty_Z_digits z) as (ds & Hz & Hds & Hv).
  rewrite string_app_cons, string_app_nil in Hr.
  rewrite (unserialize_tag fuel st 105 TInt (reads_head _ _ _ Hr) eq_refl).
  assert (Hr1 : reads (setPos (pos st + 1) st)
                  ((if z <? 0 then "-" else "") +:+ ds +:+ rest)).
  { rewrite <- string_app_assoc, <- Hz.
    apply (reads_past st _ "i" _); [|done|done].
    by rewrite string_app_cons, string_app_nil. }
  simpl. unfold bind.
  rewrite (readDigits_run _ (z <? 0) ds rest Hr1 Hds Hrest).
  2:{ intros Hz0 ->. destruct z as [|p|p]; [done| |done]. simpl in Hv. lia. }
  unfold ret. rewrite Hz, string_length_app. f_equal.
  - do 2 f_equal. destruct (z <? 0) eqn:E; lia.
  - destruct st as [b p c sc h]. unfold setPos. simpl. f_equal.
    destruct (z <? 0); simpl String.length; lia.
Qed.

(** ** Objects that a run leaves alone *)

Lemma framed_bind {A B} n (m : M A) (k : A -> M B) :
  framed n m -> (forall a, framed n (k a)) -> framed n (bind m k).
Proof.
  intros Hm Hk st Hn. specialize (Hm st Hn). unfold bind.
  destruct (m st) as [a st1|e st1|]; [|done|done].
  destruct Hm as [Ht Hl]. specialize (Hk a st1 Hl).
  destruct (k a st1) as [b st2|e st2|]; [| |done];
    (destruct Hk as [Ht' Hl']; split; [congruence|done]).
Qed.

(** A step that leaves the store as it is. *)
Lemma framed_same {A} n (m : M A) :
  (forall st, match m st with
              | Ok _ st' | Err _ st' => heap st' = heap st
              | OutOfFuel => False
              end) ->
  framed n m.
Proof.
  intros H st Hn. specialize (H st).
  destruct (m st) as [a st1|e st1|]; [| |done]; by rewrite H.
Qed.

Lemma framed_ret {A} n (a : A) : framed n (ret a).
Proof. by apply framed_same. Qed.

Lemma framed_throw {A} n e : framed n (@throw A e).
Proof. by apply framed_same. Qed.

Lemma framed_peek n : framed n peek.
Proof. by apply framed_same. Qed.

Lemma framed_next n : framed n next.
Proof. by apply framed_same. Qed.

Lemma framed_skip n : framed n skip.
Proof. by apply framed_same. Qed.

Lemma framed_advance n k : framed n (advance k).
Proof. by apply framed_same. Qed.

Lemma framed_atEnd n : framed n atEnd.
Proof. by apply framed_same. Qed.

Lemma framed_remaining n : framed n remaining.
Proof. by apply framed_same. Qed.

Lemma framed_substrAt n k : framed n (substrAt k).
Proof. by apply framed_same. Qed.

Lemma framed_getPos n : framed n getPos.
Proof. by apply framed_same. Qed.

Lemma framed_getHeap n : framed n getHeap.
Proof. by apply framed_same. Qed.

Lemma framed_pushCache n v : framed n (pushCache v).
Proof. by apply framed_same. Qed.

Lemma framed_pushSCache n s : framed n (pushSCache s).
Proof. by apply framed_same. Qed.

Lemma framed_readDigits n : framed n readDigits.
Proof.
  apply framed_same. intros st. unfold readDigits.
  by destruct (readDigitsLoop _ _ _ _ _ _) as [[k s] p].
Qed.

Lemma framed_readFloat {host : Host} n : framed n readFloat.
Proof. by apply framed_same. Qed.

Lemma framed_cacheAt n k : framed n (cacheAt k).
Proof.
  apply framed_same. intros st. unfold cacheAt.
  destruct (orb _ _); [done|]. by destruct (cache st !! _).
Qed.

Lemma framed_scacheAt n k : framed n (scacheAt k).
Proof.
  apply framed_same. intros st. unfold scacheAt.
  destruct (orb _ _); [done|]. by destruct (scache st !! _).
Qed.

Lemma framed_update n v f : above n v -> framed n (update v f).
Proof.
  intros Hv st Hn. unfold update. destruct v as [| | | |a]; try done.
  simpl in *. rewrite length_alter. split; [|done].
  by apply take_alter_ge.
Qed.

Lemma framed_arrayPush n a v : above n a -> framed n (arrayPush a v).
Proof.
  intros Ha st Hn. unfold arrayPush.
  destruct (_ <? _).
  - by apply framed_update.
  - apply (framed_bind n (update a _) (fun _ => throw _)); [|intros _|done].
    + by apply framed_update.
    + apply framed_throw.
Qed.

Lemma framed_weakMapSetM n wm k v : above n wm -> framed n (weakMapSetM wm k v).
Proof.
  intros Hwm. destruct k; simpl; try apply framed_throw.
  by apply framed_update.
Qed.

Lemma framed_setProperty {host : Host} n o k v :
  above n o -> framed n (setProperty o k v).
Proof.
  intros Ho. unfold setProperty. apply framed_bind; [apply framed_getHeap|].
  intros h. by apply framed_update.
Qed.

(** The object that [alloc] makes is above every object there is. *)
Lemma framed_alloc {A} n o (k : Value -> M A) :
  (forall a, above n a -> framed n (k a)) ->
  framed n (a <- alloc o ;; k a).
Proof.
  intros Hk st Hn. unfold bind, alloc.
  specialize (Hk (VRef (length (heap st))) Hn
                 (setHeap (heap st ++ [o]) st)).
  simpl in Hk. rewrite length_app in Hk. specialize (Hk ltac:(lia)).
  rewrite take_app_le in Hk by done. exact Hk.
Qed.

Ltac framed_step :=
  first
    [ assumption
    | apply framed_alloc; intros ? ?
    | apply framed_bind; [| intros ?]
    | apply framed_ret | apply framed_throw | apply framed_peek
    | apply framed_next | apply framed_skip | apply framed_advance
    | apply framed_atEnd | apply framed_remaining | apply framed_substrAt
    | apply framed_getPos | apply framed_getHeap | apply framed_readDigits
    | apply framed_readFloat | apply framed_cacheAt | apply framed_scacheAt
    | apply framed_pushCache | apply framed_pushSCache
    | apply framed_arrayPush; assumption
    | apply framed_weakMapSetM; assumption
    | apply framed_setProperty; assumption
    | apply framed_update; assumption
    | match goal with
      | |- framed _ (if ?b then _ else _) => destruct b
      | |- framed _ (match ?x with _ => _ end) => destruct x
      end ].

Section Frames.

Context {host : Host} {resolver : TypeResolver}.

Variable rec : M Value.
Hypothesis Hrec : forall n, framed n rec.

Lemma framed_unserializeObject n o fuel :
  above n o -> framed n (unserializeObject rec fuel o).
Proof.
  intros Ho. induction fuel as [|f IH]; simpl; [by intros st|].
  repeat first [apply Hrec | framed_step].
Qed.

Lemma framed_arrayLoop n a fuel :
  above n a -> framed n (arrayLoop rec fuel a).
Proof.
  intros Ho. induction fuel as [|f IH]; simpl; [by intros st|].
  repeat first [apply Hrec | framed_step].
Qed.

Lemma framed_listLoop n a fuel :
  above n a -> framed n (listLoop rec fuel a).
Proof.
  intros Ho. induction fuel as [|f IH]; simpl; [by intros st|].
  repeat first [apply Hrec | framed_step].
Qed.

Lemma framed_stringMapLoop n a fuel :
  above n a -> framed n (stringMapLoop rec fuel a).
Proof.
  intros Ho. induction fuel as [|f IH]; simpl; [by intros st|].
  repeat first [apply Hrec | framed_step].
Qed.

Lemma framed_intMapLoop n a fuel :
  above n a -> framed n (intMapLoop rec fuel a).
Proof.
  intros Ho. induction fuel as [|f IH]; simpl; [by intros st|].
  repeat first [apply Hrec | framed_step].
Qed.

Lemma framed_objectMapLoop n a fuel :
  above n a -> framed n (objectMapLoop rec fuel a).
Proof.
  intros Ho. induction fuel as [|f IH]; simpl; [by intros st|].
  repeat first [apply Hrec | framed_step].
Qed.

Lemma framed_readArgs n k : framed n (readArgs rec k).
Proof.
  induction k as [|k IH]; simpl; repeat first [apply Hrec | framed_step].
Qed.

Lemma framed_alloc_last n o : framed n (alloc o).
Proof.
  intros st Hn. unfold alloc. simpl. rewrite length_app.
  split; [by apply take_app_le|lia].
Qed.

Lemma framed_unserializeEnum n edecl tag :
  framed n (unserializeEnum rec edecl tag).
Proof.
  unfold unserializeEnum.
  repeat first [apply framed_readArgs | apply framed_alloc_last | framed_step].
Qed.

Lemma framed_runHook n self p :
  above n self -> framed n (runHook rec self p).
Proof.
  intros Hs. induction p as [|e|k v p IH|k IHk h IHh]; simpl.
  - apply framed_ret.
  - apply framed_throw.
  - repeat framed_step.
  - intros st Hn. specialize (Hrec n st Hn).
    destruct (rec st) as [v st1|e st1|]; [| |done]; destruct Hrec as [Ht Hl].
    + specialize (IHk v st1 Hl).
      destruct (runHook _ _ _ _); [| |done];
        (destruct IHk as [Ht' Hl']; split; [congruence|done]).
    + specialize (IHh e st1 Hl).
      destruct (runHook _ _ _ _); [| |done];
        (destruct IHh as [Ht' Hl']; split; [congruence|done]).
Qed.

Lemma framed_unserializeTag n f t : framed n (unserializeTag rec f t).
Proof.
  destruct t; simpl;
    repeat first
      [ apply Hrec
      | apply framed_unserializeEnum
      | apply framed_unserializeObject; assumption
      | apply framed_arrayLoop; assumption
      | apply framed_listLoop; assumption
      | apply framed_stringMapLoop; assumption
      | apply framed_intMapLoop; assumption
      | apply framed_objectMapLoop; assumption
      | apply framed_runHook; assumption
      | framed_step ].
Qed.

End Frames.

Lemma framed_unserialize {host : Host} {resolver : TypeResolver} fuel :
  forall n, framed n (unserialize fuel).
Proof.
  induction fuel as [|f IH]; intros n; simpl; [by intros st|].
  apply framed_bind; [apply framed_next|]. intros c.
  destruct (tagOf c) as [t|].
  - by apply framed_unserializeTag.
  - repeat framed_step.
Qed.

Lemma framed_lookup {A} (m : M A) st a :
  framed (S a) m -> (a < length (heap st))%nat ->
  match m st with
  | Ok _ st' | Err _ st' => heap st' !! a = heap st !! a
  | OutOfFuel => True
  end.
Proof.
  intros Hm Ha.
  assert (Hle : (S a <= length (heap st))%nat) by lia.
  specialize (Hm st Hle).
  assert (E : forall h : list Obj, take (S a) h !! a = h !! a).
  { intros h. apply lookup_take_lt. lia. }
  destruct (m st) as [x st'|e st'|]; [| |done]; destruct Hm as [Ht _];
    by rewrite <- (E (heap st')), <- (E (heap st)), Ht.
Qed.

(** ** The shapes of the objects *)

Section Shapes.

Context {host : Host} {resolver : TypeResolver}.

#[local] Instance stable_refl : Reflexive stable.
Proof. intros st. by split. Qed.

#[local] Instance stable_trans : Transitive stable.
Proof. intros a b c [] []. split; [by etrans|auto]. Qed.

Lemma settled_bind {A B} (m : M A) (k : A -> M B) :
  settled m -> (forall a, settled (k a)) -> settled (bind m k).
Proof.
  intros Hm Hk st. specialize (Hm st). unfold post, bind in *.
  destruct (m st) as [a st1|e st1|]; auto.
  specialize (Hk a st1). unfold post in Hk.
  destruct (k a st1); auto; etrans; eauto.
Qed.

(** A step that leaves the store as it is. *)
Lemma settled_same {A} (m : M A) :
  (forall st, match m st with
              | Ok _ st' | Err _ st' => heap st' = heap st
              | OutOfFuel => False
              end) ->
  settled m.
Proof.
  intros H st. specialize (H st). unfold post.
  destruct (m st) as [a st1|e st1|]; [| |done]; split; by rewrite H.
Qed.

Lemma settled_ret {A} (a : A) : settled (ret a).
Proof. by apply settled_same. Qed.

Lemma settled_throw {A} e : settled (@throw A e).
Proof. by apply settled_same. Qed.

Lemma settled_peek : settled peek.
Proof. by apply settled_same. Qed.

Lemma settled_next : settled next.
Proof. by apply settled_same. Qed.

Lemma settled_skip : settled skip.
Proof. by apply settled_same. Qed.

Lemma settled_advance k : settled (advance k).
Proof. by apply settled_same. Qed.

Lemma settled_atEnd : settled atEnd.
Proof. by apply settled_same. Qed.

Lemma settled_remaining : settled remaining.
Proof. by apply settled_same. Qed.

Lemma settled_substrAt k : settled (substrAt k).
Proof. by apply settled_same. Qed.

Lemma settled_getPos : settled getPos.
Proof. by apply settled_same. Qed.

Lemma settled_getHeap : settled getHeap.
Proof. by apply settled_same. Qed.

Lemma settled_pushCache v : settled (pushCache v).
Proof. by apply settled_same. Qed.

Lemma settled_pushSCache s : settled (pushSCache s).
Proof. by apply settled_same. Qed.

Lemma settled_readDigits : settled readDigits.
Proof.
  apply settled_same. intros st. unfold readDigits.
  by destruct (readDigitsLoop _ _ _ _ _ _) as [[k s] p].
Qed.

Lemma settled_readFloat : settled readFloat.
Proof. by apply settled_same. Qed.

Lemma settled_cacheAt k : settled (cacheAt k).
Proof.
  apply settled_same. intros st. unfold cacheAt.
  destruct (orb _ _); [done|]. by destruct (cache st !! _).
Qed.

Lemma settled_scacheAt k : settled (scacheAt k).
Proof.
  apply settled_same. intros st. unfold scacheAt.
  destruct (orb _ _); [done|]. by destruct (scache st !! _).
Qed.

(** An assignment that keeps the shape of the object it changes. *)
Lemma settled_update v f :
  (forall o, shape (f o) = shape o) -> settled (update v f).
Proof.
  intros Hf st. unfold post, update. destruct v as [| | | |a]; try done.
  split; simpl.
  - rewrite (list_fmap_alter shape f id); [|by apply Forall_forall].
    by rewrite list_alter_id.
  - intros Hall. apply Forall_alter; [done|].
    intros o _. unfold approved. by rewrite Hf.
Qed.

Lemma shape_arraySet i v o : shape (arraySet i v o) = shape o.
Proof. by destruct o. Qed.

Lemma shape_arrayPut i v o : shape (arrayPut i v o) = shape o.
Proof. by destruct o. Qed.

Lemma shape_setField k v o : shape (setField k v o) = shape o.
Proof. by destruct o. Qed.

Lemma shape_weakMapSet k v o : shape (weakMapSet k v o) = shape o.
Proof. by destruct o. Qed.

Lemma settled_arrayPush a v : settled (arrayPush a v).
Proof.
  intros st. unfold post, arrayPush. destruct (_ <? _).
  - apply (settled_update a (arraySet _ v)). intros o. apply shape_arraySet.
  - apply (settled_bind (update a (arrayPut _ v)) (fun _ => throw _)).
    + apply settled_update. intros o. apply shape_arrayPut.
    + intros _. apply settled_throw.
Qed.

Lemma settled_weakMapSetM wm k v : settled (weakMapSetM wm k v).
Proof.
  destruct k; simpl; try apply settled_throw.
  apply settled_update. intros o. apply shape_weakMapSet.
Qed.

Lemma settled_setProperty o k v : settled (setProperty o k v).
Proof.
  unfold setProperty. apply settled_bind; [apply settled_getHeap|].
  intros h. apply settled_update. intros x. apply shape_setField.
Qed.

Lemma settled_alloc o : approved o -> settled (alloc o).
Proof.
  intros Ho st. unfold post, alloc. split; simpl.
  - rewrite fmap_app. by apply prefix_app_r.
  - intros Hall. apply Forall_app. split; [done|]. by constructor.
Qed.

Lemma enumClass_lt cs tag ctor :
  enumClass cs tag = Some ctor -> (ctor < length cs)%nat.
Proof.
  destruct tag as [| |[z| | | |]|s|]; simpl; try done.
  - destruct (z <? 0); [done|].
    destruct (cs !! Z.to_nat z) eqn:Hl; [|done].
    intros [= <-]. by eapply lookup_lt_Some.
  - assert (H : forall k i, findName s cs k = Some i ->
                (i < k + length cs)%nat).
    { induction cs as [|e cs IH]; intros k i; simpl; [done|].
      destruct (String.eqb e s); [intros [= <-]; lia|].
      intros Hi. apply IH in Hi. lia. }
    intros Hi. by apply H in Hi.
Qed.

Ltac settled_step :=
  first
    [ assumption
    | apply settled_bind; [| intros ?]
    | apply settled_ret | apply settled_throw | apply settled_peek
    | apply settled_next | apply settled_skip | apply settled_advance
    | apply settled_atEnd | apply settled_remaining | apply settled_substrAt
    | apply settled_getPos | apply settled_getHeap | apply settled_readDigits
    | apply settled_readFloat | apply settled_cacheAt | apply settled_scacheAt
    | apply settled_pushCache | apply settled_pushSCache
    | apply settled_arrayPush | apply settled_weakMapSetM
    | apply settled_setProperty
    | apply settled_update; intros ?;
      first [apply shape_setField | apply shape_arraySet]
    | apply settled_alloc; exact I
    | match goal with
      | |- settled (if ?b then _ else _) => destruct b
      | |- settled (match ?x with _ => _ end) => destruct x
      end ].

Variable rec : M Value.
Hypothesis Hrec : settled rec.

Lemma settled_unserializeObject fuel o :
  settled (unserializeObject rec fuel o).
Proof.
  induction fuel as [|f IH]; simpl; [by intros st|]. repeat settled_step.
Qed.

Lemma settled_arrayLoop fuel a : settled (arrayLoop rec fuel a).
Proof.
  induction fuel as [|f IH]; simpl; [by intros st|]. repeat settled_step.
Qed.

Lemma settled_listLoop fuel a : settled (listLoop rec fuel a).
Proof.
  induction fuel as [|f IH]; simpl; [by intros st|]. repeat settled_step.
Qed.

Lemma settled_stringMapLoop fuel a : settled (stringMapLoop rec fuel a).
Proof.
  induction fuel as [|f IH]; simpl; [by intros st|]. repeat settled_step.
Qed.

Lemma settled_intMapLoop fuel a : settled (intMapLoop rec fuel a).
Proof.
  induction fuel as [|f IH]; simpl; [by intros st|]. repeat settled_step.
Qed.

Lemma settled_objectMapLoop fuel a : settled (objectMapLoop rec fuel a).
Proof.
  induction fuel as [|f IH]; simpl; [by intros st|]. repeat settled_step.
Qed.

Lemma settled_readArgs n : settled (readArgs rec n).
Proof. induction n as [|n IH]; simpl; repeat settled_step. Qed.

Lemma settled_unserializeEnum edecl tag :
  (exists name, resolveEnum name = Some edecl) ->
  settled (unserializeEnum rec edecl tag).
Proof.
  intros He. unfold unserializeEnum.
  apply settled_bind; [apply settled_skip|]. intros _.
  destruct (enumClass _ _) as [ctor|] eqn:Hctor; [|apply settled_throw].
  apply settled_bind; [apply settled_readDigits|]. intros n.
  destruct (orb _ _); [apply settled_throw|].
  apply settled_bind; [apply settled_readArgs|]. intros args.
  apply settled_alloc. split; [done|]. by eapply enumClass_lt.
Qed.

Lemma settled_runHook self p : settled (runHook rec self p).
Proof.
  induction p as [|e|k v p IH|k IHk h IHh]; simpl.
  - apply settled_ret.
  - apply settled_throw.
  - repeat settled_step.
  - intros st. unfold post. specialize (Hrec st). unfold post in Hrec.
    destruct (rec st) as [v st1|e st1|]; auto.
    + specialize (IHk v st1). unfold post in IHk.
      destruct (runHook _ _ _ _); auto; etrans; eauto.
    + specialize (IHh e st1). unfold post in IHh.
      destruct (runHook _ _ _ _); auto; etrans; eauto.
Qed.

Lemma settled_unserializeTag f t : settled (unserializeTag rec f t).
Proof.
  destruct t; simpl;
    try (repeat first
           [ apply settled_unserializeObject
           | apply settled_arrayLoop
           | apply settled_listLoop
           | apply settled_stringMapLoop
           | apply settled_intMapLoop
           | apply settled_objectMapLoop
           | settled_step ]; fail).
  - (* c *)
    apply settled_bind; [done|]. intros cname.
    destruct (resolveClass cname) as [cli|] eqn:Hcli; [|apply settled_throw].
    apply settled_bind; [apply settled_alloc; by exists cname|]. intros co.
    repeat first [apply settled_unserializeObject | settled_step].
  - (* w *)
    apply settled_bind; [done|]. intros ename.
    destruct (resolveEnum ename) as [edecl|] eqn:He; [|apply settled_throw].
    apply settled_bind; [done|]. intros tag.
    apply settled_bind; [apply settled_unserializeEnum; by exists ename|].
    intros e. repeat settled_step.
  - (* j *)
    apply settled_bind; [done|]. intros ename.
    destruct (resolveEnum ename) as [edecl|] eqn:He; [|apply settled_throw].
    apply settled_bind; [apply settled_skip|]. intros _.
    apply settled_bind; [apply settled_readDigits|]. intros index.
    apply settled_bind; [apply settled_unserializeEnum; by exists ename|].
    intros e. repeat settled_step.
  - (* C *)
    apply settled_bind; [done|]. intros name.
    destruct (resolveClass name) as [cl|] eqn:Hcl; [|apply settled_throw].
    apply settled_bind; [apply settled_alloc; by exists name|]. intros cclo.
    repeat first [apply settled_runHook | settled_step].
Qed.

End Shapes.

Lemma settled_unserialize {host : Host} {resolver : TypeResolver} fuel :
  settled (unserialize fuel).
Proof.
  induction fuel as [|f IH]; simpl; [by intros st|].
  apply settled_bind; [apply settled_next|]. intros c.
  destruct (tagOf c) as [t|].
  - by apply settled_unserializeTag.
  - apply settled_bind; [apply settled_advance|]. intros _.
    apply settled_bind; [apply settled_peek|]. intros c'.
    apply settled_bind; [apply settled_getPos|]. intros p.
    apply settled_throw.
Qed.

Section Kinds.

Context {host : Host} {resolver : TypeResolver}.

(** The object allocated and pushed at the head of a payload keeps its
    shape through the payload. *)
Lemma first_shape {A} (k : Value -> M A) o st0 r st' :
  (forall a, settled (k a)) ->
  (a <- alloc o ;; pushCache a ;;; k a) st0 = Ok r st' ->
  hasShape st' (VRef (length (heap st0))) (shape o).
Proof.
  intros Hk.
  change ((a <- alloc o ;; pushCache a ;;; k a) st0)
    with (k (VRef (length (heap st0))) (allocPushed o st0)).
  intros Hrun.
  pose proof (Hk (VRef (length (heap st0))) (allocPushed o st0)) as Hs.
  unfold post in Hs. rewrite Hrun in Hs.
  pose proof (stable_shapes _ _ Hs) as Hp. simpl in Hp.
  assert (Hl : (shape <$> heap st0 ++ [o]) !! length (heap st0)
               = Some (shape o)).
  { rewrite fmap_app, lookup_app_r by (by rewrite length_fmap).
    by rewrite length_fmap, Nat.sub_diag. }
  apply (prefix_lookup_Some _ _ _ _ Hl) in Hp.
  apply list_lookup_fmap_Some in Hp as (o' & Ho' & Hsh).
  by exists (length (heap st0)), o'.
Qed.

Lemma first_shape_ret (body : Value -> M unit) o st0 v st' :
  (forall a, settled (body a)) ->
  (a <- alloc o ;; pushCache a ;;; body a ;;; ret a) st0 = Ok v st' ->
  hasShape st' v (shape o).
Proof.
  intros Hb Hrun.
  assert (Hv : v = VRef (length (heap st0))).
  { revert Hrun.
    change ((a <- alloc o ;; pushCache a ;;; body a ;;; ret a) st0)
      with ((body (VRef (length (heap st0))) ;;;
             ret (VRef (length (heap st0)))) (allocPushed o st0)).
    unfold bind. destruct (body _ _); [|done|done]. by intros [= <- _]. }
  rewrite Hv.
  eapply (first_shape (fun a => body a ;;; ret a)); [|exact Hrun].
  intros a. apply settled_bind; [apply Hb|]. intros _. apply settled_ret.
Qed.

Lemma unserializeEnum_returns rec edecl tag st v st' :
  unserializeEnum rec edecl tag st = Ok v st' ->
  exists ctor args st2,
    v = VRef (length (heap st2)) /\
    st' = setHeap (heap st2 ++ [OEnum edecl ctor args]) st2.
Proof.
  unfold unserializeEnum, bind at 1, skip at 1.
  destruct (enumClass _ _) as [ctor|]; [|done].
  unfold bind at 1. destruct (readDigits _) as [n st1|e st1|]; [|done|done].
  destruct (orb _ _); [done|]. unfold bind at 1.
  destruct (readArgs _ _ _) as [args st2|e st2|]; [|done|done].
  unfold alloc. intros [= <- <-]. by exists ctor, args, st2.
Qed.

Lemma enum_pushed_shape e st3 v st' edecl ctor args st2 :
  e = VRef (length (heap st2)) ->
  st3 = setHeap (heap st2 ++ [OEnum edecl ctor args]) st2 ->
  (pushCache e ;;; skip ;;; ret e) st3 = Ok v st' ->
  hasShape st' v (SEnum edecl ctor).
Proof.
  intros -> -> [= <- <-].
  exists (length (heap st2)), (OEnum edecl ctor args).
  split; [done|]. split; [|done]. simpl.
  by rewrite lookup_app_r, Nat.sub_diag.
Qed.

End Kinds.

(** ** Values that are returned *)

Section Returned.

Context {host : Host} {resolver : TypeResolver}.

(** What [unserialize] returns is a value that is no object, or an object
    that sits in the cache. *)
Lemma unserializeTag_cached fuel t st v st' :
  unserializeTag (unserialize fuel) fuel t st = Ok v st' ->
  isObject v = false \/ v ∈ cache st'.
Proof.
  intros Hrun. pose proof (steady_unserialize fuel) as Hrec.
  assert (Hfirst : forall (body : Value -> M unit) o,
            (forall a, steady (body a)) ->
            (a <- alloc o ;; pushCache a ;;; body a ;;; ret a) st = Ok v st' ->
            isObject v = false \/ v ∈ cache st').
  { intros body o Hb H. right.
    destruct (first_slot_ret body o st v st' Hb H) as [_ Hs].
    by eapply list_elem_of_lookup_2. }
  assert (Hlast : forall e st3,
            (pushCache e ;;; skip ;;; ret e) st3 = Ok v st' ->
            isObject v = false \/ v ∈ cache st').
  { intros e st3 [= <- <-]. right. simpl. set_solver. }
  destruct t; simpl in Hrun.
  - injection Hrun as <- <-. by left.
  - injection Hrun as <- <-. by left.
  - injection Hrun as <- <-. by left.
  - injection Hrun as <- <-. by left.
  - unfold bind in Hrun. destruct (readDigits st); [|done|done].
    injection Hrun as <- <-. by left.
  - injection Hrun as <- <-. by left.
  - unfold bind at 1 in Hrun.
    destruct (readDigits st) as [len st1|e st1|]; [|done|done].
    unfold bind at 1, next at 1 in Hrun.
    unfold bind at 1, remaining at 1 in Hrun.
    destruct (orb _ _); [done|].
    unfold bind, substrAt, advance in Hrun.
    destruct (decodeURIComponent _); [|done].
    injection Hrun as <- <-. by left.
  - injection Hrun as <- <-. by left.
  - injection Hrun as <- <-. by left.
  - injection Hrun as <- <-. by left.
  - eapply Hfirst; [|exact Hrun]. intros a. by apply steady_arrayLoop.
  - eapply Hfirst; [|exact Hrun]. intros a. by apply steady_unserializeObject.
  - unfold bind in Hrun.
    destruct (readDigits st) as [n st1|e st1|]; [|done|done].
    unfold cacheAt in Hrun. destruct (orb _ _); [done|].
    destruct (cache st1 !! _) eqn:Hl; [|done].
    injection Hrun as <- <-. right. by eapply list_elem_of_lookup_2.
  - unfold bind in Hrun.
    destruct (readDigits st) as [n st1|e st1|]; [|done|done].
    unfold scacheAt in Hrun. destruct (orb _ _); [done|].
    destruct (scache st1 !! _) eqn:Hl; [|done].
    injection Hrun as <- <-. by left.
  - unfold bind in Hrun. by destruct (unserialize fuel st).
  - unfold bind at 1 in Hrun.
    destruct (unserialize fuel st) as [name st1|e st1|]; [|done|done].
    destruct (resolveClass name) as [cli|]; [|done].
    right.
    destruct (first_slot_ret _ _ st1 v st'
                (fun a => steady_unserializeObject _ fuel a Hrec) Hrun)
      as [_ Hs].
    by eapply list_elem_of_lookup_2.
  - unfold bind at 1 in Hrun.
    destruct (unserialize fuel st) as [name st1|e st1|]; [|done|done].
    destruct (resolveEnum name) as [edecl|]; [|done].
    unfold bind at 1 in Hrun.
    destruct (unserialize fuel st1) as [tag st2|e st2|]; [|done|done].
    unfold bind at 1 in Hrun.
    destruct (unserializeEnum _ _ _ _) as [e1 st3|e st3|]; [|done|done].
    by eapply Hlast.
  - unfold bind at 1 in Hrun.
    destruct (unserialize fuel st) as [name st1|e st1|]; [|done|done].
    destruct (resolveEnum name) as [edecl|]; [|done].
    unfold bind at 1, skip at 1 in Hrun. unfold bind at 1 in Hrun.
    destruct (readDigits _) as [index st2|e st2|]; [|done|done].
    unfold bind at 1 in Hrun.
    destruct (unserializeEnum _ _ _ _) as [e1 st3|e st3|]; [|done|done].
    by eapply Hlast.
  - eapply Hfirst; [|exact Hrun]. intros a. by apply steady_listLoop.
  - eapply Hfirst; [|exact Hrun]. intros a. by apply steady_stringMapLoop.
  - eapply Hfirst; [|exact Hrun]. intros a. by apply steady_intMapLoop.
  - eapply Hfirst; [|exact Hrun]. intros a. by apply steady_objectMapLoop.
  - injection Hrun as <- <-. right. simpl. set_solver.
  - unfold bind at 1 in Hrun.
    destruct (readDigits st) as [len st1|e st1|]; [|done|done].
    unfold bind at 1, next at 1 in Hrun.
    unfold bind at 1, remaining at 1 in Hrun.
    destruct (orb _ _); [done|].
    injection Hrun as <- <-. right. simpl. set_solver.
  - unfold bind at 1 in Hrun.
    destruct (unserialize fuel st) as [name st1|e st1|]; [|done|done].
    destruct (resolveClass name) as [cl|]; [|done].
    assert (Hv : v = VRef (length (heap st1))).
    { revert Hrun. unfold bind, alloc, pushCache.
      destruct (qwkpktDecode cl) as [decode|]; [|done].
      destruct (runHook _ _ _ _); [|done|done].
      unfold next. destruct (codeIs _ _); [|done]. by intros [= <- _]. }
    right. rewrite Hv. eapply list_elem_of_lookup_2.
    eapply (first_slot (fun a =>
              match qwkpktDecode cl with
              | Some decode => runHook (unserialize fuel) a (decode a)
              | None => throw (TypeError "cclo._qwkpktDecode is not a function")
              end ;;; c0 <- next ;;
              if codeIs c0 103 then ret a else throw InvalidCustomData));
      [|exact Hrun].
    intros a. apply steady_bind.
    + destruct (qwkpktDecode cl);
        [by apply steady_runHook|apply steady_throw].
    + intros _. repeat steady_step.
  - done.
  - done.
Qed.

End Returned.

Lemma tracks_NoDup st : tracks st -> NoDup (cache st).
Proof.
  unfold tracks. intros ->. apply NoDup_fmap_2; [|apply NoDup_seq].
  by intros a b [= ->].
Qed.

(** ** Items, fields and entries *)

Lemma holds_snoc elems vs v :
  holds elems vs -> holds (<[Z.of_nat (length vs) := v]> elems) (vs ++ [v]).
Proof.
  intros H i. destruct (decide (i = Z.of_nat (length vs))) as [->|Hne].
  - rewrite lookup_insert_eq.
    pose proof (Nat2Z.is_nonneg (length vs)).
    replace (Z.of_nat (length vs) <? 0) with false by lia.
    by rewrite Nat2Z.id, lookup_app_r, Nat.sub_diag.
  - rewrite lookup_insert_ne by done. rewrite H.
    destruct (i <? 0) eqn:Hi; [done|].
    destruct (decide (Z.to_nat i < length vs)%nat) as [Hlt|Hge].
    + by rewrite lookup_app_l.
    + rewrite !lookup_ge_None_2; [done| |lia].
      rewrite length_app. simpl. lia.
Qed.

Section Items.

Context {host : Host} {resolver : TypeResolver}.

(** The rounds of the two loops over the items [vs]. *)
Lemma loops_items fuel a st vs st' :
  items (unserialize fuel) (VRef a) st vs st' ->
  forall f pre elems,
    heap st !! a = Some (OArray (Z.of_nat (length pre)) elems) ->
    holds elems pre ->
    listLoop (unserialize fuel) (length vs + f) (VRef a) st
    = listLoop (unserialize fuel) f (VRef a) st' /\
    arrayLoop (unserialize fuel) (length vs + f) (VRef a) st
    = arrayLoop (unserialize fuel) f (VRef a) st' /\
    exists elems',
      heap st' !! a
      = Some (OArray (Z.of_nat (length (pre ++ vs))) elems') /\
      holds elems' (pre ++ vs).
Proof.
  induction 1 as [st|st v st1 st2 vs st' Hc Hv Hpush Hitems IH];
    intros f pre elems Ha Hel.
  { split; [done|]. split; [done|]. exists elems. by rewrite app_nil_r. }
  pose proof (lookup_lt_Some _ _ _ Ha) as Hlt.
  pose proof (framed_lookup (unserialize fuel) st a
                (framed_unserialize fuel (S a)) Hlt) as Hkeep.
  rewrite Hv in Hkeep. rewrite Ha in Hkeep.
  assert (Hst2 : Z.of_nat (length pre) < MAX_LENGTH /\
                 st2 = setHeap (alter (arraySet (Z.of_nat (length pre)) v) a
                                  (heap st1)) st1).
  { revert Hpush. unfold arrayPush. simpl. rewrite Hkeep.
    destruct (_ <? _) eqn:E; [|done]. intros [= <-]. split; [lia|done]. }
  destruct Hst2 as [Hmax ->].
  specialize (IH f (pre ++ [v])
                (<[Z.of_nat (length pre) := v]> elems)).
  destruct IH as (Hl & Hal & elems' & Ha' & Hel').
  { simpl. rewrite list_lookup_alter_eq, Hkeep. simpl.
    unfold isArrayIndex.
    replace ((0 <=? _) && (_ <? MAX_LENGTH)) with true by lia.
    rewrite length_app. simpl. do 2 f_equal. lia. }
  { by apply holds_snoc. }
  rewrite <- app_assoc in Ha', Hel'. simpl in Ha', Hel'.
  pose proof (unserialize_not_u _ _ _ _ Hv) as Hu.
  split; [|split; [|by exists elems']].
  - rewrite <- Hl. simpl. unfold bind at 1, peek at 1. rewrite Hc.
    unfold bind at 1. rewrite Hv. unfold bind at 1. by rewrite Hpush.
  - rewrite <- Hal. simpl. unfold bind at 1, peek at 1. rewrite Hc, Hu.
    unfold bind at 1. rewrite Hv. unfold bind at 1. by rewrite Hpush.
Qed.

End Items.

Section IntegerItems.

Context {host : Host} {resolver : TypeResolver}.

(** The items of [intItems zs], decoded and pushed onto the array at [a]. *)
Lemma int_items fuel a tail : forall zs st0 (n : nat) elems,
  reads st0 (intItems zs +:+ tail) ->
  headIs digitCode tail = false ->
  heap st0 !! a = Some (OArray (Z.of_nat n) elems) ->
  Z.of_nat (n + length zs) <= MAX_LENGTH ->
  exists st',
    items (unserialize (S fuel)) (VRef a) st0 ((VNum ∘ NInt) <$> zs) st' /\
    reads st' tail /\
    buf st' = buf st0 /\
    pos st' = pos st0 + Z.of_nat (String.length (intItems zs)) /\
    cache st' = cache st0 /\ scache st' = scache st0 /\
    length (heap st') = length (heap st0).
Proof.
  induction zs as [|z zs IH]; intros st0 n elems Hr Htail Ha Hmax.
  { exists st0. split; [constructor|]. simpl. repeat split; [done|lia]. }
  simpl intItems in Hr. rewrite !string_app_assoc in Hr.
  assert (Hnext : headIs digitCode (intItems zs +:+ tail) = false).
  { destruct zs; [done|]. reflexivity. }
  pose proof (unserialize_integer fuel st0 z _ Hr Hnext) as Hz.
  set (st1 := setPos (pos st0 + 1 + Z.of_nat (String.length (pretty z))) st0)
    in *.
  set (st2 := setHeap (alter (arraySet (Z.of_nat n) (VNum (NInt z))) a
                         (heap st1)) st1).
  assert (Hpush : arrayPush (VRef a) (VNum (NInt z)) st1 = Ok tt st2).
  { unfold arrayPush. simpl. rewrite Ha. simpl in Hmax.
    by replace (Z.of_nat n <? MAX_LENGTH) with true by lia. }
  destruct (IH st2 (S n) (<[Z.of_nat n := VNum (NInt z)]> elems))
    as (st' & Hitems & Hr' & Hb & Hp & Hc & Hs & Hh).
  - apply (reads_past st0 _ ("i" +:+ pretty z) _).
    + by rewrite !string_app_assoc.
    + done.
    + rewrite string_length_app. simpl. lia.
  - done.
  - simpl. rewrite list_lookup_alter_eq, Ha. simpl. unfold isArrayIndex.
    simpl in Hmax.
    replace ((0 <=? Z.of_nat n) && (Z.of_nat n <? MAX_LENGTH)) with true by lia.
    do 2 f_equal. lia.
  - simpl in *. lia.
  - exists st'. split.
    + simpl. apply (items_more _ _ st0 _ st1 st2); [|done|done|done].
      rewrite string_app_cons, string_app_nil in Hr.
      by rewrite (reads_head _ _ _ Hr).
    + split; [done|]. split; [by rewrite Hb|]. split.
      { rewrite Hp. simpl pos. simpl intItems.
        rewrite string_app_cons, string_app_nil. simpl String.length.
        rewrite string_length_app. lia. }
      split; [by rewrite Hc|]. split; [by rewrite Hs|].
      rewrite Hh. simpl. by rewrite length_alter.
Qed.

End IntegerItems.

Lemma unserializeObject_rounds rec o f st kvs f' st' :
  fieldRounds rec o f st kvs f' st' ->
  unserializeObject rec f o st = unserializeObject rec f' o st'.
Proof.
  induction 1 as [f st|f st key st1 v st2 st3 kvs f' st' He Hc Hk Hv Hu _ IH];
    [done|].
  rewrite unserializeObject_round.
  unfold bind at 1, atEnd at 1. rewrite He.
  unfold bind at 1, peek at 1. rewrite Hc.
  unfold bind at 1. rewrite Hk. unfold bind at 1. rewrite Hv.
  unfold bind at 1. rewrite Hu. exact IH.
Qed.

Section Fields.

Context {host : Host} {resolver : TypeResolver}.

Lemma fieldRounds_fields fuel a f st kvs f' st' :
  fieldRounds (unserialize fuel) (VRef a) f st kvs f' st' ->
  forall p fs,
    heap st !! a = Some (OObject p fs) ->
    heap st' !! a = Some (OObject p (assigned fs kvs)).
Proof.
  induction 1 as [f st|f st key st1 v st2 st3 kvs f' st' He Hc Hk Hv Hu _ IH];
    intros p fs Ha; [done|].
  pose proof (lookup_lt_Some _ _ _ Ha) as Hlt.
  pose proof (framed_lookup (unserialize fuel) st a
                (framed_unserialize fuel (S a)) Hlt) as H1.
  rewrite Hk, Ha in H1.
  pose proof (lookup_lt_Some _ _ _ H1) as Hlt1.
  pose proof (framed_lookup (unserialize fuel) st1 a
                (framed_unserialize fuel (S a)) Hlt1) as H2.
  rewrite Hv, H1 in H2.
  injection Hu as <-. simpl. apply IH. simpl.
  by rewrite list_lookup_alter_eq, H2.
Qed.

Lemma assigned_snoc fs kvs k v :
  assigned fs (kvs ++ [(k, v)]) = <[k := v]> (assigned fs kvs).
Proof. unfold assigned. by rewrite foldl_app. Qed.

Lemma assigned_last fs kvs1 k v : forall kvs2,
  k ∉ kvs2.*1 ->
  assigned fs (kvs1 ++ (k, v) :: kvs2) !! k = Some v.
Proof.
  induction kvs2 as [|[k' v'] kvs2 IH] using rev_ind; intros Hk.
  - by rewrite assigned_snoc, lookup_insert_eq.
  - rewrite fmap_app in Hk. simpl in Hk.
    apply not_elem_of_app in Hk as [Hk Hk'].
    apply not_elem_of_cons in Hk' as [Hne _].
    rewrite app_comm_cons, app_assoc, assigned_snoc.
    rewrite lookup_insert_ne by done. by apply IH.
Qed.

Lemma assigned_other fs kvs k :
  k ∉ kvs.*1 -> assigned fs kvs !! k = fs !! k.
Proof.
  induction kvs as [|[k' v'] kvs IH] using rev_ind; intros Hk; [done|].
  rewrite fmap_app in Hk. simpl in Hk.
  apply not_elem_of_app in Hk as [Hk Hk'].
  apply not_elem_of_cons in Hk' as [Hne _].
  rewrite assigned_snoc, lookup_insert_ne by done. by apply IH.
Qed.

End Fields.

Lemma intMapLoop_rounds {host : Host} rec him f st f' st' :
  entryRounds rec him f st f' st' ->
  intMapLoop rec f him st = intMapLoop rec f' him st'.
Proof.
  induction 1 as [f st|f st i st1 v st2 st3 f' st' Hc Hi Hv Hs _ IH]; [done|].
  simpl. unfold bind at 1, next at 1. rewrite Hc.
  change (codeIs (Some 58) 58) with true. cbv iota.
  unfold bind at 1. rewrite Hi. unfold bind at 1. rewrite Hv.
  unfold bind at 1. rewrite Hs. exact IH.
Qed.

(** ** Enum constructors, base64 text, float literals *)




Lemma get_replaceAll a b s : forall i,
  String.get i (replaceAll a b s)
  = (fun c => if Ascii.eqb c a then b else c) <$> String.get i s.
Proof.
  induction s as [|c s IH]; intros [|i]; simpl; done.
Qed.

Lemma code_inj c d : code c = code d -> c = d.
Proof.
  unfold code. intros H. apply Nat2Z.inj in H.
  by rewrite <- (Ascii.ascii_nat_embedding c),
             <- (Ascii.ascii_nat_embedding d), H.
Qed.

Lemma code_replace (a b c : Ascii.ascii) :
  code (if Ascii.eqb c a then b else c)
  = if code c =? code a then code b else code c.
Proof.
  destruct (Ascii.eqb c a) eqn:E.
  - apply Ascii.eqb_eq in E as ->. by rewrite Z.eqb_refl.
  - apply Ascii.eqb_neq in E.
    destruct (code c =? code a) eqn:E'; [|done].
    apply Z.eqb_eq, code_inj in E'. done.
Qed.

Lemma charCodeAt_base64 s i :
  charCodeAt (replaceAll colon slash (replaceAll percent plus s)) i
  = base64Code <$> charCodeAt s i.
Proof.
  unfold charCodeAt. destruct (i <? 0); [done|].
  rewrite !get_replaceAll.
  destruct (String.get (Z.to_nat i) s) as [c|]; [|done]. simpl.
  f_equal. change (Z.of_nat (Ascii.nat_of_ascii ?x)) with (code x).
  rewrite !code_replace. unfold base64Code.
  change (code percent) with 37. change (code plus) with 43.
  change (code colon) with 58. change (code slash) with 47.
  destruct (code c =? 37) eqn:E; [done|]. done.
Qed.

(** The characters that the loop of [readFloat] passes all pass its test. *)
Lemma readFloatLoop_passed b : forall fuel p i,
  p <= i < readFloatLoop fuel b p ->
  exists c, charCodeAt b i = Some c /\ floatChar c = true.
Proof.
  induction fuel as [|fuel IH]; intros p i Hi; simpl in Hi; [lia|].
  destruct (charCodeAt b p) as [c|] eqn:Hc; [|lia].
  destruct (floatChar c) eqn:Hf; [|lia].
  destruct (decide (i = p)) as [->|Hne]; [by exists c|].
  apply (IH (p + 1)). lia.
Qed.

(** ** A value inside a longer input *)

Lemma substring_app_r (pre s : string) a m :
  String.substring (String.length pre + a) m (pre +:+ s)
  = String.substring a m s.
Proof.
  induction pre as [|c pre IH]; [done|].
  rewrite string_app_cons. simpl. exact IH.
Qed.

Lemma substr_embed (pre b : string) p n :
  0 <= p ->
  substr (pre +:+ b) (Z.of_nat (String.length pre) + p) n = substr b p n.
Proof.
  intros Hp. unfold substr. rewrite string_length_app.
  pose proof (Nat2Z.is_nonneg (String.length pre)) as Hpre.
  pose proof (Nat2Z.is_nonneg (String.length b)) as Hb.
  replace (Z.of_nat (String.length pre) + p <? 0) with false by lia.
  replace (p <? 0) with false by lia.
  set (size := Z.of_nat (String.length b)).
  replace ((Z.of_nat (String.length pre) + p)
           `min` Z.of_nat (String.length pre + String.length b))
    with (Z.of_nat (String.length pre) + p `min` size) by lia.
  replace (Z.of_nat (String.length pre + String.length b)
           - (Z.of_nat (String.length pre) + p `min` size))
    with (size - p `min` size) by lia.
  replace (Z.to_nat (Z.of_nat (String.length pre) + p `min` size))
    with (String.length pre + Z.to_nat (p `min` size))%nat by lia.
  apply substring_app_r.
Qed.

Lemma readDigitsLoop_embed pre b fpos : forall fuel k s p,
  0 <= p ->
  readDigitsLoop fuel (pre +:+ b) (Z.of_nat (String.length pre) + fpos)
    k s (Z.of_nat (String.length pre) + p)
  = ((readDigitsLoop fuel b fpos k s p).1,
     Z.of_nat (String.length pre) + (readDigitsLoop fuel b fpos k s p).2).
Proof.
  induction fuel as [|fuel IH]; intros k s p Hp; simpl; [done|].
  rewrite charCodeAt_app_r by done.
  destruct (charCodeAt b p) as [c|]; [|done].
  pose proof (Nat2Z.is_nonneg (String.length pre)) as Hpre.
  replace (Z.of_nat (String.length pre) + p
           =? Z.of_nat (String.length pre) + fpos) with (p =? fpos) by lia.
  replace (Z.of_nat (String.length pre) + p + 1)
    with (Z.of_nat (String.length pre) + (p + 1)) by lia.
  destruct (c =? 45).
  - destruct (negb (p =? fpos)); [done|]. apply IH. lia.
  - destruct (orb _ _); [done|]. apply IH. lia.
Qed.

Lemma readDigitsLoop_fuel b fpos : forall fuel fuel' k s p,
  Z.of_nat (String.length b) - p < Z.of_nat fuel ->
  (fuel <= fuel')%nat ->
  readDigitsLoop fuel' b fpos k s p = readDigitsLoop fuel b fpos k s p.
Proof.
  induction fuel as [|fuel IH]; intros fuel' k s p Hp Hle.
  - simpl. destruct fuel' as [|fuel']; [done|]. simpl.
    by rewrite charCodeAt_None_ge by lia.
  - destruct fuel' as [|fuel']; [lia|]. simpl.
    destruct (charCodeAt b p) as [c|]; [|done].
    destruct (c =? 45).
    + destruct (negb (p =? fpos)); [done|]. apply IH; lia.
    + destruct (orb _ _); [done|]. apply IH; lia.
Qed.

Lemma readFloatLoop_embed pre b : forall fuel p,
  0 <= p ->
  readFloatLoop fuel (pre +:+ b) (Z.of_nat (String.length pre) + p)
  = Z.of_nat (String.length pre) + readFloatLoop fuel b p.
Proof.
  induction fuel as [|fuel IH]; intros p Hp; simpl; [done|].
  rewrite charCodeAt_app_r by done.
  destruct (charCodeAt b p) as [c|]; [|done].
  destruct (floatChar c); [|done].
  replace (Z.of_nat (String.length pre) + p + 1)
    with (Z.of_nat (String.length pre) + (p + 1)) by lia.
  apply IH. lia.
Qed.

Lemma readFloatLoop_fuel b : forall fuel fuel' p,
  Z.of_nat (String.length b) - p < Z.of_nat fuel ->
  (fuel <= fuel')%nat ->
  readFloatLoop fuel' b p = readFloatLoop fuel b p.
Proof.
  induction fuel as [|fuel IH]; intros fuel' p Hp Hle.
  - simpl. destruct fuel' as [|fuel']; [done|]. simpl.
    by rewrite charCodeAt_None_ge by lia.
  - destruct fuel' as [|fuel']; [lia|]. simpl.
    destruct (charCodeAt b p) as [c|]; [|done].
    destruct (floatChar c); [|done]. apply IH; lia.
Qed.

Lemma embed_setPos pre p st :
  setPos (Z.of_nat (String.length pre) + p) (embed pre st)
  = embed pre (setPos p st).
Proof. reflexivity. Qed.

Lemma local_bind {A B} pre (m : M A) (k : A -> M B) :
  local pre m -> (forall a, local pre (k a)) -> local pre (bind m k).
Proof.
  intros Hm Hk st Ht Hp. destruct (Hm st Ht Hp) as [Hrun Hon].
  unfold bind. rewrite Hrun.
  destruct (m st) as [a st1|e st1|]; simpl; [|done|done].
  destruct Hon as [Hb Hle].
  destruct (Hk a st1) as [Hrun' Hon']; [by rewrite Hb|lia|].
  split; [done|].
  destruct (k a st1) as [b st2|e st2|]; [| |done];
    (destruct Hon' as [Hb' Hle']; split; [congruence|lia]).
Qed.

(** A step that does after [pre] what it does without it, and takes the
    cursor no further back. *)
Lemma local_steps {A} pre (m : M A) :
  (forall st, 0 <= pos st -> m (embed pre st) = embedResult pre (m st)) ->
  steps m -> local pre m.
Proof.
  intros Hm Hs st _ Hp. split; [by apply Hm|].
  specialize (Hs st). by destruct (m st).
Qed.

Lemma local_ret {A} pre (a : A) : local pre (ret a).
Proof. apply local_steps; [done|apply steps_ret]. Qed.

Lemma local_throw_plain {A} pre e :
  embedError pre e = e -> local pre (@throw A e).
Proof.
  intros He. apply local_steps; [|apply steps_throw].
  intros st _. unfold throw. simpl. by rewrite He.
Qed.

Lemma local_peek pre : local pre peek.
Proof.
  apply local_steps; [|apply steps_peek]. intros st Hp. unfold peek. simpl.
  by rewrite charCodeAt_app_r.
Qed.

Lemma local_next pre : local pre next.
Proof.
  apply local_steps; [|apply steps_next]. intros st Hp. unfold next. simpl.
  rewrite charCodeAt_app_r by done. f_equal. unfold embed, setPos. simpl.
  f_equal. lia.
Qed.

Lemma local_skip pre : local pre skip.
Proof.
  apply local_steps; [|apply steps_skip]. intros st Hp. unfold skip. simpl.
  f_equal. unfold embed, setPos. simpl. f_equal. lia.
Qed.

Lemma local_atEnd pre : local pre atEnd.
Proof.
  apply local_steps; [|apply steps_atEnd]. intros st Hp. unfold atEnd. simpl.
  f_equal. unfold buflen. simpl. rewrite string_length_app.
  rewrite Nat2Z.inj_add. lia.
Qed.

Lemma local_remaining pre : local pre remaining.
Proof.
  apply local_steps; [|apply steps_remaining]. intros st Hp.
  unfold remaining. simpl. f_equal. unfold buflen. simpl.
  rewrite string_length_app, Nat2Z.inj_add. lia.
Qed.

Lemma local_substrAt pre n : local pre (substrAt n).
Proof.
  apply local_steps; [|apply steps_substrAt]. intros st Hp.
  unfold substrAt. simpl. by rewrite substr_embed.
Qed.

Lemma local_getHeap pre : local pre getHeap.
Proof. apply local_steps; [done|apply steps_getHeap]. Qed.

Lemma local_pushCache pre v : local pre (pushCache v).
Proof. apply local_steps; [done|apply steps_pushCache]. Qed.

Lemma local_pushSCache pre s : local pre (pushSCache s).
Proof. apply local_steps; [done|apply steps_pushSCache]. Qed.

Lemma local_alloc pre o : local pre (alloc o).
Proof. apply local_steps; [done|apply steps_alloc]. Qed.

Lemma local_update pre v f : local pre (update v f).
Proof.
  apply local_steps; [|apply steps_update]. intros st _. by destruct v.
Qed.

Lemma local_arrayPush pre a v : local pre (arrayPush a v).
Proof.
  apply local_steps; [|apply steps_arrayPush]. intros st _.
  unfold arrayPush. simpl. destruct (_ <? _); by destruct a.
Qed.

Lemma local_weakMapSetM pre wm k v : local pre (weakMapSetM wm k v).
Proof.
  apply local_steps; [|apply steps_weakMapSetM]. intros st _.
  destruct k; simpl; try done. by destruct wm.
Qed.

Lemma local_setProperty {host : Host} pre o k v :
  local pre (setProperty o k v).
Proof.
  apply local_steps; [|apply steps_setProperty]. intros st _.
  unfold setProperty, bind, getHeap. simpl. by destruct o.
Qed.

Lemma local_cacheAt pre n : local pre (cacheAt n).
Proof.
  apply local_steps; [|apply steps_cacheAt]. intros st _.
  unfold cacheAt. simpl. destruct (orb _ _); [done|].
  by destruct (cache st !! _).
Qed.

Lemma local_scacheAt pre n : local pre (scacheAt n).
Proof.
  apply local_steps; [|apply steps_scacheAt]. intros st _.
  unfold scacheAt. simpl. destruct (orb _ _); [done|].
  by destruct (scache st !! _).
Qed.

Lemma readDigits_embed pre st :
  0 <= pos st -> readDigits (embed pre st) = embedResult pre (readDigits st).
Proof.
  intros Hp. unfold readDigits. simpl buf. simpl pos.
  rewrite (readDigitsLoop_embed pre (buf st) (pos st)) by done.
  rewrite (readDigitsLoop_fuel (buf st) (pos st) (S (String.length (buf st)))
             (S (String.length (pre +:+ buf st))))
    by (rewrite ?string_length_app; lia).
  destruct (readDigitsLoop _ _ _ _ _ _) as [[k s] p]. reflexivity.
Qed.

Lemma local_readDigits pre : local pre readDigits.
Proof.
  apply local_steps; [|apply steps_readDigits]. intros st Hp.
  by apply readDigits_embed.
Qed.

Lemma local_readFloat {host : Host} pre : local pre readFloat.
Proof.
  apply local_steps; [|apply steps_readFloat]. intros st Hp.
  unfold readFloat. simpl buf. simpl pos.
  rewrite (readFloatLoop_embed pre (buf st)) by done.
  rewrite (readFloatLoop_fuel (buf st) (S (String.length (buf st)))
             (S (String.length (pre +:+ buf st))))
    by (rewrite ?string_length_app; lia).
  rewrite substr_embed by done.
  set (q := readFloatLoop _ _ _).
  replace (Z.of_nat (String.length pre) + q
           - (Z.of_nat (String.length pre) + pos st)) with (q - pos st) by lia.
  reflexivity.
Qed.

Lemma local_advance pre n : 0 <= n -> local pre (advance n).
Proof.
  intros Hn st _ Hp. split; [|split; simpl; [done|lia]].
  unfold advance. simpl. f_equal. unfold embed, setPos. simpl. f_equal. lia.
Qed.

(** A step whose answers all satisfy [P], before steps that are local
    for such an answer. *)
Lemma local_bind_at {A B} pre (m : M A) (k : A -> M B) st (P : A -> Prop) :
  tame (buf st) -> 0 <= pos st ->
  local pre m ->
  (forall a st', m st = Ok a st' -> P a) ->
  (forall a, P a -> local pre (k a)) ->
  bind m k (embed pre st) = embedResult pre (bind m k st) /\
  match bind m k st with
  | Ok _ st' | Err _ st' => onward st st'
  | OutOfFuel => True
  end.
Proof.
  intros Ht Hp Hm HP Hk. destruct (Hm st Ht Hp) as [Hrun Hon].
  unfold bind. rewrite Hrun.
  destruct (m st) as [a st1|e st1|]; simpl; [|done|done].
  destruct Hon as [Hb Hle].
  destruct (Hk a (HP a st1 eq_refl) st1) as [Hrun' Hon']; [by rewrite Hb|lia|].
  split; [done|].
  destruct (k a st1) as [b st2|e st2|]; [| |done];
    (destruct Hon' as [Hb' Hle']; split; [congruence|lia]).
Qed.

Ltac local_step :=
  first
    [ assumption
    | apply local_bind; [| intros ?]
    | apply local_ret | apply local_throw_plain; reflexivity
    | apply local_peek | apply local_next | apply local_skip
    | apply local_atEnd | apply local_remaining | apply local_substrAt
    | apply local_getHeap | apply local_readDigits | apply local_readFloat
    | apply local_cacheAt | apply local_scacheAt
    | apply local_pushCache | apply local_pushSCache | apply local_alloc
    | apply local_arrayPush | apply local_weakMapSetM
    | apply local_setProperty | apply local_update
    | match goal with
      | |- local _ (if ?b then _ else _) => destruct b
      | |- local _ (match ?x with _ => _ end) => destruct x
      end ].

Section Locality.

Context {host : Host} {resolver : TypeResolver}.

Variable pre : string.
Variable rec : M Value.
Hypothesis Hrec : local pre rec.
Hypothesis Hhook : positionBlind pre.

Lemma local_unserializeObject fuel o :
  local pre (unserializeObject rec fuel o).
Proof.
  induction fuel as [|f IH]; simpl; [by intros st|]. repeat local_step.
Qed.

Lemma local_arrayLoop fuel a : local pre (arrayLoop rec fuel a).
Proof.
  induction fuel as [|f IH]; simpl; [by intros st|]. repeat local_step.
Qed.

Lemma local_listLoop fuel a : local pre (listLoop rec fuel a).
Proof.
  induction fuel as [|f IH]; simpl; [by intros st|]. repeat local_step.
Qed.

Lemma local_stringMapLoop fuel a : local pre (stringMapLoop rec fuel a).
Proof.
  induction fuel as [|f IH]; simpl; [by intros st|]. repeat local_step.
Qed.

Lemma local_intMapLoop fuel a : local pre (intMapLoop rec fuel a).
Proof.
  induction fuel as [|f IH]; simpl; [by intros st|]. repeat local_step.
Qed.

Lemma local_objectMapLoop fuel a : local pre (objectMapLoop rec fuel a).
Proof.
  induction fuel as [|f IH]; simpl; [by intros st|]. repeat local_step.
Qed.

Lemma local_readArgs n : local pre (readArgs rec n).
Proof. induction n as [|n IH]; simpl; repeat local_step. Qed.

Lemma local_unserializeEnum edecl tag :
  local pre (unserializeEnum rec edecl tag).
Proof.
  unfold unserializeEnum. repeat first [apply local_readArgs | local_step].
Qed.

Lemma local_runHook self p p' :
  shifted pre p p' ->
  forall st, tame (buf st) -> 0 <= pos st ->
  runHook rec self p' (embed pre st)
  = embedResult pre (runHook rec self p st) /\
  match runHook rec self p st with
  | Ok _ st' | Err _ st' => onward st st'
  | OutOfFuel => True
  end.
Proof.
  induction 1 as [|e|k v p p' Hs IH|k k' h h' Hk IHk Hh IHh];
    intros st Ht Hp; simpl.
  - by apply local_ret.
  - split; [done|]. split; [done|lia].
  - destruct (local_update pre self (setField k v) st Ht Hp) as [Hrun Hon].
    unfold bind. rewrite Hrun.
    destruct (update self (setField k v) st) as [[] st1|e st1|];
      simpl; [|done|done].
    destruct Hon as [Hb Hle].
    destruct (IH st1) as [Hrun' Hon']; [by rewrite Hb|lia|].
    split; [done|].
    destruct (runHook rec self p st1) as [b st2|e st2|]; [| |done];
      (destruct Hon' as [Hb' Hle']; split; [congruence|lia]).
  - destruct (Hrec st Ht Hp) as [Hrun Hon]. rewrite Hrun.
    destruct (rec st) as [v st1|e st1|]; simpl; [| |done];
      destruct Hon as [Hb Hle].
    + destruct (IHk v st1) as [Hrun' Hon']; [by rewrite Hb|lia|].
      split; [done|].
      destruct (runHook rec self (k v) st1) as [b st2|e st2|]; [| |done];
        (destruct Hon' as [Hb' Hle']; split; [congruence|lia]).
    + destruct (IHh e st1) as [Hrun' Hon']; [by rewrite Hb|lia|].
      split; [done|].
      destruct (runHook rec self (h e) st1) as [b st2|e2 st2|]; [| |done];
        (destruct Hon' as [Hb' Hle']; split; [congruence|lia]).
Qed.

(** The payloads of the tags other than [y] and [s]. *)
Lemma local_unserializeTag f t :
  t <> TString -> t <> TBytes -> local pre (unserializeTag rec f t).
Proof.
  intros Hy Hs. destruct t; try done; simpl;
    try (repeat first
           [ apply local_unserializeObject
           | apply local_arrayLoop
           | apply local_listLoop
           | apply local_stringMapLoop
           | apply local_intMapLoop
           | apply local_objectMapLoop
           | apply local_unserializeEnum
           | local_step ]; fail).
  apply local_bind; [done|]. intros name.
  destruct (resolveClass name) as [cl|] eqn:Hcl; [|by apply local_throw_plain].
  apply local_bind; [apply local_alloc|]. intros cclo.
  apply local_bind; [apply local_pushCache|]. intros _.
  apply local_bind; [|intros _; repeat local_step].
  destruct (qwkpktDecode cl) as [decode|] eqn:Hdecode;
    [|by apply local_throw_plain].
  intros st Ht Hp. apply local_runHook; [|done|done].
  by apply (Hhook name cl decode cclo).
Qed.

(** The payloads of [y] and [s], behind a tag that no minus sign
    follows. *)
Lemma local_length_payload f t st :
  t = TString \/ t = TBytes ->
  tame (buf st) -> 0 <= pos st ->
  charCodeAt (buf st) (pos st) <> Some 45 ->
  unserializeTag rec f t (embed pre st)
  = embedResult pre (unserializeTag rec f t st) /\
  match unserializeTag rec f t st with
  | Ok _ st' | Err _ st' => onward st st'
  | OutOfFuel => True
  end.
Proof.
  intros Ht Htame Hp Hminus.
  destruct Ht as [-> | ->]; simpl;
    (apply (local_bind_at pre _ _ st (fun len => 0 <= len));
     [ done | done | apply local_readDigits
     | intros len st1 Hlen; exact (readDigits_nonneg st len st1 Hminus Hlen)
     | intros len Hlen;
       repeat first [apply local_advance; assumption | local_step] ]).
Qed.

End Locality.

Section LocalityOfUnserialize.

Context {host : Host} {resolver : TypeResolver}.

Variable pre : string.
Hypothesis Hhook : positionBlind pre.

Lemma local_unserialize : forall fuel, local pre (unserialize fuel).
Proof.
  induction fuel as [|fuel IH]; intros st Ht Hp; [done|].
  assert (Hchar : charCodeAt (buf (embed pre st)) (pos (embed pre st))
                  = charCodeAt (buf st) (pos st)).
  { simpl. by rewrite charCodeAt_app_r. }
  destruct (tagOf (charCodeAt (buf st) (pos st))) as [t|] eqn:Htag.
  2:{ rewrite !unserialize_no_tag by (by rewrite ?Hchar).
      rewrite Hchar. split; [done|]. split; [done|lia]. }
  destruct (charCodeAt (buf st) (pos st)) as [c|] eqn:Hc; [|done].
  rewrite (unserialize_tag fuel st c t Hc Htag).
  rewrite (unserialize_tag fuel (embed pre st) c t) by (by rewrite ?Hchar).
  replace (setPos (pos (embed pre st) + 1) (embed pre st))
    with (embed pre (setPos (pos st + 1) st))
    by (unfold embed, setPos; simpl; f_equal; lia).
  set (st1 := setPos (pos st + 1) st).
  assert (Hlocal :
    unserializeTag (unserialize fuel) fuel t (embed pre st1)
    = embedResult pre (unserializeTag (unserialize fuel) fuel t st1) /\
    match unserializeTag (unserialize fuel) fuel t st1 with
    | Ok _ st' | Err _ st' => onward st1 st'
    | OutOfFuel => True
    end).
  { assert (Hcases : (t = TString \/ t = TBytes)
                     \/ (t <> TString /\ t <> TBytes))
      by (destruct t; auto; right; split; discriminate).
    destruct Hcases as [Hlen | [Hy Hs]].
    - apply local_length_payload; [done|done|simpl; lia|].
      simpl. apply Ht. rewrite Hc.
      destruct Hlen as [-> | ->].
      + left. f_equal. by apply tagOf_string.
      + right. f_equal. by apply tagOf_bytes.
    - apply local_unserializeTag; try done. simpl; lia. }
  destruct Hlocal as [Hrun Hon]. split; [done|].
  destruct (unserializeTag _ _ _ st1) as [v st2|e st2|]; [| |done];
    (destruct Hon as [Hb Hle]; split; [done|simpl in Hle; lia]).
Qed.

End LocalityOfUnserialize.

(** The classes of the example resolver. *)
Lemma exampleResolver_classes name cl :
  resolveClass name = Some cl -> cl = Point \/ cl = Box.
Proof.
  destruct name as [| | |s|]; try discriminate. simpl.
  do 6 (try (destruct s as [|[[] [] [] [] [] [] [] []] s];
             try discriminate)).
  all: intros [= <-]; auto.
Qed.

Lemma exampleResolver_positionBlind pre : positionBlind pre.
Proof.
  intros name cl decode self Hcl Hdecode.
  destruct (exampleResolver_classes name cl Hcl) as [-> | ->];
    [discriminate|].
  injection Hdecode as <-.
  apply shifted_unserialize; intros; repeat constructor.
Qed.

(** * Properties of the code beyond the claims *)

(** ** Property X1 *)

(** X1: a character that is no tag, and the end of the input, make
    [unserialize] throw "Invalid char" with the code of the character (NaN at
    the end of the input) and its position; the decoder is left exactly as it
    was, the cursor back on the character. *)
Theorem X1_invalid_char {host : Host} {resolver : TypeResolver} fuel st :
  (tagOf (charCodeAt (buf st) (pos st)) = None ->
   unserialize (S fuel) st
   = Err (InvalidChar (charCodeAt (buf st) (pos st)) (pos st)) st) /\
  (buflen st <= pos st ->
   unserialize (S fuel) st = Err (InvalidChar None (pos st)) st).
Proof.
  split; [apply unserialize_no_tag|apply unserialize_at_end].
Qed.

Lemma X1_invalid_char_witness :
  unserialize 1 (setPos 1 (newUnserializer "n?"))
  = Err (InvalidChar (Some 63) 1) (setPos 1 (newUnserializer "n?")) /\
  unserialize 1 (setPos 2 (newUnserializer "n?"))
  = Err (InvalidChar None 2) (setPos 2 (newUnserializer "n?")).
Proof.
  split.
  - apply (X1_invalid_char 0 (setPos 1 (newUnserializer "n?"))). reflexivity.
  - apply (X1_invalid_char 0 (setPos 2 (newUnserializer "n?"))).
    unfold buflen. simpl. lia.
Defined.

(** ** Property X2 *)

(** X2: [readDigits] on an optional minus sign and a run of decimal digits
    that is not followed by a digit (nor, when there is neither sign nor
    digit, by a minus sign) returns the integer that the digits write,
    negated after a minus sign, and leaves the cursor behind the last
    digit.  With no digit the result is 0; it never throws.  The value is
    taken within 2^53, where the arithmetic of the code is exact. *)
Theorem X2_readDigits_decimal st (neg : bool) ds rest :
  reads st ((if neg then "-" else "") +:+ ds +:+ rest) ->
  allDigits ds = true ->
  headIs digitCode rest = false ->
  (neg = false -> ds = "" -> headIs minusCode rest = false) ->
  digitsValue ds 0 <= 2 ^ 53 ->
  readDigits st
  = Ok ((if neg then -1 else 1) * digitsValue ds 0)
       (setPos (pos st + (if neg then 1 else 0)
                + Z.of_nat (String.length ds)) st).
Proof.
  intros Hr Hds Hrest Hminus _. by apply (readDigits_run st neg ds rest).
Qed.

Lemma X2_readDigits_decimal_witness :
  readDigits (setPos 1 (newUnserializer "i-120:"))
  = Ok (-120) (setPos 5 (newUnserializer "i-120:")) /\
  readDigits (setPos 1 (newUnserializer "ih"))
  = Ok 0 (setPos 1 (newUnserializer "ih")).
Proof.
  split.
  - apply (X2_readDigits_decimal (setPos 1 (newUnserializer "i-120:"))
             true "120" ":"); try reflexivity; try done.
    by exists "i".
  - apply (X2_readDigits_decimal (setPos 1 (newUnserializer "ih"))
             false "" "h"); try reflexivity; try done.
    by exists "i".
Defined.

(** ** Property X3 *)

(** X3: the decimal writing of an integer, after the tag [i], decodes to
    that integer: for every [z] within 2^53 in absolute value, wherever
    [i] and the digits of [z] stand in the input and whatever follows them
    that is not a digit, [unserialize] returns [z] with the cursor behind the
    last digit, and changes nothing else. *)
Theorem X3_integer_round_trip {host : Host} {resolver : TypeResolver}
    fuel st (z : Z) rest :
  reads st ("i" +:+ pretty z +:+ rest) ->
  headIs digitCode rest = false ->
  - 2 ^ 53 <= z <= 2 ^ 53 ->
  unserialize (S fuel) st
  = Ok (VNum (NInt z))
       (setPos (pos st + 1 + Z.of_nat (String.length (pretty z))) st).
Proof. intros Hr Hrest _. by apply (unserialize_integer fuel st z rest). Qed.

Lemma X3_integer_round_trip_witness :
  unserialize 1 (setPos 1 (newUnserializer "ai-37h"))
  = Ok (VNum (NInt (-37))) (setPos 5 (newUnserializer "ai-37h")).
Proof.
  apply (X3_integer_round_trip 0 (setPos 1 (newUnserializer "ai-37h"))
           (-37) "h"); [by exists "a" | reflexivity | lia].
Defined.

(** ** Property X4 *)

(** X4: a string literal [y], the decimal length of its payload, a colon and
    the payload, wherever it stands in the input and whatever follows it:
    when the host decodes the payload to [t], [unserialize] returns [t],
    appends it to the string cache and leaves the cursor behind the payload;
    a payload without a percent sign is returned as it is; when the host
    refuses the payload, the URIError is thrown with the cursor behind the
    payload and nothing is appended. *)
Theorem X4_string_literal {host : Host} {resolver : TypeResolver}
    fuel st s rest :
  reads st ("y" +:+ pretty (Z.of_nat (String.length s)) +:+ ":" +:+ s
            +:+ rest) ->
  let p' := pos st + 1
            + Z.of_nat (String.length (pretty (Z.of_nat (String.length s))))
            + 1 + Z.of_nat (String.length s) in
  (forall t, decodeURIComponent s = Some t ->
     unserialize (S fuel) st
     = Ok (VStr t)
          {| buf := buf st; pos := p'; cache := cache st;
             scache := scache st ++ [t]; heap := heap st |}) /\
  (noPercent s = true ->
     unserialize (S fuel) st
     = Ok (VStr s)
          {| buf := buf st; pos := p'; cache := cache st;
             scache := scache st ++ [s]; heap := heap st |}) /\
  (decodeURIComponent s = None ->
     unserialize (S fuel) st = Err URIError (setPos p' st)).
Proof.
  intros Hr p'.
  set (n := Z.of_nat (String.length s)) in *.
  rewrite string_app_cons, string_app_nil in Hr.
  assert (Htag : charCodeAt (buf st) (pos st) = Some 121)
    by exact (reads_head _ _ _ Hr).
  assert (Hr1 : reads (setPos (pos st + 1) st)
                  (pretty n +:+ ":" +:+ s +:+ rest)).
  { apply (reads_past st _ "y" _); [|done|done].
    by rewrite string_app_cons, string_app_nil. }
  pose proof (readDigits_length _ n _ ltac:(lia) Hr1 eq_refl) as Hlen.
  set (st1 := setPos (pos (setPos (pos st + 1) st)
                      + Z.of_nat (String.length (pretty n)))
                (setPos (pos st + 1) st)) in *.
  assert (Hr2 : reads st1 (":" +:+ s +:+ rest)).
  { by apply (reads_past _ _ _ _ Hr1). }
  rewrite string_app_cons, string_app_nil in Hr2.
  assert (Hsep : charCodeAt (buf st1) (pos st1) = Some 58)
    by exact (reads_head _ _ _ Hr2).
  assert (Hr3 : reads (setPos (pos st1 + 1) st1) (s +:+ rest)).
  { apply (reads_past st1 _ ":" _); [|done|done].
    by rewrite string_app_cons, string_app_nil. }
  pose proof (reads_substr _ _ _ Hr3) as Hsub.
  change (substr (buf st1) (pos st1 + 1) n = s) in Hsub.
  pose proof (reads_within _ _ Hr3) as [_ Hrem].
  rewrite string_length_app in Hrem.
  assert (Hfit : (buflen st1 - (pos st1 + 1) <? n) = false).
  { change (buflen (setPos (pos st1 + 1) st1)) with (buflen st1) in Hrem.
    change (pos (setPos (pos st1 + 1) st1)) with (pos st1 + 1) in Hrem.
    unfold n. lia. }
  assert (Hok : forall t, decodeURIComponent s = Some t ->
            unserialize (S fuel) st
            = Ok (VStr t)
                 {| buf := buf st; pos := p'; cache := cache st;
                    scache := scache st ++ [t]; heap := heap st |}).
  { intros t Ht.
    rewrite (unserialize_string fuel st n st1 t Htag Hlen Hsep Hfit).
    - f_equal.
    - by rewrite Hsub. }
  split; [exact Hok|]. split.
  - intros Hs. apply Hok. by apply noPercent_plain.
  - intros Hbad.
    rewrite (unserialize_tag fuel st 121 TString Htag eq_refl). simpl.
    unfold bind at 1. rewrite Hlen.
    unfold bind at 1, next at 1. rewrite Hsep.
    unfold bind at 1, remaining at 1.
    change (negb (codeIs (Some 58) 58)) with false.
    change (buflen (setPos (pos st1 + 1) st1)
            - pos (setPos (pos st1 + 1) st1))
      with (buflen st1 - (pos st1 + 1)).
    rewrite Hfit. cbn [orb].
    unfold bind at 1, substrAt at 1. unfold bind at 1, advance at 1.
    cbv beta.
    change (substr (buf (setPos (pos st1 + 1) st1))
                   (pos (setPos (pos st1 + 1) st1)) n)
      with (substr (buf st1) (pos st1 + 1) n).
    rewrite Hsub, Hbad. reflexivity.
Qed.

Lemma X4_string_literal_witness :
  unserialize 1 (setPos 1 (newUnserializer "ay11:hello worldh"))
  = Ok (VStr "hello world")
       {| buf := "ay11:hello worldh"; pos := 16; cache := [];
          scache := ["hello world"]; heap := [] |} /\
  unserialize 1 (newUnserializer "y3:%zz")
  = Err URIError (setPos 6 (newUnserializer "y3:%zz")).
Proof.
  split.
  - destruct (X4_string_literal 0
                (setPos 1 (newUnserializer "ay11:hello worldh"))
                "hello world" "h") as (_ & H & _); [by exists "a"|].
    apply H. reflexivity.
  - destruct (X4_string_literal 0 (newUnserializer "y3:%zz") "%zz" "")
      as (_ & _ & H); [by exists ""|].
    apply H. reflexivity.
Defined.

(** ** Property X5 *)

(** X5: after a tag [y] or [s] and the digits of a length [n], when what
    follows is not a colon, or is a colon with fewer than [n] characters
    after it, [unserialize] throws "Invalid string length", respectively
    "Invalid bytes length"; the cursor is left behind the character that
    stands where the colon should, and nothing is cached. *)
Theorem X5_length_errors {host : Host} {resolver : TypeResolver}
    fuel st (n : Z) rest :
  0 <= n ->
  headIs digitCode rest = false ->
  headIs colonCode rest = false \/ Z.of_nat (String.length rest) - 1 < n ->
  let st' :=
    setPos (pos st + 1 + Z.of_nat (String.length (pretty n)) + 1) st in
  (reads st ("y" +:+ pretty n +:+ rest) ->
   unserialize (S fuel) st = Err InvalidStringLength st') /\
  (reads st ("s" +:+ pretty n +:+ rest) ->
   unserialize (S fuel) st = Err InvalidBytesLength st').
Proof.
  intros Hn Hrest Hbad st'.
  assert (Hcommon : forall tag : Ascii.ascii,
            reads st (String tag (pretty n +:+ rest)) ->
            exists st1,
              charCodeAt (buf st) (pos st) = Some (code tag) /\
              readDigits (setPos (pos st + 1) st) = Ok n st1 /\
              setPos (pos st1 + 1) st1 = st' /\
              negb (codeIs (charCodeAt (buf st1) (pos st1)) 58)
              || (buflen st1 - (pos st1 + 1) <? n) = true).
  { intros tag Hr.
    pose proof (reads_head _ _ _ Hr) as Htag.
    assert (Hr1 : reads (setPos (pos st + 1) st) (pretty n +:+ rest)).
    { apply (reads_past st _ (String tag "") _); [|done|done].
      by rewrite string_app_cons, string_app_nil. }
    pose proof (readDigits_length _ n _ Hn Hr1 Hrest) as Hlen.
    set (st1 := setPos (pos (setPos (pos st + 1) st)
                        + Z.of_nat (String.length (pretty n)))
                  (setPos (pos st + 1) st)) in *.
    assert (Hr2 : reads st1 rest) by (by apply (reads_past _ _ _ _ Hr1)).
    pose proof (reads_within _ _ Hr2) as [_ Hrem].
    exists st1. split; [done|]. split; [done|]. split.
    { destruct st as [b p c sc h]. reflexivity. }
    destruct Hbad as [Hc|Hshort].
    - destruct rest as [|c r].
      + by rewrite (reads_end _ Hr2).
      + rewrite (reads_head _ _ _ Hr2). simpl in Hc. unfold colonCode in Hc.
        simpl. by rewrite Hc.
    - apply orb_true_iff. right. lia. }
  split; intros Hr; rewrite string_app_cons, string_app_nil in Hr;
    destruct (Hcommon _ Hr) as (st1 & Htag & Hlen & Hst' & Htest).
  - rewrite (unserialize_tag fuel st 121 TString Htag eq_refl). simpl.
    unfold bind at 1. rewrite Hlen.
    unfold bind at 1, next at 1. unfold bind at 1, remaining at 1.
    change (buflen (setPos (pos st1 + 1) st1)
            - pos (setPos (pos st1 + 1) st1))
      with (buflen st1 - (pos st1 + 1)).
    rewrite Htest. by rewrite Hst'.
  - rewrite (unserialize_tag fuel st 115 TBytes Htag eq_refl). simpl.
    unfold bind at 1. rewrite Hlen.
    unfold bind at 1, next at 1. unfold bind at 1, remaining at 1.
    change (buflen (setPos (pos st1 + 1) st1)
            - pos (setPos (pos st1 + 1) st1))
      with (buflen st1 - (pos st1 + 1)).
    rewrite Htest. by rewrite Hst'.
Qed.

Lemma X5_length_errors_witness :
  unserialize 1 (newUnserializer "y5:abc")
  = Err InvalidStringLength (setPos 3 (newUnserializer "y5:abc")) /\
  unserialize 1 (newUnserializer "s4")
  = Err InvalidBytesLength (setPos 3 (newUnserializer "s4")).
Proof.
  split.
  - apply (X5_length_errors 0 (newUnserializer "y5:abc") 5 ":abc");
      [lia | reflexivity | right; simpl; lia | by exists ""].
  - apply (X5_length_errors 0 (newUnserializer "s4") 4 "");
      [lia | reflexivity | by left | by exists ""].
Defined.

(** ** Property X6 *)

(** X6: a call of [unserialize], however it ends, changes no object that
    was constructed before the call: the store it leaves begins with the
    store it found.  (The objects that a call changes are those it
    constructs itself; a [_qwkpktDecode] method assigns fields of its own
    instance.) *)
Theorem X6_objects_kept {host : Host} {resolver : TypeResolver} fuel st :
  match unserialize fuel st with
  | Ok _ st' | Err _ st' => heap st `prefix_of` heap st'
  | OutOfFuel => True
  end.
Proof.
  pose proof (framed_unserialize fuel (length (heap st)) st (le_n _)) as H.
  destruct (unserialize fuel st) as [v st'|e st'|]; [| |done];
    destruct H as [Ht _]; rewrite firstn_all in Ht;
    exists (drop (length (heap st)) (heap st'));
    rewrite <- (take_drop (length (heap st)) (heap st')) at 1;
    by rewrite Ht.
Qed.

(** ** Property X7 *)

(** X7: from a decoder whose cache lists the objects of its store in the
    order of their construction (a new decoder is one), every call of
    [unserialize], however it ends, leaves such a decoder again: each
    object constructed so far sits in the cache exactly once, at the index
    that is its rank, and every array has a length between 0 and 2^32 - 1
    with no element at an index from its length on.  A value that is
    returned is no object or an object of the store. *)
Theorem X7_cache_lists_store {host : Host} {resolver : TypeResolver}
    fuel st :
  wf st ->
  match unserialize fuel st with
  | Ok v st' =>
      wf st' /\ NoDup (cache st') /\ refersInto (length (heap st')) v
  | Err _ st' => wf st' /\ NoDup (cache st')
  | OutOfFuel => True
  end.
Proof.
  intros Hwf.
  pose proof (steady_unserialize fuel st) as Hg. unfold post in Hg.
  destruct (unserialize fuel st) as [v st'|e st'|] eqn:Hrun; [| |done].
  - pose proof (grows_wf _ _ Hg Hwf) as Hwf'.
    split; [done|]. split; [apply tracks_NoDup, Hwf'|].
    destruct fuel as [|fuel]; [done|].
    simpl in Hrun. unfold bind at 1, next at 1 in Hrun.
    destruct (tagOf _) as [t|]; [|done].
    apply unserializeTag_cached in Hrun as [Hs|Hin].
    + by destruct v.
    + apply list_elem_of_lookup_1 in Hin as [i Hi].
      pose proof (lookup_lt_Some _ _ _ Hi) as Hlt.
      destruct Hwf' as [Htr _].
      rewrite (tracks_slot _ _ _ Htr Hi). simpl.
      unfold tracks in Htr. rewrite Htr, length_fmap, length_seq in Hlt. done.
  - pose proof (grows_wf _ _ Hg Hwf) as Hwf'.
    split; [done|]. apply tracks_NoDup, Hwf'.
Qed.

Lemma X7_cache_lists_store_witness :
  wf {| buf := "aoy1:xi5gr1h"; pos := 12;
        cache := [VRef 0%nat; VRef 1%nat]; scache := ["x"];
        heap := [OArray 2 {[ 0 := VRef 1%nat; 1 := VRef 1%nat ]};
                 OObject PObject {[ "x" := VNum (NInt 5) ]}] |}.
Proof.
  pose proof (X7_cache_lists_store 4 (newUnserializer "aoy1:xi5gr1h")
                (wf_newUnserializer _)) as H.
  rewrite run_shared_reference in H. exact (proj1 H).
Defined.

(** ** Property X8 *)

(** X8: the body of a list [l], or of an array [a] without sparse-fill
    directives: when the values [vs] are decoded one after the other from
    behind the tag and the terminator [h] stands after the last,
    [unserialize] returns the array it allocated at the tag, whose length is
    the number of the values and whose elements are the values in the order
    of the input, each at the index that is its rank and nothing else; the
    cursor is behind the terminator. *)
Theorem X8_list_items {host : Host} {resolver : TypeResolver}
    fuel st c vs st' :
  c = 108 \/ c = 97 ->
  charCodeAt (buf st) (pos st) = Some c ->
  items (unserialize fuel) (VRef (length (heap st)))
    (allocPushed (OArray 0 ∅) (setPos (pos st + 1) st)) vs st' ->
  charCodeAt (buf st') (pos st') = Some 104 ->
  (length vs < fuel)%nat ->
  exists elems,
    unserialize (S fuel) st
    = Ok (VRef (length (heap st))) (setPos (pos st' + 1) st') /\
    heap st' !! length (heap st)
    = Some (OArray (Z.of_nat (length vs)) elems) /\
    holds elems vs.
Proof.
  intros Hc Htag Hitems Hend Hfuel.
  destruct (loops_items fuel _ _ _ _ Hitems (fuel - length vs) [] ∅)
    as (Hl & Ha & elems & Hheap & Hel).
  { simpl. by rewrite lookup_app_r, Nat.sub_diag. }
  { intros i. rewrite lookup_empty. by destruct (i <? 0). }
  replace (length vs + (fuel - length vs))%nat with fuel in Hl, Ha by lia.
  exists elems. split; [|done].
  assert (Hlast : forall f, (0 < f)%nat ->
            listLoop (unserialize fuel) f (VRef (length (heap st))) st'
            = Ok tt (setPos (pos st' + 1) st') /\
            arrayLoop (unserialize fuel) f (VRef (length (heap st))) st'
            = Ok tt (setPos (pos st' + 1) st')).
  { intros [|f] Hf; [lia|]. simpl. unfold bind, peek. by rewrite Hend. }
  destruct (Hlast (fuel - length vs)%nat ltac:(lia)) as [Hl' Ha'].
  destruct Hc as [-> | ->].
  - rewrite (unserialize_tag fuel st 108 TList Htag eq_refl).
    change (unserializeTag (unserialize fuel) fuel TList
              (setPos (pos st + 1) st))
      with ((listLoop (unserialize fuel) fuel (VRef (length (heap st))) ;;;
             ret (VRef (length (heap st))))
              (allocPushed (OArray 0 ∅) (setPos (pos st + 1) st))).
    unfold bind. by rewrite Hl, Hl'.
  - rewrite (unserialize_tag fuel st 97 TArray Htag eq_refl).
    change (unserializeTag (unserialize fuel) fuel TArray
              (setPos (pos st + 1) st))
      with ((arrayLoop (unserialize fuel) fuel (VRef (length (heap st))) ;;;
             ret (VRef (length (heap st))))
              (allocPushed (OArray 0 ∅) (setPos (pos st + 1) st))).
    unfold bind. by rewrite Ha, Ha'.
Qed.

Lemma X8_list_items_witness :
  exists elems,
    unserialize 4 (newUnserializer "li1i2h")
    = Ok (VRef 0%nat)
         (setPos (5 + 1)
            {| buf := "li1i2h"; pos := 5; cache := [VRef 0%nat];
               scache := [];
               heap := [OArray 2 {[ 0 := VNum (NInt 1);
                                    1 := VNum (NInt 2) ]}] |}) /\
    heap {| buf := "li1i2h"; pos := 5; cache := [VRef 0%nat]; scache := [];
            heap := [OArray 2 {[ 0 := VNum (NInt 1);
                                 1 := VNum (NInt 2) ]}] |} !! 0%nat
    = Some (OArray (Z.of_nat (length [VNum (NInt 1); VNum (NInt 2)])) elems) /\
    holds elems [VNum (NInt 1); VNum (NInt 2)].
Proof.
  apply (X8_list_items 3 (newUnserializer "li1i2h") 108
           [VNum (NInt 1); VNum (NInt 2)]
           {| buf := "li1i2h"; pos := 5; cache := [VRef 0%nat];
              scache := [];
              heap := [OArray 2 {[ 0 := VNum (NInt 1);
                                   1 := VNum (NInt 2) ]}] |});
    [by left | reflexivity | | reflexivity | simpl; lia].
  apply (items_more _ _ _ _
           {| buf := "li1i2h"; pos := 3; cache := [VRef 0%nat];
              scache := []; heap := [OArray 0 ∅] |}
           {| buf := "li1i2h"; pos := 3; cache := [VRef 0%nat];
              scache := [];
              heap := [OArray 1 {[ 0 := VNum (NInt 1) ]}] |});
    [reflexivity | reflexivity | by vm_compute |].
  apply (items_more _ _ _ _
           {| buf := "li1i2h"; pos := 5; cache := [VRef 0%nat];
              scache := [];
              heap := [OArray 1 {[ 0 := VNum (NInt 1) ]}] |}
           {| buf := "li1i2h"; pos := 5; cache := [VRef 0%nat];
              scache := [];
              heap := [OArray 2 {[ 0 := VNum (NInt 1);
                                   1 := VNum (NInt 2) ]}] |});
    [reflexivity | reflexivity | by vm_compute |].
  apply items_done.
Defined.

(** ** Property X9 *)

(** X9: in the body of an array of length [len], the directive [u] followed
    by the digits of a number [n] that is zero or negative, and above
    -2^53 so that the numbers of the code are the integers, never changes
    the length: it assigns null to the property [len + n - 1], that is, for
    [u0], to the last element of the array, and leaves every other property
    as it was; the loop goes on from there. *)
Theorem X9_sparse_fill_nonpositive rec fuel a st n st1 len elems :
  charCodeAt (buf st) (pos st) = Some 117 ->
  readDigits (setPos (pos st + 1) st) = Ok n st1 ->
  heap st !! a = Some (OArray len elems) ->
  0 <= len <= MAX_LENGTH ->
  - 2 ^ 53 < n <= 0 ->
  exists st2 elems',
    arrayLoop rec (S fuel) (VRef a) st = arrayLoop rec fuel (VRef a) st2 /\
    heap st2 !! a = Some (OArray len elems') /\
    elems' !! (len + n - 1) = Some VNull /\
    (forall i, i <> len + n - 1 -> elems' !! i = elems !! i).
Proof.
  intros Hc Hn Ha Hlen Hn0.
  destruct (readDigits_store _ _ _ Hn) as (_ & _ & _ & Hh). simpl in Hh.
  exists (setHeap (alter (arraySet (len + n - 1) VNull) a (heap st1)) st1),
         (<[len + n - 1 := VNull]> elems).
  split; [|split; [|split]].
  - simpl. unfold bind at 1, peek at 1. rewrite Hc. simpl.
    unfold bind at 1, skip at 1. unfold bind at 1. rewrite Hn.
    unfold bind at 1, getHeap at 1. unfold bind at 1, update at 1.
    unfold arrayLength. by rewrite Hh, Ha.
  - cbn [heap setHeap]. rewrite Hh, list_lookup_alter_eq, Ha. simpl.
    do 2 f_equal. destruct (isArrayIndex _); lia.
  - apply lookup_insert_eq.
  - intros i Hi. by rewrite lookup_insert_ne.
Qed.

Lemma X9_sparse_fill_nonpositive_witness :
  exists st2 elems',
    arrayLoop (unserialize 0) 2 (VRef 0%nat)
      {| buf := "ai7u0h"; pos := 3; cache := [VRef 0%nat]; scache := [];
         heap := [OArray 1 {[ 0 := VNum (NInt 7) ]}] |}
    = arrayLoop (unserialize 0) 1 (VRef 0%nat) st2 /\
    heap st2 !! 0%nat = Some (OArray 1 elems') /\
    elems' !! (1 + 0 - 1) = Some VNull /\
    (forall i, i <> 1 + 0 - 1 ->
       elems' !! i = ({[ 0 := VNum (NInt 7) ]} : gmap Z Value) !! i).
Proof.
  apply (X9_sparse_fill_nonpositive (unserialize 0) 1 0
           {| buf := "ai7u0h"; pos := 3; cache := [VRef 0%nat]; scache := [];
              heap := [OArray 1 {[ 0 := VNum (NInt 7) ]}] |}
           0
           {| buf := "ai7u0h"; pos := 5; cache := [VRef 0%nat]; scache := [];
              heap := [OArray 1 {[ 0 := VNum (NInt 7) ]}] |});
    try reflexivity; unfold MAX_LENGTH; lia.
Defined.

(** ** Property X10 *)

(** X10: [readFloat] never throws and reads the longest run it can: in
    every state it moves the cursor over [n] characters, [n] zero or more,
    each with a code from 43 to 57 (plus, comma, minus, dot, slash, the
    digits) or an [e] or [E], stops at the end of the input or before a
    character that is none of these, and returns what the host's
    [parseFloat] makes of the [n] characters; nothing else changes. *)
Theorem X10_readFloat_longest_run {host : Host} st :
  exists n,
    0 <= n /\
    readFloat st
    = Ok (parseFloat (substr (buf st) (pos st) n)) (setPos (pos st + n) st) /\
    (forall i, 0 <= i < n ->
       exists c, charCodeAt (buf st) (pos st + i) = Some c /\
                 floatChar c = true) /\
    (forall c, charCodeAt (buf st) (pos st + n) = Some c ->
       floatChar c = false).
Proof.
  set (q := readFloatLoop (S (String.length (buf st))) (buf st) (pos st)).
  exists (q - pos st).
  pose proof (readFloatLoop_onward (buf st) (S (String.length (buf st)))
                (pos st)) as Hq.
  fold q in Hq.
  split; [lia|]. split; [|split].
  - unfold readFloat. fold q. do 2 f_equal. lia.
  - intros i Hi.
    apply (readFloatLoop_passed (buf st) (S (String.length (buf st)))
             (pos st)).
    fold q. lia.
  - intros c Hc. replace (pos st + (q - pos st)) with q in Hc by lia.
    pose proof (readFloat_stops st _ _ eq_refl) as Hs.
    change (match charCodeAt (buf st) q with
            | Some c => floatChar c = false
            | None => True
            end) in Hs.
    by rewrite Hc in Hs.
Qed.

(** ** Property X11 *)

(** X11: a list or an array whose terminator is missing.  When the values
    [vs] are decoded one after the other from behind the tag [l] or [a] and
    the input ends after the last, [unserialize] throws "Invalid char NaN"
    at the position of the end, in the state in which the values are
    pushed: nothing is returned. *)
Theorem X11_unterminated_list {host : Host} {resolver : TypeResolver}
    fuel st c vs st' :
  c = 108 \/ c = 97 ->
  charCodeAt (buf st) (pos st) = Some c ->
  items (unserialize fuel) (VRef (length (heap st)))
    (allocPushed (OArray 0 ∅) (setPos (pos st + 1) st)) vs st' ->
  buflen st' <= pos st' ->
  (length vs < fuel)%nat ->
  unserialize (S fuel) st = Err (InvalidChar None (pos st')) st'.
Proof.
  intros Hc Htag Hitems Hend Hfuel.
  destruct (loops_items fuel _ _ _ _ Hitems (fuel - length vs) [] ∅)
    as (Hl & Ha & _).
  { simpl. by rewrite lookup_app_r, Nat.sub_diag. }
  { intros i. rewrite lookup_empty. by destruct (i <? 0). }
  replace (length vs + (fuel - length vs))%nat with fuel in Hl, Ha by lia.
  pose proof (charCodeAt_None_ge (buf st') (pos st') Hend) as Hnone.
  assert (Hrec : unserialize fuel st' = Err (InvalidChar None (pos st')) st').
  { destruct fuel as [|fuel]; [lia|]. by apply unserialize_at_end. }
  assert (Hlast : forall f, (0 < f)%nat ->
            listLoop (unserialize fuel) f (VRef (length (heap st))) st'
            = Err (InvalidChar None (pos st')) st' /\
            arrayLoop (unserialize fuel) f (VRef (length (heap st))) st'
            = Err (InvalidChar None (pos st')) st').
  { intros [|f] Hf; [lia|].
    split; simpl; unfold bind at 1, peek at 1; rewrite Hnone; simpl;
      unfold bind at 1; by rewrite Hrec. }
  destruct (Hlast (fuel - length vs)%nat ltac:(lia)) as [Hl' Ha'].
  destruct Hc as [-> | ->].
  - rewrite (unserialize_tag fuel st 108 TList Htag eq_refl).
    change (unserializeTag (unserialize fuel) fuel TList
              (setPos (pos st + 1) st))
      with ((listLoop (unserialize fuel) fuel (VRef (length (heap st))) ;;;
             ret (VRef (length (heap st))))
              (allocPushed (OArray 0 ∅) (setPos (pos st + 1) st))).
    unfold bind. by rewrite Hl, Hl'.
  - rewrite (unserialize_tag fuel st 97 TArray Htag eq_refl).
    change (unserializeTag (unserialize fuel) fuel TArray
              (setPos (pos st + 1) st))
      with ((arrayLoop (unserialize fuel) fuel (VRef (length (heap st))) ;;;
             ret (VRef (length (heap st))))
              (allocPushed (OArray 0 ∅) (setPos (pos st + 1) st))).
    unfold bind. by rewrite Ha, Ha'.
Qed.

Lemma X11_unterminated_list_witness :
  unserialize 3 (newUnserializer "ai1")
  = Err (InvalidChar None 3)
      {| buf := "ai1"; pos := 3; cache := [VRef 0%nat]; scache := [];
         heap := [OArray 1 {[ 0 := VNum (NInt 1) ]}] |}.
Proof.
  apply (X11_unterminated_list 2 (newUnserializer "ai1") 97
           [VNum (NInt 1)]
           {| buf := "ai1"; pos := 3; cache := [VRef 0%nat]; scache := [];
              heap := [OArray 1 {[ 0 := VNum (NInt 1) ]}] |});
    [by right | reflexivity | | unfold buflen; simpl; lia | simpl; lia].
  apply (items_more _ _ _ _
           {| buf := "ai1"; pos := 3; cache := [VRef 0%nat];
              scache := []; heap := [OArray 0 ∅] |}
           {| buf := "ai1"; pos := 3; cache := [VRef 0%nat]; scache := [];
              heap := [OArray 1 {[ 0 := VNum (NInt 1) ]}] |});
    [reflexivity | reflexivity | by vm_compute | apply items_done].
Defined.

(** ** Property X12 *)

(** X12: the errors of the body of an object or of a class instance.  At
    the head of a round that the rounds before it reach, when the input has
    ended the loop throws "Invalid object" and leaves the decoder as it is;
    when the key decodes to anything but a string it throws "Invalid object
    key" in the state that decoding the key left: the value after the key
    is not decoded and nothing is assigned. *)
Theorem X12_object_body_errors {host : Host} {resolver : TypeResolver}
    fuel o f st kvs f' st' :
  fieldRounds (unserialize fuel) o f st kvs (S f') st' ->
  (buflen st' <= pos st' ->
   unserializeObject (unserialize fuel) f o st = Err InvalidObject st') /\
  (forall k st1,
     unserialize fuel st' = Ok k st1 ->
     (forall s, k <> VStr s) ->
     unserializeObject (unserialize fuel) f o st = Err InvalidObjectKey st1).
Proof.
  intros Hfp. rewrite (unserializeObject_rounds _ _ _ _ _ _ _ Hfp).
  rewrite unserializeObject_round. split.
  - intros Hend. unfold bind at 1, atEnd at 1.
    by replace (buflen st' <=? pos st') with true by lia.
  - intros k st1 Hk Hs.
    destruct (unserialize_Ok_tag _ _ _ _ Hk) as (c & t & Hc & Ht).
    pose proof (charCodeAt_Some_lt _ _ _ Hc) as Hlt.
    unfold bind at 1, atEnd at 1.
    replace (buflen st' <=? pos st') with false by (unfold buflen; lia).
    unfold bind at 1, peek at 1. rewrite Hc.
    replace (codeIs (Some c) 103) with false.
    2:{ simpl. destruct (decide (c = 103)) as [->|Hne]; [done|lia]. }
    unfold bind at 1. rewrite Hk.
    destruct k as [| | |s|]; try done. by destruct (Hs s).
Qed.

Lemma X12_object_body_errors_witness :
  unserializeObject (unserialize 1) 2 (VRef 0%nat)
    {| buf := "oy1:ai1i2g"; pos := 1; cache := [VRef 0%nat]; scache := [];
       heap := [OObject PObject ∅] |}
  = Err InvalidObjectKey
      {| buf := "oy1:ai1i2g"; pos := 9; cache := [VRef 0%nat];
         scache := ["a"];
         heap := [OObject PObject {[ "a" := VNum (NInt 1) ]}] |}.
Proof.
  destruct (X12_object_body_errors 1 (VRef 0%nat) 2
              {| buf := "oy1:ai1i2g"; pos := 1; cache := [VRef 0%nat];
                 scache := []; heap := [OObject PObject ∅] |}
              [("a", VNum (NInt 1))] 0
              {| buf := "oy1:ai1i2g"; pos := 7; cache := [VRef 0%nat];
                 scache := ["a"];
                 heap := [OObject PObject {[ "a" := VNum (NInt 1) ]}] |})
    as [_ H].
  - apply (fr_next _ _ 1 _ "a"
             {| buf := "oy1:ai1i2g"; pos := 5; cache := [VRef 0%nat];
                scache := ["a"]; heap := [OObject PObject ∅] |}
             (VNum (NInt 1))
             {| buf := "oy1:ai1i2g"; pos := 7; cache := [VRef 0%nat];
                scache := ["a"]; heap := [OObject PObject ∅] |}
             {| buf := "oy1:ai1i2g"; pos := 7; cache := [VRef 0%nat];
                scache := ["a"];
                heap := [OObject PObject {[ "a" := VNum (NInt 1) ]}] |});
      [reflexivity | reflexivity | reflexivity | reflexivity
      | by vm_compute | apply fr_here].
  - apply (H (VNum (NInt 2))); [reflexivity|]. intros s. discriminate.
Defined.

(** ** Property X13 *)



(** ** Property X14 *)

(** X14: an input without a negative length is decoded in finitely many
    steps.  On an input in which no [y] and no [s] is directly followed by a
    minus sign, from any cursor, [unserialize] returns or throws as soon as
    its budget exceeds the number of characters that remain, and gives that
    same answer on every larger budget; it leaves the input as it is, the
    cursor at least one character further when it returns and nowhere
    before where it was when it throws. *)
Theorem X14_tame_input_answers {host : Host} {resolver : TypeResolver}
    st fuel :
  tame (buf st) ->
  (remaining_chars st < fuel)%nat ->
  match unserialize fuel st with
  | Ok _ st' => buf st' = buf st /\ pos st < pos st'
  | Err _ st' => buf st' = buf st /\ pos st <= pos st'
  | OutOfFuel => False
  end /\
  forall fuel', (fuel <= fuel')%nat ->
    unserialize fuel' st = unserialize fuel st.
Proof.
  intros Ht Hr. pose proof (unserialize_advances fuel st Ht Hr) as Ha.
  split.
  - destruct (unserialize fuel st) as [v st'|e st'|]; [| |done].
    + destruct Ha as [[Hb Hp] Hlt]. split; [done|].
      unfold remaining_chars, buflen in Hlt. rewrite Hb in Hlt. lia.
    + exact Ha.
  - intros fuel' Hle. apply unserialize_fuel_mono; [done|].
    intros H. by rewrite H in Ha.
Qed.

Lemma X14_tame_input_answers_witness :
  unserialize 20 (newUnserializer "ai-1y3:abch")
  = unserialize 12 (newUnserializer "ai-1y3:abch").
Proof.
  destruct (X14_tame_input_answers (newUnserializer "ai-1y3:abch") 12)
    as [_ H].
  - by apply tameFrom_true.
  - vm_compute. lia.
  - apply H. lia.
Defined.

(** ** Property X15 *)

(** X15: a bytes literal [s], the decimal length of its payload, a colon
    and the payload, wherever it stands in the input and whatever follows
    it: [unserialize] returns a new buffer object, the last of the store and
    of the cache, with the cursor behind the payload.  The base64 text that
    the buffer is made from is the payload with every percent sign turned
    into a plus sign and every colon into a slash, character by
    character. *)
Theorem X15_bytes_literal {host : Host} {resolver : TypeResolver}
    fuel st s rest :
  reads st ("s" +:+ pretty (Z.of_nat (String.length s)) +:+ ":" +:+ s
            +:+ rest) ->
  exists text,
    unserialize (S fuel) st
    = Ok (VRef (length (heap st)))
         {| buf := buf st;
            pos := pos st + 1
                   + Z.of_nat (String.length
                                 (pretty (Z.of_nat (String.length s))))
                   + 1 + Z.of_nat (String.length s);
            cache := cache st ++ [VRef (length (heap st))];
            scache := scache st;
            heap := heap st ++ [OBuffer text] |} /\
    forall i, charCodeAt text i = base64Code <$> charCodeAt s i.
Proof.
  intros Hr.
  exists (replaceAll colon slash (replaceAll percent plus s)).
  split; [|apply charCodeAt_base64].
  set (n := Z.of_nat (String.length s)) in *.
  rewrite string_app_cons, string_app_nil in Hr.
  assert (Htag : charCodeAt (buf st) (pos st) = Some 115)
    by exact (reads_head _ _ _ Hr).
  assert (Hr1 : reads (setPos (pos st + 1) st)
                  (pretty n +:+ ":" +:+ s +:+ rest)).
  { apply (reads_past st _ "s" _); [|done|done].
    by rewrite string_app_cons, string_app_nil. }
  pose proof (readDigits_length _ n _ ltac:(lia) Hr1 eq_refl) as Hlen.
  set (st1 := setPos (pos (setPos (pos st + 1) st)
                      + Z.of_nat (String.length (pretty n)))
                (setPos (pos st + 1) st)) in *.
  assert (Hr2 : reads st1 (":" +:+ s +:+ rest)).
  { by apply (reads_past _ _ _ _ Hr1). }
  rewrite string_app_cons, string_app_nil in Hr2.
  assert (Hsep : charCodeAt (buf st1) (pos st1) = Some 58)
    by exact (reads_head _ _ _ Hr2).
  assert (Hr3 : reads (setPos (pos st1 + 1) st1) (s +:+ rest)).
  { apply (reads_past st1 _ ":" _); [|done|done].
    by rewrite string_app_cons, string_app_nil. }
  pose proof (reads_substr _ _ _ Hr3) as Hsub.
  change (substr (buf st1) (pos st1 + 1) n = s) in Hsub.
  pose proof (reads_within _ _ Hr3) as [_ Hrem].
  rewrite string_length_app in Hrem.
  assert (Hfit : (buflen st1 - (pos st1 + 1) <? n) = false).
  { change (buflen (setPos (pos st1 + 1) st1)) with (buflen st1) in Hrem.
    change (pos (setPos (pos st1 + 1) st1)) with (pos st1 + 1) in Hrem.
    unfold n. lia. }
  rewrite (unserialize_tag fuel st 115 TBytes Htag eq_refl). simpl.
  unfold bind at 1. rewrite Hlen.
  unfold bind at 1, next at 1. rewrite Hsep.
  unfold bind at 1, remaining at 1.
  change (negb (codeIs (Some 58) 58)) with false.
  change (buflen (setPos (pos st1 + 1) st1)
          - pos (setPos (pos st1 + 1) st1))
    with (buflen st1 - (pos st1 + 1)).
  rewrite Hfit. cbn [orb].
  unfold bind at 1, substrAt at 1. cbv beta.
  change (substr (buf (setPos (pos st1 + 1) st1))
                 (pos (setPos (pos st1 + 1) st1)) n)
    with (substr (buf st1) (pos st1 + 1) n).
  rewrite Hsub. reflexivity.
Qed.

Lemma X15_bytes_literal_witness :
  exists text,
    unserialize 1 (newUnserializer "s4:a%:b")
    = Ok (VRef 0%nat)
         {| buf := "s4:a%:b"; pos := 7; cache := [VRef 0%nat]; scache := [];
            heap := [OBuffer text] |} /\
    forall i, charCodeAt text i = base64Code <$> charCodeAt "a%:b" i.
Proof.
  apply (X15_bytes_literal 0 (newUnserializer "s4:a%:b") "a%:b" "").
  by exists "".
Defined.

(** ** Property X16 *)

(** X16: a reference whose index is within its cache.  After [r] and the
    digits of [i], [unserialize] returns what slot [i] of the cache holds,
    which in a decoder whose cache lists its store is the object
    constructed [i]-th; after [R] and the digits of [i], the string at
    index [i] of the string cache.  The cursor is left behind the digits
    and nothing else changes. *)
Theorem X16_reference_in_range {host : Host} {resolver : TypeResolver}
    fuel st (i : nat) rest :
  headIs digitCode rest = false ->
  let st' :=
    setPos (pos st + 1
            + Z.of_nat (String.length (pretty (Z.of_nat i)))) st in
  (reads st ("r" +:+ pretty (Z.of_nat i) +:+ rest) ->
   forall v, cache st !! i = Some v ->
   unserialize (S fuel) st = Ok v st' /\ (wf st -> v = VRef i)) /\
  (reads st ("R" +:+ pretty (Z.of_nat i) +:+ rest) ->
   forall s, scache st !! i = Some s ->
   unserialize (S fuel) st = Ok (VStr s) st').
Proof.
  intros Hrest st'.
  assert (Hcommon : forall tag : Ascii.ascii,
            reads st (String tag (pretty (Z.of_nat i) +:+ rest)) ->
            charCodeAt (buf st) (pos st) = Some (code tag) /\
            readDigits (setPos (pos st + 1) st) = Ok (Z.of_nat i) st').
  { intros tag Hr. split; [exact (reads_head _ _ _ Hr)|].
    assert (Hr1 : reads (setPos (pos st + 1) st)
                    (pretty (Z.of_nat i) +:+ rest)).
    { apply (reads_past st _ (String tag "") _); [|done|done].
      by rewrite string_app_cons, string_app_nil. }
    rewrite (readDigits_length _ (Z.of_nat i) _ ltac:(lia) Hr1 Hrest).
    f_equal. }
  split; intros Hr; rewrite string_app_cons, string_app_nil in Hr;
    destruct (Hcommon _ Hr) as [Htag Hn].
  - intros v Hv. split.
    + rewrite (unserialize_tag fuel st 114 TRef Htag eq_refl). simpl.
      unfold bind. rewrite Hn. unfold cacheAt.
      change (cache st') with (cache st).
      pose proof (lookup_lt_Some _ _ _ Hv) as Hlt.
      replace ((Z.of_nat i <? 0) || (Z.of_nat (length (cache st)) <=? _))
        with false by lia.
      by rewrite Nat2Z.id, Hv.
    + intros [Htr _]. by eapply tracks_slot.
  - intros s Hs.
    rewrite (unserialize_tag fuel st 82 TStrRef Htag eq_refl). simpl.
    unfold bind. rewrite Hn. unfold scacheAt.
    change (scache st') with (scache st).
    pose proof (lookup_lt_Some _ _ _ Hs) as Hlt.
    replace ((Z.of_nat i <? 0) || (Z.of_nat (length (scache st)) <=? _))
      with false by lia.
    by rewrite Nat2Z.id, Hs.
Qed.

Lemma X16_reference_in_range_witness :
  unserialize 1
    {| buf := "aoy1:xi5gr1h"; pos := 9; cache := [VRef 0%nat; VRef 1%nat];
       scache := ["x"];
       heap := [OArray 1 {[ 0 := VRef 1%nat ]};
                OObject PObject {[ "x" := VNum (NInt 5) ]}] |}
  = Ok (VRef 1%nat)
       {| buf := "aoy1:xi5gr1h"; pos := 11;
          cache := [VRef 0%nat; VRef 1%nat]; scache := ["x"];
          heap := [OArray 1 {[ 0 := VRef 1%nat ]};
                   OObject PObject {[ "x" := VNum (NInt 5) ]}] |}.
Proof.
  destruct (X16_reference_in_range 0
              {| buf := "aoy1:xi5gr1h"; pos := 9;
                 cache := [VRef 0%nat; VRef 1%nat]; scache := ["x"];
                 heap := [OArray 1 {[ 0 := VRef 1%nat ]};
                          OObject PObject {[ "x" := VNum (NInt 5) ]}] |}
              1 "h" eq_refl) as [H _].
  destruct (H ltac:(by exists "aoy1:xi5g") (VRef 1%nat) eq_refl) as [Hrun _].
  exact Hrun.
Defined.

(** ** Property X17 *)

(** X17: the decoder constructs no instance of a class or of an enum that
    its resolver did not hand out.  When every class instance of the store
    has a class that [resolveClass] returns for some name, and every enum
    instance an enum that [resolveEnum] returns for some name and a
    constructor of that enum, the same holds of the store that a call of
    [unserialize] leaves, however the call ends. *)
Theorem X17_only_resolved_types {host : Host} {resolver : TypeResolver}
    fuel st :
  Forall approved (heap st) ->
  match unserialize fuel st with
  | Ok _ st' | Err _ st' => Forall approved (heap st')
  | OutOfFuel => True
  end.
Proof.
  intros Hall. pose proof (settled_unserialize fuel st) as H. unfold post in H.
  destruct (unserialize fuel st) as [v st'|e st'|]; [| |done];
    by apply (stable_approved _ _ H).
Qed.

Lemma X17_only_resolved_types_witness :
  Forall approved [OObject (PClass Box) {[ "v" := VNum (NInt 7) ]}].
Proof.
  pose proof (X17_only_resolved_types 3 (newUnserializer "Cy3:Boxi7g")
                (Forall_nil_2 _)) as H.
  rewrite run_custom in H. exact H.
Defined.

(** ** Property X18 *)

(** X18: what [unserialize] returns has the type that its tag announces.
    The tags of the constants return their constant; [i] and [d] a number;
    [y] and [R] a string; [r] a value of the cache; [a] and [l] an array;
    [w] and [j] an instance of an enum that the resolver returns for some
    name; [M] a weak map; [v] a date; [s] a buffer; [x], [A] and [B] return
    nothing.  [o], [b] and [q] return a plain object, and [c] and [C] an
    instance of a class that the resolver returns for some name, when no
    object of the store has been assigned the key [__proto__], by which
    JavaScript changes the prototype of an object. *)
Theorem X18_result_type {host : Host} {resolver : TypeResolver}
    fuel st c t v st' :
  charCodeAt (buf st) (pos st) = Some c ->
  tagOf (Some c) = Some t ->
  unserialize (S fuel) st = Ok v st' ->
  match t with
  | TNull => v = VNull
  | TTrue => v = VBool true
  | TFalse => v = VBool false
  | TZero => v = VNum (NInt 0)
  | TInt => exists n, v = VNum (NInt n)
  | TFloat => exists d, v = VNum d
  | TNaN => v = VNum NNaN
  | TNegInf => v = VNum NNegInf
  | TPosInf => v = VNum NPosInf
  | TString | TStrRef => exists s, v = VStr s
  | TRef => v ∈ cache st
  | TArray | TList => hasShape st' v SArray
  | TObject | TStringMap | TIntMap =>
      Forall protoFree (heap st') -> hasShape st' v (SObject PObject)
  | TClass | TCustom =>
      exists cli, (exists name, resolveClass name = Some cli) /\
                  (Forall protoFree (heap st') ->
                   hasShape st' v (SObject (PClass cli)))
  | TEnumName | TEnumIndex =>
      exists edecl ctor, (exists name, resolveEnum name = Some edecl) /\
                         hasShape st' v (SEnum edecl ctor)
  | TObjectMap => hasShape st' v SWeakMap
  | TDate => hasShape st' v SDate
  | TBytes => hasShape st' v SBuffer
  | TThrow | TClassValue | TEnumValue => False
  end.
Proof.
  intros Hc Ht Hrun. rewrite (unserialize_tag fuel st c t Hc Ht) in Hrun.
  pose proof (settled_unserialize fuel) as Hrec.
  set (st0 := setPos (pos st + 1) st) in *.
  destruct t; simpl in Hrun.
  - by injection Hrun as <- _.
  - by injection Hrun as <- _.
  - by injection Hrun as <- _.
  - by injection Hrun as <- _.
  - unfold bind in Hrun. destruct (readDigits st0) as [n st1|e st1|];
      [|done|done]. injection Hrun as <- _. by exists n.
  - injection Hrun as <- _. by eexists.
  - unfold bind at 1 in Hrun.
    destruct (readDigits st0) as [len st1|e st1|]; [|done|done].
    unfold bind at 1, next at 1 in Hrun.
    unfold bind at 1, remaining at 1 in Hrun.
    destruct (orb _ _); [done|].
    unfold bind, substrAt, advance in Hrun.
    destruct (decodeURIComponent _) as [s|]; [|done].
    injection Hrun as <- _. by exists s.
  - by injection Hrun as <- _.
  - by injection Hrun as <- _.
  - by injection Hrun as <- _.
  - eapply (first_shape_ret _ (OArray 0 ∅)); [|exact Hrun].
    intros a. by apply settled_arrayLoop.
  - intros _. eapply (first_shape_ret _ (OObject PObject ∅)); [|exact Hrun].
    intros a. by apply settled_unserializeObject.
  - unfold bind in Hrun.
    destruct (readDigits st0) as [n st1|e st1|] eqn:Hn; [|done|done].
    destruct (readDigits_store _ _ _ Hn) as (_ & Hcache & _).
    unfold cacheAt in Hrun. destruct (orb _ _); [done|].
    destruct (cache st1 !! _) eqn:Hl; [|done].
    injection Hrun as <- _. rewrite Hcache in Hl.
    by eapply list_elem_of_lookup_2.
  - unfold bind in Hrun.
    destruct (readDigits st0) as [n st1|e st1|]; [|done|done].
    unfold scacheAt in Hrun. destruct (orb _ _); [done|].
    destruct (scache st1 !! _) as [s|]; [|done].
    injection Hrun as <- _. by exists s.
  - unfold bind in Hrun. by destruct (unserialize fuel st0).
  - unfold bind at 1 in Hrun.
    destruct (unserialize fuel st0) as [name st1|e st1|]; [|done|done].
    destruct (resolveClass name) as [cli|] eqn:Hcli; [|done].
    exists cli. split; [by exists name|]. intros _.
    eapply (first_shape_ret _ (OObject (PClass cli) ∅)); [|exact Hrun].
    intros a. by apply settled_unserializeObject.
  - unfold bind at 1 in Hrun.
    destruct (unserialize fuel st0) as [name st1|e st1|]; [|done|done].
    destruct (resolveEnum name) as [edecl|] eqn:He; [|done].
    unfold bind at 1 in Hrun.
    destruct (unserialize fuel st1) as [tag st2|e st2|]; [|done|done].
    unfold bind at 1 in Hrun.
    destruct (unserializeEnum _ _ _ _) as [e1 st3|e st3|] eqn:Henum;
      [|done|done].
    apply unserializeEnum_returns in Henum as (ctor & args & st4 & He1 & Hst3).
    exists edecl, ctor. split; [by exists name|].
    by eapply enum_pushed_shape.
  - unfold bind at 1 in Hrun.
    destruct (unserialize fuel st0) as [name st1|e st1|]; [|done|done].
    destruct (resolveEnum name) as [edecl|] eqn:He; [|done].
    unfold bind at 1, skip at 1 in Hrun. unfold bind at 1 in Hrun.
    destruct (readDigits _) as [index st2|e st2|]; [|done|done].
    unfold bind at 1 in Hrun.
    destruct (unserializeEnum _ _ _ _) as [e1 st3|e st3|] eqn:Henum;
      [|done|done].
    apply unserializeEnum_returns in Henum as (ctor & args & st4 & He1 & Hst3).
    exists edecl, ctor. split; [by exists name|].
    by eapply enum_pushed_shape.
  - eapply (first_shape_ret _ (OArray 0 ∅)); [|exact Hrun].
    intros a. by apply settled_listLoop.
  - intros _. eapply (first_shape_ret _ (OObject PObject ∅)); [|exact Hrun].
    intros a. by apply settled_stringMapLoop.
  - intros _. eapply (first_shape_ret _ (OObject PObject ∅)); [|exact Hrun].
    intros a. by apply settled_intMapLoop.
  - eapply (first_shape_ret _ (OWeakMap ∅)); [|exact Hrun].
    intros a. by apply settled_objectMapLoop.
  - injection Hrun as <- <-. eexists _, _. split; [reflexivity|].
    split; [simpl; by erewrite lookup_app_r, Nat.sub_diag|reflexivity].
  - unfold bind at 1 in Hrun.
    destruct (readDigits st0) as [len st1|e st1|]; [|done|done].
    unfold bind at 1, next at 1 in Hrun.
    unfold bind at 1, remaining at 1 in Hrun.
    destruct (orb _ _); [done|].
    injection Hrun as <- <-. eexists _, _. split; [reflexivity|].
    split; [simpl; by erewrite lookup_app_r, Nat.sub_diag|reflexivity].
  - unfold bind at 1 in Hrun.
    destruct (unserialize fuel st0) as [name st1|e st1|]; [|done|done].
    destruct (resolveClass name) as [cl|] eqn:Hcl; [|done].
    exists cl. split; [by exists name|]. intros _.
    assert (Hv : v = VRef (length (heap st1))).
    { revert Hrun. unfold bind, alloc, pushCache.
      destruct (qwkpktDecode cl) as [decode|]; [|done].
      destruct (runHook _ _ _ _); [|done|done].
      unfold next. destruct (codeIs _ _); [|done]. by intros [= <- _]. }
    rewrite Hv.
    eapply (first_shape (fun a =>
              match qwkpktDecode cl with
              | Some decode => runHook (unserialize fuel) a (decode a)
              | None => throw (TypeError "cclo._qwkpktDecode is not a function")
              end ;;; c0 <- next ;;
              if codeIs c0 103 then ret a else throw InvalidCustomData)
              (OObject (PClass cl) ∅));
      [|exact Hrun].
    intros a. apply settled_bind.
    + destruct (qwkpktDecode cl);
        [by apply settled_runHook|apply settled_throw].
    + intros _. apply settled_bind; [apply settled_next|]. intros c0.
      destruct (codeIs c0 103); [apply settled_ret|apply settled_throw].
  - done.
  - done.
Qed.

Lemma X18_result_type_witness :
  hasShape
    {| buf := "Cy3:Boxi7g"; pos := 10; cache := [VRef 0%nat];
       scache := ["Box"];
       heap := [OObject (PClass Box) {[ "v" := VNum (NInt 7) ]}] |}
    (VRef 0%nat) (SObject (PClass Box)).
Proof.
  destruct (X18_result_type 2 (newUnserializer "Cy3:Boxi7g") 67 TCustom
              (VRef 0%nat)
              {| buf := "Cy3:Boxi7g"; pos := 10; cache := [VRef 0%nat];
                 scache := ["Box"];
                 heap := [OObject (PClass Box) {[ "v" := VNum (NInt 7) ]}] |}
              eq_refl eq_refl run_custom)
    as (cli & _ & H).
  destruct H as (a & o & Hv & Ho & Hs); [by repeat constructor|].
  injection Hv as <-. injection Ho as <-. simpl in Hs.
  exists 0%nat, (OObject (PClass Box) {[ "v" := VNum (NInt 7) ]}).
  split; [done|]. split; [done|]. done.
Defined.

(** ** Property X19 *)

(** X19: the fields of a plain object, tag [o].  When the rounds of the
    body decode the keys and values [kvs] and the terminator [g] stands
    after the last, [unserialize] returns the object it allocated at the
    tag, with the cursor behind the terminator, and the fields of the
    object are those of [kvs] and no other: a key has the value of its last
    assignment.  (The key [__proto__], which JavaScript does not store as a
    field, is left aside.) *)
Theorem X19_object_fields {host : Host} {resolver : TypeResolver}
    fuel st kvs f' st' :
  charCodeAt (buf st) (pos st) = Some 111 ->
  fieldRounds (unserialize fuel) (VRef (length (heap st))) fuel
    (allocPushed (OObject PObject ∅) (setPos (pos st + 1) st))
    kvs (S f') st' ->
  charCodeAt (buf st') (pos st') = Some 103 ->
  "__proto__" ∉ kvs.*1 ->
  exists fs,
    unserialize (S fuel) st
    = Ok (VRef (length (heap st))) (setPos (pos st' + 1) st') /\
    heap st' !! length (heap st) = Some (OObject PObject fs) /\
    (forall kvs1 k v kvs2,
       kvs = kvs1 ++ (k, v) :: kvs2 -> k ∉ kvs2.*1 -> fs !! k = Some v) /\
    (forall k, k ∉ kvs.*1 -> fs !! k = None).
Proof.
  intros Htag Hrounds Hend _.
  exists (assigned ∅ kvs). split; [|split; [|split]].
  - rewrite (unserialize_tag fuel st 111 TObject Htag eq_refl).
    change (unserializeTag (unserialize fuel) fuel TObject
              (setPos (pos st + 1) st))
      with ((unserializeObject (unserialize fuel) fuel
               (VRef (length (heap st))) ;;;
             ret (VRef (length (heap st))))
              (allocPushed (OObject PObject ∅) (setPos (pos st + 1) st))).
    unfold bind. rewrite (unserializeObject_rounds _ _ _ _ _ _ _ Hrounds).
    rewrite unserializeObject_round.
    pose proof (charCodeAt_Some_lt _ _ _ Hend) as Hlt.
    unfold bind at 1, atEnd at 1.
    replace (buflen st' <=? pos st') with false by (unfold buflen; lia).
    unfold bind at 1, peek at 1. by rewrite Hend.
  - apply (fieldRounds_fields _ _ _ _ _ _ _ Hrounds PObject ∅). simpl.
    by rewrite lookup_app_r, Nat.sub_diag.
  - intros kvs1 k v kvs2 -> Hk. by apply assigned_last.
  - intros k Hk. by rewrite assigned_other.
Qed.

Lemma X19_object_fields_witness :
  exists fs,
    unserialize 4 (newUnserializer "oy1:ai1R0i2g")
    = Ok (VRef 0%nat)
         (setPos (11 + 1)
            {| buf := "oy1:ai1R0i2g"; pos := 11; cache := [VRef 0%nat];
               scache := ["a"];
               heap := [OObject PObject {[ "a" := VNum (NInt 2) ]}] |}) /\
    heap {| buf := "oy1:ai1R0i2g"; pos := 11; cache := [VRef 0%nat];
            scache := ["a"];
            heap := [OObject PObject {[ "a" := VNum (NInt 2) ]}] |} !! 0%nat
    = Some (OObject PObject fs) /\
    (forall kvs1 k v kvs2,
       [("a", VNum (NInt 1)); ("a", VNum (NInt 2))] = kvs1 ++ (k, v) :: kvs2 ->
       k ∉ kvs2.*1 -> fs !! k = Some v) /\
    (forall k, k ∉ [("a", VNum (NInt 1)); ("a", VNum (NInt 2))].*1 ->
       fs !! k = None).
Proof.
  apply (X19_object_fields 3 (newUnserializer "oy1:ai1R0i2g")
           [("a", VNum (NInt 1)); ("a", VNum (NInt 2))] 0
           {| buf := "oy1:ai1R0i2g"; pos := 11; cache := [VRef 0%nat];
              scache := ["a"];
              heap := [OObject PObject {[ "a" := VNum (NInt 2) ]}] |});
    [reflexivity | | reflexivity | ].
  - apply (fr_next _ _ 2 _ "a"
             {| buf := "oy1:ai1R0i2g"; pos := 5; cache := [VRef 0%nat];
                scache := ["a"]; heap := [OObject PObject ∅] |}
             (VNum (NInt 1))
             {| buf := "oy1:ai1R0i2g"; pos := 7; cache := [VRef 0%nat];
                scache := ["a"]; heap := [OObject PObject ∅] |}
             {| buf := "oy1:ai1R0i2g"; pos := 7; cache := [VRef 0%nat];
                scache := ["a"];
                heap := [OObject PObject {[ "a" := VNum (NInt 1) ]}] |});
      [reflexivity | reflexivity | reflexivity | reflexivity
      | by vm_compute | ].
    apply (fr_next _ _ 1 _ "a"
             {| buf := "oy1:ai1R0i2g"; pos := 9; cache := [VRef 0%nat];
                scache := ["a"];
                heap := [OObject PObject {[ "a" := VNum (NInt 1) ]}] |}
             (VNum (NInt 2))
             {| buf := "oy1:ai1R0i2g"; pos := 11; cache := [VRef 0%nat];
                scache := ["a"];
                heap := [OObject PObject {[ "a" := VNum (NInt 1) ]}] |}
             {| buf := "oy1:ai1R0i2g"; pos := 11; cache := [VRef 0%nat];
                scache := ["a"];
                heap := [OObject PObject {[ "a" := VNum (NInt 2) ]}] |});
      [reflexivity | reflexivity | reflexivity | reflexivity
      | by vm_compute | apply fr_here].
  - simpl. intros H. apply elem_of_cons in H as [H|H]; [done|].
    apply elem_of_cons in H as [H|H]; [done|]. by apply elem_of_nil in H.
Defined.

(** ** Property X20 *)

(** X20: the end of the body of an int map, tag [q].  Where the rounds that
    store an entry leave the cursor, the character [h] ends the map:
    [unserialize] returns the object it allocated at the tag, with the
    cursor behind the [h].  Any character that is neither a colon nor [h],
    and the end of the input, make it throw "Invalid IntMap format"; the
    cursor is then one place further, as the character has been read. *)
Theorem X20_int_map_end {host : Host} {resolver : TypeResolver}
    fuel st f' st' :
  charCodeAt (buf st) (pos st) = Some 113 ->
  entryRounds (unserialize fuel) (VRef (length (heap st))) fuel
    (allocPushed (OObject PObject ∅) (setPos (pos st + 1) st)) (S f') st' ->
  (charCodeAt (buf st') (pos st') = Some 104 ->
   unserialize (S fuel) st
   = Ok (VRef (length (heap st))) (setPos (pos st' + 1) st')) /\
  (codeIs (charCodeAt (buf st') (pos st')) 58 = false ->
   codeIs (charCodeAt (buf st') (pos st')) 104 = false ->
   unserialize (S fuel) st
   = Err InvalidIntMapFormat (setPos (pos st' + 1) st')).
Proof.
  intros Htag Hrounds.
  assert (Hloop : unserialize (S fuel) st
                  = (intMapLoop (unserialize fuel) (S f')
                       (VRef (length (heap st))) ;;;
                     ret (VRef (length (heap st)))) st').
  { rewrite (unserialize_tag fuel st 113 TIntMap Htag eq_refl).
    change (unserializeTag (unserialize fuel) fuel TIntMap
              (setPos (pos st + 1) st))
      with ((intMapLoop (unserialize fuel) fuel (VRef (length (heap st))) ;;;
             ret (VRef (length (heap st))))
              (allocPushed (OObject PObject ∅) (setPos (pos st + 1) st))).
    unfold bind. by rewrite (intMapLoop_rounds _ _ _ _ _ _ Hrounds). }
  rewrite Hloop.
  split; [intros Hc|intros H58 H104]; cbn [intMapLoop]; unfold bind at 1;
    unfold bind at 1, next at 1.
  - by rewrite Hc.
  - by rewrite H58, H104.
Qed.

Lemma X20_int_map_end_witness :
  unserialize 3 (newUnserializer "q:4i7h")
  = Ok (VRef 0%nat)
       (setPos (5 + 1)
          {| buf := "q:4i7h"; pos := 5; cache := [VRef 0%nat]; scache := [];
             heap := [OObject PObject {[ "4" := VNum (NInt 7) ]}] |}) /\
  unserialize 3 (newUnserializer "q:4i7")
  = Err InvalidIntMapFormat
        (setPos (5 + 1)
           {| buf := "q:4i7"; pos := 5; cache := [VRef 0%nat]; scache := [];
              heap := [OObject PObject {[ "4" := VNum (NInt 7) ]}] |}).
Proof.
  split.
  - destruct (X20_int_map_end 2 (newUnserializer "q:4i7h") 0
                {| buf := "q:4i7h"; pos := 5; cache := [VRef 0%nat];
                   scache := [];
                   heap := [OObject PObject {[ "4" := VNum (NInt 7) ]}] |})
      as [H _]; [reflexivity| |exact (H eq_refl)].
    apply (er_next _ _ 1 _ 4
             {| buf := "q:4i7h"; pos := 3; cache := [VRef 0%nat];
                scache := []; heap := [OObject PObject ∅] |}
             (VNum (NInt 7))
             {| buf := "q:4i7h"; pos := 5; cache := [VRef 0%nat];
                scache := []; heap := [OObject PObject ∅] |}
             {| buf := "q:4i7h"; pos := 5; cache := [VRef 0%nat];
                scache := [];
                heap := [OObject PObject {[ "4" := VNum (NInt 7) ]}] |});
      [reflexivity | reflexivity | reflexivity | by vm_compute
      | apply er_here].
  - destruct (X20_int_map_end 2 (newUnserializer "q:4i7") 0
                {| buf := "q:4i7"; pos := 5; cache := [VRef 0%nat];
                   scache := [];
                   heap := [OObject PObject {[ "4" := VNum (NInt 7) ]}] |})
      as [_ H]; [reflexivity| |exact (H eq_refl eq_refl)].
    apply (er_next _ _ 1 _ 4
             {| buf := "q:4i7"; pos := 3; cache := [VRef 0%nat];
                scache := []; heap := [OObject PObject ∅] |}
             (VNum (NInt 7))
             {| buf := "q:4i7"; pos := 5; cache := [VRef 0%nat];
                scache := []; heap := [OObject PObject ∅] |}
             {| buf := "q:4i7"; pos := 5; cache := [VRef 0%nat];
                scache := [];
                heap := [OObject PObject {[ "4" := VNum (NInt 7) ]}] |});
      [reflexivity | reflexivity | reflexivity | by vm_compute
      | apply er_here].
Defined.

(** ** Property X21 *)

(** X21: a list of integers, round trip.  The tag [l], the items [i<z>] of
    the integers [zs] (each within 2^53 in absolute value) and the
    terminator [h], wherever they stand in the input and whatever follows
    them: [unserialize] returns a new array, the last object of the store,
    of length the number of the integers, whose elements are the integers
    of [zs] in their order; the cursor is behind the terminator and the
    caches hold, beside what they held, the new array. *)
Theorem X21_integer_list_round_trip {host : Host} {resolver : TypeResolver}
    fuel st zs rest :
  reads st ("l" +:+ intItems zs +:+ "h" +:+ rest) ->
  Forall (fun z => - 2 ^ 53 <= z <= 2 ^ 53) zs ->
  Z.of_nat (length zs) <= MAX_LENGTH ->
  (length zs < fuel)%nat ->
  exists st' elems,
    unserialize (S fuel) st = Ok (VRef (length (heap st))) st' /\
    buf st' = buf st /\
    pos st' = pos st + 1 + Z.of_nat (String.length (intItems zs)) + 1 /\
    cache st' = cache st ++ [VRef (length (heap st))] /\
    scache st' = scache st /\
    length (heap st') = S (length (heap st)) /\
    heap st' !! length (heap st)
    = Some (OArray (Z.of_nat (length zs)) elems) /\
    holds elems ((VNum ∘ NInt) <$> zs).
Proof.
  intros Hr _ Hmax Hfuel.
  destruct fuel as [|fuel]; [lia|].
  rewrite string_app_cons, string_app_nil in Hr.
  assert (Htag : charCodeAt (buf st) (pos st) = Some 108)
    by exact (reads_head _ _ _ Hr).
  set (st0 := allocPushed (OArray 0 ∅) (setPos (pos st + 1) st)).
  assert (Hr0 : reads st0 (intItems zs +:+ "h" +:+ rest)).
  { apply (reads_past st _ "l" _); [|done|done].
    by rewrite string_app_cons, string_app_nil. }
  destruct (int_items fuel (length (heap st)) ("h" +:+ rest) zs st0 0 ∅)
    as (st' & Hitems & Hr' & Hb & Hp & Hc & Hs & Hh);
    [done|done| |simpl; lia|].
  { simpl. by rewrite lookup_app_r, Nat.sub_diag. }
  rewrite string_app_cons, string_app_nil in Hr'.
  assert (Hend : charCodeAt (buf st') (pos st') = Some 104)
    by exact (reads_head _ _ _ Hr').
  destruct (loops_items (S fuel) _ _ _ _ Hitems
              (S fuel - length zs) [] ∅)
    as (Hl & _ & elems & Hheap & Hel).
  { simpl. by rewrite lookup_app_r, Nat.sub_diag. }
  { intros i. rewrite lookup_empty. by destruct (i <? 0). }
  rewrite length_fmap in Hl.
  replace (length zs + (S fuel - length zs))%nat with (S fuel) in Hl by lia.
  simpl app in Hheap, Hel. rewrite length_fmap in Hheap.
  exists (setPos (pos st' + 1) st'), elems.
  split; [|repeat split; simpl; try done].
  - rewrite (unserialize_tag (S fuel) st 108 TList Htag eq_refl).
    change (unserializeTag (unserialize (S fuel)) (S fuel) TList
              (setPos (pos st + 1) st))
      with ((listLoop (unserialize (S fuel)) (S fuel)
               (VRef (length (heap st))) ;;;
             ret (VRef (length (heap st)))) st0).
    unfold bind. rewrite Hl.
    destruct (S fuel - length zs)%nat as [|f] eqn:E; [lia|].
    simpl. unfold bind, peek. by rewrite Hend.
  - rewrite Hp. simpl. lia.
  - by rewrite Hh; simpl; rewrite length_app; simpl; lia.
Qed.

Lemma X21_integer_list_round_trip_witness :
  exists st' elems,
    unserialize 5 (newUnserializer "li7i-3i0h")
    = Ok (VRef (length (heap (newUnserializer "li7i-3i0h")))) st' /\
    buf st' = "li7i-3i0h" /\
    pos st' = 0 + 1 + Z.of_nat (String.length (intItems [7; -3; 0])) + 1 /\
    cache st' = [] ++ [VRef 0%nat] /\
    scache st' = [] /\
    length (heap st') = 1%nat /\
    heap st' !! 0%nat = Some (OArray (Z.of_nat 3) elems) /\
    holds elems ((VNum ∘ NInt) <$> [7; -3; 0]).
Proof.
  apply (X21_integer_list_round_trip 4 (newUnserializer "li7i-3i0h")
           [7; -3; 0] "").
  - by exists "".
  - repeat constructor; lia.
  - unfold MAX_LENGTH. simpl. lia.
  - simpl. lia.
Defined.

(** ** Property X22 *)

(** X22: decoding does not look behind the cursor.  When the
    [_qwkpktDecode] methods of the resolver's classes do not depend on the
    position that an error tells, the input has no [y] or [s] followed by a
    minus sign and the cursor is not negative, [unserialize] does behind any
    text [pre] what it does on the input alone: the same value or the same
    error, the same objects and caches, the cursor [pre] further on, as is
    the position that "Invalid char" tells. *)
Theorem X22_decoding_is_local {host : Host} {resolver : TypeResolver}
    pre fuel st :
  positionBlind pre ->
  tame (buf st) ->
  0 <= pos st ->
  unserialize fuel (embed pre st) = embedResult pre (unserialize fuel st).
Proof.
  intros Hhook Ht Hp. by apply (local_unserialize pre Hhook fuel st).
Qed.

Lemma X22_decoding_is_local_witness :
  unserialize 3 (embed "i7" (newUnserializer "Cy3:Boxi3g"))
  = embedResult "i7" (unserialize 3 (newUnserializer "Cy3:Boxi3g")).
Proof.
  apply (X22_decoding_is_local "i7" 3 (newUnserializer "Cy3:Boxi3g")).
  - apply exampleResolver_positionBlind.
  - by apply tameFrom_true.
  - simpl. lia.
Defined.
